(** * A chained hash map and its bucket list, embedded from
      [hash-map.js] and [linked-list.js].

    The JavaScript objects that are shared by reference (the list nodes,
    reached through [next]/[prev] and through the list's [firstNode] and
    [lastNode]) live in an explicit heap: a node is a handle (an index into
    the heap), [null] is [None].  Every method is a state transformer that
    returns the final state together with an outcome, so that the writes
    performed before a [TypeError] is thrown stay visible, as they do in
    JavaScript.

    Left out: [multiplicationHashFunction] (floating point),
    [printBuckets] (console output) and the demonstration at the end of
    hash-map.js.  A hash function is a total function to the natural
    numbers; array lengths are unbounded. *)

From Stdlib Require Import QArith String Ascii.
From stdpp Require Import base tactics option list.

Local Open Scope nat_scope.

(** Keys are JavaScript strings: sequences of UTF-16 code units (the numbers
    [charCodeAt] returns).  [===] on strings is equality of these sequences. *)
Definition Key : Type := list nat.

Definition key_of_string (s : string) : Key :=
  map nat_of_ascii (list_ascii_of_string s).

(** How a call ends.  [TypeError] is the exception JavaScript raises when a
    property of [null] or [undefined] is read or written.  [Diverges] is
    returned when the fuel of a loop is exhausted; the list loops are given
    one more unit than there are nodes in the heap, so they exhaust it only
    on a cyclic chain, where the JavaScript loop does not terminate.
    [BadRef] marks a handle outside the heap; JavaScript has no such
    reference and no well-formed state produces one. *)
Inductive outcome (A : Type) : Type :=
| Returns (a : A)
| TypeError
| Diverges
| BadRef.
Arguments Returns {A} a.
Arguments TypeError {A}.
Arguments Diverges {A}.
Arguments BadRef {A}.

Definition outcome_map {A B : Type} (f : A -> B) (o : outcome A) : outcome B :=
  match o with
  | Returns a => Returns (f a)
  | TypeError => TypeError
  | Diverges => Diverges
  | BadRef => BadRef
  end.

(** State and exception monad: the state survives an exception. *)
Definition M (St A : Type) : Type := St -> St * outcome A.

Definition ret {St A : Type} (a : A) : M St A := fun s => (s, Returns a).

Definition bind {St A B : Type} (m : M St A) (f : A -> M St B) : M St B :=
  fun s =>
    match m s with
    | (s', Returns a) => f a s'
    | (s', TypeError) => (s', TypeError)
    | (s', Diverges) => (s', Diverges)
    | (s', BadRef) => (s', BadRef)
    end.

Definition throw {St A : Type} : M St A := fun s => (s, TypeError).

Definition lift_outcome {St A : Type} (o : outcome A) : M St A := fun s => (s, o).

Declare Scope js_scope.
Delimit Scope js_scope with js.
Notation "'let*' x ':=' m 'in' k" := (bind m (fun x => k))
  (at level 10, x name, m at level 100, k at level 200) : js_scope.
Notation "m ';;' k" := (bind m (fun _ => k))
  (at level 100, k at level 200, right associativity) : js_scope.

(** [elements.forEach(({ key, value }) => { set(key, value); })] *)
Fixpoint for_each {St K V : Type} (set : K -> V -> M St unit) (elements : list (K * V))
  : M St unit :=
  match elements with
  | [] => ret tt
  | (k, v) :: rest => bind (set k v) (fun _ => for_each set rest)
  end.

(** [count / bucketCount >= 0.75], on rationals.  Both operands are integers
    below 2^53 and 0.75 is a binary fraction, so comparing the rational with
    3/4 decides what the floating-point comparison decides.  (In [Q],
    division by 0 gives 0, and [0 >= 0.75] is false like [NaN >= 0.75].) *)
Definition ratio (count bucketCount : nat) : Q :=
  (inject_Z (Z.of_nat count) / inject_Z (Z.of_nat bucketCount))%Q.

(** ** linked-list.js *)
Module LinkedList.
Section WithValue.
Context {V : Type}.

(** The object built by [LinkedListNode(key, value)]. *)
Record Node : Type := mkNode {
  key : Key;
  value : V;
  next : option nat;
  prev : option nat
}.

Definition LinkedListNode (k : Key) (v : V) : Node :=
  {| key := k; value := v; next := None; prev := None |}.

(** The heap: the nodes allocated so far, a node's handle being its index. *)
Abbreviation Heap := (list Node).

(** The three variables captured by the closures of [LinkedList()]. *)
Record state : Type := mkList {
  firstNode : option nat;
  lastNode : option nat;
  nodeCount : nat
}.

Definition LinkedList : state :=
  {| firstNode := None; lastNode := None; nodeCount := 0 |}.

(** A method runs on the heap and on the variables of its list. *)
Record store : Type := mkStore { heap : Heap; this : state }.

Definition with_next (nx : option nat) (n : Node) : Node :=
  {| key := key n; value := value n; next := nx; prev := prev n |}.
Definition with_prev (pv : option nat) (n : Node) : Node :=
  {| key := key n; value := value n; next := next n; prev := pv |}.
Definition with_value (v : V) (n : Node) : Node :=
  {| key := key n; value := v; next := next n; prev := prev n |}.

(** Reading [p.f] for a node [p]. *)
Definition read {A : Type} (f : Node -> A) (p : nat) : M store A :=
  fun s =>
    match heap s !! p with
    | Some n => (s, Returns (f n))
    | None => (s, BadRef)
    end.

(** Writing [p.f = x] for a node [p]. *)
Definition write (upd : Node -> Node) (p : nat) : M store unit :=
  fun s =>
    match heap s !! p with
    | Some n => ({| heap := <[p := upd n]> (heap s); this := this s |}, Returns tt)
    | None => (s, BadRef)
    end.

(** The target of a property access [o.f]: a [TypeError] when [o] is null. *)
Definition nonnull (o : option nat) : M store nat :=
  match o with
  | Some p => ret p
  | None => throw
  end.

Definition alloc (n : Node) : M store nat :=
  fun s => ({| heap := heap s ++ [n]; this := this s |}, Returns (length (heap s))).

Definition get_firstNode : M store (option nat) := fun s => (s, Returns (firstNode (this s))).
Definition get_lastNode : M store (option nat) := fun s => (s, Returns (lastNode (this s))).
Definition get_nodeCount : M store nat := fun s => (s, Returns (nodeCount (this s))).

Definition set_firstNode (o : option nat) : M store unit :=
  fun s => ({| heap := heap s;
               this := {| firstNode := o; lastNode := lastNode (this s);
                          nodeCount := nodeCount (this s) |} |}, Returns tt).
Definition set_lastNode (o : option nat) : M store unit :=
  fun s => ({| heap := heap s;
               this := {| firstNode := firstNode (this s); lastNode := o;
                          nodeCount := nodeCount (this s) |} |}, Returns tt).
Definition set_nodeCount (c : nat) : M store unit :=
  fun s => ({| heap := heap s;
               this := {| firstNode := firstNode (this s); lastNode := lastNode (this s);
                          nodeCount := c |} |}, Returns tt).

(** [while (currentNode && currentNode.key !== key) currentNode = currentNode.next]
    (lines 16-21).  The [for] loop of [append] (lines 26-33) visits the same
    nodes and leaves at the same node, so [append] uses this scan too. *)
Fixpoint search_loop (fuel : nat) (h : Heap) (k : Key) (currentNode : option nat)
  : outcome (option nat) :=
  match fuel with
  | 0 => Diverges
  | S fuel' =>
    match currentNode with
    | None => Returns None
    | Some p =>
      match h !! p with
      | None => BadRef
      | Some n =>
        if decide (key n = k) then Returns (Some p)
        else search_loop fuel' h k (next n)
      end
    end
  end.

Definition search (k : Key) : M store (option nat) :=
  fun s => (s, search_loop (S (length (heap s))) (heap s) k (firstNode (this s))).

Local Open Scope js_scope.

Definition append (k : Key) (v : V) : M store (option nat) :=
  let* nodeToReturn := search k in
  match nodeToReturn with
  | Some currentNode =>
    write (with_value v) currentNode ;;
    ret (Some currentNode)
  | None =>
    let* newNode := alloc (LinkedListNode k v) in
    let* first := get_firstNode in
    write (with_next first) newNode ;;
    (match first with
     | Some f => write (with_prev (Some newNode)) f
     | None => ret tt
     end) ;;
    set_firstNode (Some newNode) ;;
    let* last := get_lastNode in
    (match last with
     | None => let* f := get_firstNode in set_lastNode f
     | Some _ => ret tt
     end) ;;
    let* nodeToReturn := get_firstNode in
    let* c := get_nodeCount in
    set_nodeCount (S c) ;;
    ret nodeToReturn
  end.

(** Lines 57-74.  Every [node.prev] and [node.next] is read from the heap at
    the point where the source reads it. *)
Definition remove (node : nat) : M store unit :=
  let* c := get_nodeCount in
  match c with
  | 0 => ret tt
  | S c' =>
    set_nodeCount c' ;;
    let* p := read prev node in
    (match p with
     | None =>
       let* nx := read next node in
       set_firstNode nx ;;
       let* nx := read next node in
       let* target := nonnull nx in
       write (with_prev None) target
     | Some target =>
       let* nx := read next node in
       write (with_next nx) target
     end) ;;
    let* nx := read next node in
    match nx with
    | None =>
      let* p := read prev node in
      set_lastNode p ;;
      let* p := read prev node in
      let* target := nonnull p in
      write (with_next None) target
    | Some target =>
      let* p := read prev node in
      write (with_prev p) target
    end
  end.

Definition clear : M store unit :=
  set_firstNode None ;; set_lastNode None ;; set_nodeCount 0.

(** [forEach(callback)]: the callbacks of hash-map.js only read the node
    they are given and push onto an array, so a callback is a function from
    the node and the array so far to the new array. *)
Fixpoint forEach_loop {B : Type} (fuel : nat) (h : Heap) (callback : Node -> B -> B)
    (currentNode : option nat) (acc : B) : outcome B :=
  match fuel with
  | 0 => Diverges
  | S fuel' =>
    match currentNode with
    | None => Returns acc
    | Some p =>
      match h !! p with
      | None => BadRef
      | Some n => forEach_loop fuel' h callback (next n) (callback n acc)
      end
    end
  end.

Definition forEach {B : Type} (callback : Node -> B -> B) (acc : B) (s : store) : outcome B :=
  forEach_loop (S (length (heap s))) (heap s) callback (firstNode (this s)) acc.

(** The getter [length]. *)
Definition length (s : state) : nat := nodeCount s.

End WithValue.
Arguments Node V : clear implicits.
Arguments store V : clear implicits.
Abbreviation Heap V := (list (Node V)).
End LinkedList.

(** ** hash-map.js *)

(** Lines 37-46.  The numbers stay far below 2^53, so the floating-point
    arithmetic of JavaScript is exact and natural numbers model it.  For
    [bucketCount = 0] JavaScript computes [NaN]; the table never passes 0. *)
Definition defaultHashFunction (stringAsKey : Key) (bucketCount : nat) : nat :=
  let primeNumber := 31 in
  fold_left (fun hashCode charCode => (hashCode * primeNumber + charCode) mod bucketCount)
            stringAsKey 0.

Module HashMap.
Section WithValue.
Context {V : Type}.

(** The captured variable [buckets] and the heap its lists share.  The lists
    themselves are never aliased: each one is reachable from its slot of the
    array only. *)
Record state : Type := mkTable {
  heap : LinkedList.Heap V;
  buckets : list LinkedList.state
}.

Section WithHash.
Variable hashFn : Key -> nat -> nat.

(** [buckets[i].method(...)]: [buckets[i]] is [undefined] outside the array,
    and calling a method of [undefined] raises a [TypeError]. *)
Definition on_bucket {A : Type} (i : nat) (method : M (LinkedList.store V) A) : M state A :=
  fun t =>
    match buckets t !! i with
    | None => (t, TypeError)
    | Some l =>
      let '(s, r) := method {| LinkedList.heap := heap t; LinkedList.this := l |} in
      ({| heap := LinkedList.heap s;
          buckets := <[i := LinkedList.this s]> (buckets t) |}, r)
    end.

Definition length (t : state) : nat :=
  fold_left (fun result list => result + LinkedList.length list) (buckets t) 0.

Definition loadFactor (t : state) : Q := ratio (length t) (List.length (buckets t)).

Definition resize (bucketCount : nat) : M state unit :=
  fun t => ({| heap := heap t; buckets := replicate bucketCount LinkedList.LinkedList |},
            Returns tt).

(** The traversals of [keys], [values] and [entries]: each callback pushes
    something made of [node.key] and [node.value]. *)
Definition collect {B : Type} (f : Key -> V -> B) (t : state) : outcome (list B) :=
  fold_left
    (fun result list =>
       match result with
       | Returns acc =>
         LinkedList.forEach
           (fun node acc => acc ++ [f (LinkedList.key node) (LinkedList.value node)]) acc
           {| LinkedList.heap := heap t; LinkedList.this := list |}
       | e => e
       end)
    (buckets t) (Returns []).

Definition keys (t : state) : outcome (list Key) := collect (fun k _ => k) t.
Definition entries (t : state) : outcome (list (Key * V)) := collect (fun k v => (k, v)) t.

Local Open Scope js_scope.

(** Lines 72-81, with the [set] it calls back as a parameter. *)
Definition resizeBucketsIfNeeded_with (set : Key -> V -> M state unit) : M state unit :=
  fun t =>
    if Qle_bool (3 # 4) (loadFactor t) then
      (let* elements := lift_outcome (entries t) in
       resize (List.length (buckets t) * 2) ;;
       for_each set elements) t
    else ret tt t.

(** [set] and [resizeBucketsIfNeeded] call each other.  The fuel bounds the
    depth of these calls.  A call that ends without exhausting it ends the
    same way with any larger amount (lemma [set_fuel_stable]), and the
    amount [set] starts with is enough on every well-formed table (lemma
    [set_returns]). *)
Fixpoint set_fuel (fuel : nat) (k : Key) (v : V) : M state unit :=
  match fuel with
  | 0 => lift_outcome Diverges
  | S fuel' =>
    resizeBucketsIfNeeded_with (set_fuel fuel') ;;
    fun t =>
      let hash := hashFn k (List.length (buckets t)) in
      (on_bucket hash (LinkedList.append k v) ;; ret tt) t
  end.

Definition resizeBucketsIfNeeded : M state unit :=
  fun t => resizeBucketsIfNeeded_with (set_fuel (length t)) t.

Definition set (k : Key) (v : V) : M state unit :=
  fun t => set_fuel (S (length t)) k v t.

(** [null] is [None]. *)
Definition get (k : Key) (t : state) : outcome (option V) :=
  match on_bucket (hashFn k (List.length (buckets t))) (LinkedList.search k) t with
  | (_, Returns (Some result)) =>
    match heap t !! result with
    | Some n => Returns (Some (LinkedList.value n))
    | None => BadRef
    end
  | (_, Returns None) => Returns None
  | (_, TypeError) => TypeError
  | (_, Diverges) => Diverges
  | (_, BadRef) => BadRef
  end.

Definition has (k : Key) (t : state) : outcome bool :=
  outcome_map (fun result => match result with Some _ => true | None => false end)
    (snd (on_bucket (hashFn k (List.length (buckets t))) (LinkedList.search k) t)).

Definition remove (k : Key) : M state bool :=
  let* toRemove :=
    (fun t => on_bucket (hashFn k (List.length (buckets t))) (LinkedList.search k) t) in
  match toRemove with
  | Some node =>
    (fun t => on_bucket (hashFn k (List.length (buckets t))) (LinkedList.remove node) t) ;;
    ret true
  | None => ret false
  end.

(** [buckets.forEach(element => { element.clear(); })]: the lists are visited
    in index order and each call continues on the heap the previous one
    left. *)
Fixpoint clear_each (ls : list LinkedList.state) (h : LinkedList.Heap V)
  : LinkedList.Heap V * list LinkedList.state * outcome unit :=
  match ls with
  | [] => (h, [], Returns tt)
  | element :: rest =>
    match LinkedList.clear {| LinkedList.heap := h; LinkedList.this := element |} with
    | (s, Returns _) =>
      let '(h', rest', r) := clear_each rest (LinkedList.heap s) in
      (h', LinkedList.this s :: rest', r)
    | (s, TypeError) => (LinkedList.heap s, LinkedList.this s :: rest, TypeError)
    | (s, Diverges) => (LinkedList.heap s, LinkedList.this s :: rest, Diverges)
    | (s, BadRef) => (LinkedList.heap s, LinkedList.this s :: rest, BadRef)
    end
  end.

Definition clear : M state unit :=
  fun t =>
    let '(h, ls, r) := clear_each (buckets t) (heap t) in
    ({| heap := h; buckets := ls |}, r).

End WithHash.

(** [HashMap(hashFn)]: [buckets = null; resize(16)].  No node exists yet. *)
Definition HashMap : state :=
  fst (resize 16 {| heap := []; buckets := [] |}).

End WithValue.
Arguments state V : clear implicits.
End HashMap.

(** ** The table as a list of association lists

    What a chain holds, read along [next] from [firstNode], is a list of
    key/value pairs; a table is the list of these.  The operations below do
    on such lists what the JavaScript does on the linked nodes, including
    the way [remove] fails on a chain of one entry.  They are related to the
    embedded code by [refines]. *)
Module Model.
Section WithValue.
Context {V : Type}.

Abbreviation bucket := (list (Key * V)).
Abbreviation table := (list (list (Key * V))).

Fixpoint lookup (k : Key) (es : bucket) : option V :=
  match es with
  | [] => None
  | (k', v) :: es' => if decide (k' = k) then Some v else lookup k es'
  end.

Fixpoint update (k : Key) (v : V) (es : bucket) : bucket :=
  match es with
  | [] => []
  | (k', v') :: es' =>
    if decide (k' = k) then (k', v) :: es' else (k', v') :: update k v es'
  end.

Definition append (k : Key) (v : V) (es : bucket) : bucket :=
  match lookup k es with
  | Some _ => update k v es
  | None => (k, v) :: es
  end.

Fixpoint delete (k : Key) (es : bucket) : bucket :=
  match es with
  | [] => []
  | (k', v') :: es' => if decide (k' = k) then es' else (k', v') :: delete k es'
  end.

Definition count (bs : table) : nat := List.length (concat bs).

Section WithHash.
Variable hashFn : Key -> nat -> nat.

Definition find (k : Key) (bs : table) : option V :=
  match bs !! hashFn k (List.length bs) with
  | Some b => lookup k b
  | None => None
  end.

Definition resizeBucketsIfNeeded_with (set : Key -> V -> M table unit) : M table unit :=
  fun bs =>
    if Qle_bool (3 # 4) (ratio (count bs) (List.length bs)) then
      for_each set (concat bs) (replicate (List.length bs * 2) [])
    else (bs, Returns tt).

Fixpoint set_fuel (fuel : nat) (k : Key) (v : V) : M table unit :=
  match fuel with
  | 0 => lift_outcome Diverges
  | S fuel' =>
    bind (resizeBucketsIfNeeded_with (set_fuel fuel'))
      (fun _ bs =>
         let hash := hashFn k (List.length bs) in
         match bs !! hash with
         | Some b => (<[hash := append k v b]> bs, Returns tt)
         | None => (bs, TypeError)
         end)
  end.

Definition set (k : Key) (v : V) : M table unit :=
  fun bs => set_fuel (S (count bs)) k v bs.

Definition remove (k : Key) : M table bool :=
  fun bs =>
    let hash := hashFn k (List.length bs) in
    match bs !! hash with
    | None => (bs, TypeError)
    | Some b =>
      match lookup k b with
      | None => (bs, Returns false)
      | Some _ =>
        (<[hash := delete k b]> bs,
         match b with
         | [_] => TypeError
         | _ => Returns true
         end)
      end
    end.

Definition clear : M table unit :=
  fun bs => (map (fun _ => []) bs, Returns tt).

End WithHash.

Definition empty (bucketCount : nat) : table := replicate bucketCount [].

End WithValue.
Abbreviation bucket V := (list (Key * V)).
Abbreviation table V := (list (list (Key * V))).
End Model.

(** ** Representation of a table by linked nodes *)
Section Representation.
Context {V : Type}.

(** A linked entry: the handle of its node, and the pair the node stores. *)
Abbreviation cell := (nat * (Key * V))%type.

(** [dseg h prv cur l nxt]: in heap [h], starting at [cur] and following
    [next], one visits exactly the nodes of [l] and then reaches [nxt];
    [prv] is what the first node's [prev] holds and every later node's
    [prev] is the node before it. *)
Fixpoint dseg (h : LinkedList.Heap V) (prv cur : option nat) (l : list cell)
    (nxt : option nat) : Prop :=
  match l with
  | [] => cur = nxt
  | (p, (k, v)) :: l' =>
    cur = Some p /\
    exists nx, h !! p = Some (LinkedList.mkNode k v nx prv) /\ dseg h (Some p) nx l' nxt
  end.

(** A chain: a segment from [firstNode] to [null], whose head has no
    predecessor, and whose length is [nodeCount].  [lastNode] is left out:
    the code reads it only to compare it with [null] in [append]. *)
Definition chain (h : LinkedList.Heap V) (c : LinkedList.state) (l : list cell) : Prop :=
  dseg h None (LinkedList.firstNode c) l None /\
  LinkedList.nodeCount c = List.length l.

(** The handles of the cells of every chain. *)
Definition handles (L : list (list cell)) : list nat := concat (map (fun l => l.*1) L).

(** Every bucket is a chain, and no node is linked twice, be it in one chain
    or in two. *)
Definition represents (t : HashMap.state V) (L : list (list cell)) : Prop :=
  Forall2 (chain (HashMap.heap t)) (HashMap.buckets t) L /\
  NoDup (handles L).

Definition contents (L : list (list cell)) : Model.table V := map (fun l => l.*2) L.

Definition refines (t : HashMap.state V) (bs : Model.table V) : Prop :=
  exists L, represents t L /\ bs = contents L.

(** The handles at the two ends of a segment. *)
Definition last_handle (prv : option nat) (l : list cell) : option nat :=
  match last l with
  | Some c => Some c.1
  | None => prv
  end.

Definition first_handle (l : list cell) (nxt : option nat) : option nat :=
  match l with
  | c :: _ => Some c.1
  | [] => nxt
  end.

(** The handle of the first cell of [l] that holds key [k]. *)
Fixpoint locate (k : Key) (l : list cell) : option nat :=
  match l with
  | [] => None
  | (p, (k', _)) :: l' => if decide (k' = k) then Some p else locate k l'
  end.

(** The cells of [l] after the value of the first cell with key [k] is
    overwritten. *)
Fixpoint relabel (k : Key) (v : V) (l : list cell) : list cell :=
  match l with
  | [] => []
  | (p, (k', v')) :: l' =>
    if decide (k' = k) then (p, (k', v)) :: l' else (p, (k', v')) :: relabel k v l'
  end.

(** What a method call on one chain may do to the heap: it keeps the chain
    well formed, and touches no node outside the chain. *)
Definition chain_step (h : LinkedList.Heap V) (c : LinkedList.state) (l : list cell)
    (h' : LinkedList.Heap V) (c' : LinkedList.state) (l' : list cell) : Prop :=
  chain h' c' l' /\ NoDup l'.*1 /\
  List.length h <= List.length h' /\
  (forall q, q < List.length h -> q ∉ l.*1 -> h' !! q = h !! q) /\
  (forall q, q ∈ l'.*1 -> q ∈ l.*1 \/ List.length h <= q).

(** The two calls end the same way, in related states. *)
Definition sim {A : Type} (x : HashMap.state V * outcome A) (y : Model.table V * outcome A)
  : Prop :=
  refines x.1 y.1 /\ x.2 = y.2.

(** ** Invariants of the table *)
Section WithHash.
Variable hashFn : Key -> nat -> nat.

(** The precondition a hash function has to meet. *)
Definition in_range : Prop :=
  forall (k : Key) (n : nat), 0 < n -> hashFn k n < n.

(** Keys are unique in a bucket, and every key sits in the bucket its hash
    selects under the current bucket count. *)
Definition well_placed (bs : Model.table V) : Prop :=
  0 < List.length bs /\
  forall (i : nat) (b : Model.bucket V),
    bs !! i = Some b ->
    NoDup b.*1 /\ forall (k : Key), k ∈ b.*1 -> hashFn k (List.length bs) = i.

(** What the growth policy maintains between calls: without the entry
    inserted last, the load factor is below 0.75. *)
Definition below_threshold (bs : Model.table V) : Prop :=
  2 <= List.length bs /\ 4 * Model.count bs < 3 * List.length bs + 4.

(** What one [set k v] achieves. *)
Definition set_post (k : Key) (v : V) (bs bs' : Model.table V) : Prop :=
  well_placed bs' /\
  (forall k', Model.find hashFn k' bs'
              = if decide (k = k') then Some v else Model.find hashFn k' bs) /\
  Model.count bs'
  = Model.count bs + match Model.find hashFn k bs with Some _ => 0 | None => 1 end /\
  (4 * Model.count bs < 3 * List.length bs -> List.length bs' = List.length bs) /\
  (3 * List.length bs <= 4 * Model.count bs ->
   4 * Model.count bs < 6 * List.length bs + 4 ->
   List.length bs' = 2 * List.length bs).

(** The state every sequence of calls maintains. *)
Definition steady (bs : Model.table V) : Prop := well_placed bs /\ below_threshold bs.

(** ** Sequences of calls

    The calls that write: [get], [has], [length], [loadFactor], [keys],
    [values], [entries] and [printBuckets] only read the table, so a
    sequence of calls is followed through its [set], [remove] and [clear]
    calls. *)
Inductive Op : Type :=
| OpSet (k : Key) (v : V)
| OpRemove (k : Key)
| OpClear.

(** The state a call leaves, whether it returned or threw. *)
Definition step (t : HashMap.state V) (o : Op) : HashMap.state V :=
  match o with
  | OpSet k v => fst (HashMap.set hashFn k v t)
  | OpRemove k => fst (HashMap.remove hashFn k t)
  | OpClear => fst (HashMap.clear t)
  end.

Definition run (ops : list Op) (t : HashMap.state V) : HashMap.state V :=
  fold_left step ops t.

Definition reachable (t : HashMap.state V) : Prop :=
  exists ops, t = run ops HashMap.HashMap.

Definition model_step (bs : Model.table V) (o : Op) : Model.table V :=
  match o with
  | OpSet k v => fst (Model.set hashFn k v bs)
  | OpRemove k => fst (Model.remove hashFn k bs)
  | OpClear => fst (Model.clear bs)
  end.

End WithHash.

(** The value the specification expects for a key after a sequence of
    calls, read from the most recent call backwards: the value of the latest
    [set] of the key, unless a [remove] of the key or a [clear] came after
    it. *)
Fixpoint last_write (k : Key) (recent_first : list Op) : option V :=
  match recent_first with
  | [] => None
  | OpSet k' v :: older => if decide (k' = k) then Some v else last_write k older
  | OpRemove k' :: older => if decide (k' = k) then None else last_write k older
  | OpClear :: _ => None
  end.

Definition expected (ops : list Op) (k : Key) : option V := last_write k (rev ops).

End Representation.

(** ** Three statements that the code does not meet as they stand *)
Section AsStated.
Context {V : Type}.
Variable hashFn : Key -> nat -> nat.

(** A [set] that triggers a resize doubles the bucket count and leaves
    every key present before with its previous value. *)
Definition resize_keeps_every_value (t : HashMap.state V) (k : Key) (v : V) : Prop :=
  (3 # 4 <= HashMap.loadFactor t)%Q ->
  exists t',
    HashMap.set hashFn k v t = (t', Returns tt) /\
    List.length (HashMap.buckets t') = 2 * List.length (HashMap.buckets t) /\
    forall k' v', HashMap.get hashFn k' t = Returns (Some v') ->
                  HashMap.get hashFn k' t' = Returns (Some v').

(** A second [set(k, v)] right after the first leaves [length()] unchanged,
    creates no entry (no node is allocated) and changes no count (the
    buckets are as many and each holds as many entries). *)
Definition second_set_changes_nothing (t : HashMap.state V) (k : Key) (v : V) : Prop :=
  let t1 := (HashMap.set hashFn k v t).1 in
  let t2 := (HashMap.set hashFn k v t1).1 in
  HashMap.length t2 = HashMap.length t1 /\
  List.length (HashMap.heap t2) = List.length (HashMap.heap t1) /\
  map LinkedList.nodeCount (HashMap.buckets t2)
  = map LinkedList.nodeCount (HashMap.buckets t1).

(** [remove(node)] fails: it does not return normally. *)
Definition fails_fast (s : LinkedList.store V) (node : nat) : Prop :=
  (LinkedList.remove node s).2 ≠ Returns tt.

End AsStated.

(** ** Concrete tables *)
Definition sets_of (pairs : list (string * nat)) : list (@Op nat) :=
  map (fun e => OpSet (key_of_string e.1) e.2) pairs.

Definition eleven_pairs : list (string * nat) :=
  [("k1", 1); ("k2", 2); ("k3", 3); ("k4", 4); ("k5", 5); ("k6", 6);
   ("k7", 7); ("k8", 8); ("k9", 9); ("k10", 10); ("k11", 11)]%string.

Definition twelve_pairs : list (string * nat) := eleven_pairs ++ [("k12", 12)]%string.

(** A list holding ["a"], and another list of the same heap holding ["z"],
    ["y"], ["x"]: the nodes are 0 for ["a"] and 1, 2, 3 for ["x"], ["y"],
    ["z"]. *)
Definition two_lists : LinkedList.Heap nat * LinkedList.state * LinkedList.state :=
  let s1 := (LinkedList.append (key_of_string "a") 1
               {| LinkedList.heap := []; LinkedList.this := LinkedList.LinkedList |}).1 in
  let s2 := (LinkedList.append (key_of_string "x") 2
               {| LinkedList.heap := LinkedList.heap s1;
                  LinkedList.this := LinkedList.LinkedList |}).1 in
  let s3 := (LinkedList.append (key_of_string "y") 3 s2).1 in
  let s4 := (LinkedList.append (key_of_string "z") 4 s3).1 in
  (LinkedList.heap s4, LinkedList.this s1, LinkedList.this s4).

(** A hash function that sends every key to bucket 0. *)
Definition constantHashFunction (stringAsKey : Key) (bucketCount : nat) : nat := 0.

(** ** Further notions *)

(** The characters of a key read as the digits of a number in base 31, most
    significant first, without any reduction. *)
Definition polynomial (stringAsKey : Key) : nat :=
  fold_left (fun hashCode charCode => hashCode * 31 + charCode) stringAsKey 0.

(** The callback of [entries], on one list. *)
Definition push_pair {V : Type} (node : LinkedList.Node V) (acc : list (Key * V))
  : list (Key * V) :=
  acc ++ [(LinkedList.key node, LinkedList.value node)].

(** A chain whose [lastNode] is its last entry ([null] when it is empty). *)
Definition tailed {V : Type} (h : LinkedList.Heap V) (c : LinkedList.state)
    (l : list (nat * (Key * V))) : Prop :=
  chain h c l /\ LinkedList.lastNode c = last_handle None l.

(** A hash function that answers the bucket count, one past the last
    index. *)
Definition overflowingHashFunction (stringAsKey : Key) (bucketCount : nat) : nat :=
  bucketCount.

(** A list of one entry, ["a"], and a list of two, ["b"] before ["a"], each
    in a heap of its own, as [append] builds them. *)
Definition single_heap : LinkedList.Heap nat :=
  [LinkedList.LinkedListNode (key_of_string "a") 1].

Definition single_list : LinkedList.state :=
  {| LinkedList.firstNode := Some 0; LinkedList.lastNode := Some 0;
     LinkedList.nodeCount := 1 |}.

Definition pair_heap : LinkedList.Heap nat :=
  [LinkedList.mkNode (key_of_string "a") 1 None (Some 1);
   LinkedList.mkNode (key_of_string "b") 2 (Some 0) None].

Definition pair_list : LinkedList.state :=
  {| LinkedList.firstNode := Some 1; LinkedList.lastNode := Some 0;
     LinkedList.nodeCount := 2 |}.

(** Two keys that the default hash function sends to bucket 7 of 16. *)
Definition shared_bucket_pairs : list (string * nat) :=
  [("Place", 2); ("Instrument", 8)]%string.

(** * Proofs *)

(** ** The threshold test *)
Lemma ratio_threshold (c n : nat) :
  Qle_bool (3 # 4) (ratio c n) = true <-> 0 < n /\ 3 * n <= 4 * c.
Proof.
  unfold ratio. rewrite Qle_bool_iff.
  destruct n as [|n].
  - split; [|lia]. intros H. exfalso.
    unfold Qdiv, Qinv, Qmult, Qle in H; simpl in H. lia.
  - split.
    + intros H. split; [lia|].
      apply (Qmult_le_r _ _ (inject_Z (Z.of_nat (S n)))) in H;
        [|unfold Qlt, inject_Z; simpl; lia].
      unfold Qdiv in H. rewrite <- Qmult_assoc in H.
      rewrite (Qmult_comm (/ _)) in H. rewrite Qmult_inv_r in H;
        [|unfold Qeq, inject_Z; simpl; lia].
      rewrite Qmult_1_r in H. unfold Qle, Qmult, inject_Z in H; simpl in H. lia.
    + intros [_ H].
      apply (Qmult_le_r _ _ (inject_Z (Z.of_nat (S n))));
        [unfold Qlt, inject_Z; simpl; lia|].
      unfold Qdiv. rewrite <- Qmult_assoc.
      rewrite (Qmult_comm (/ _)). rewrite Qmult_inv_r;
        [|unfold Qeq, inject_Z; simpl; lia].
      rewrite Qmult_1_r. unfold Qle, Qmult, inject_Z; simpl. lia.
Qed.

Lemma ratio_below (c n : nat) :
  0 < n -> Qle_bool (3 # 4) (ratio c n) = false <-> 4 * c < 3 * n.
Proof.
  intros Hn. destruct (Qle_bool (3 # 4) (ratio c n)) eqn:E.
  - apply ratio_threshold in E. split; [discriminate|lia].
  - split; [|done]. intros _.
    destruct (decide (4 * c < 3 * n)) as [|Hge]; [done|].
    assert (Qle_bool (3 # 4) (ratio c n) = true) as E'
      by (apply ratio_threshold; lia).
    congruence.
Qed.

(** ** Segments of linked nodes *)
Section Segments.
Context {V : Type}.
Implicit Types (h : LinkedList.Heap V) (l : list (nat * (Key * V))) (p : nat).

Lemma dseg_lookup h prv cur l nxt p k v :
  dseg h prv cur l nxt -> (p, (k, v)) ∈ l ->
  exists nx pv, h !! p = Some (LinkedList.mkNode k v nx pv).
Proof.
  revert prv cur. induction l as [|[q [k' v']] l IH]; intros prv cur Hd Hin.
  - by apply elem_of_nil in Hin.
  - destruct Hd as (_ & nx & Hq & Hd).
    apply elem_of_cons in Hin as [Heq|Hin].
    + inversion Heq; subst. eauto.
    + eauto.
Qed.

Lemma dseg_handle_lt h prv cur l nxt p :
  dseg h prv cur l nxt -> p ∈ l.*1 -> p < List.length h.
Proof.
  intros Hd Hin. apply list_elem_of_fmap in Hin as ([q [k v]] & -> & Hin).
  destruct (dseg_lookup _ _ _ _ _ _ _ _ Hd Hin) as (nx & pv & Hp).
  by apply lookup_lt_Some in Hp.
Qed.

(** A segment only depends on the nodes it goes through. *)
Lemma dseg_frame h h' prv cur l nxt :
  dseg h prv cur l nxt ->
  (forall p, p ∈ l.*1 -> h' !! p = h !! p) ->
  dseg h' prv cur l nxt.
Proof.
  revert prv cur. induction l as [|[q [k v]] l IH]; intros prv cur Hd Hsame; [done|].
  destruct Hd as (-> & nx & Hq & Hd). split; [done|]. exists nx. split.
  - rewrite Hsame; [done|]. simpl. apply elem_of_cons. by left.
  - apply IH; [done|]. intros p Hp. apply Hsame. simpl. apply elem_of_cons. by right.
Qed.

Lemma last_handle_cons prv (c : nat * (Key * V)) l :
  last_handle prv (c :: l) = last_handle (Some c.1) l.
Proof.
  unfold last_handle. rewrite last_cons. by destruct (last l).
Qed.

Lemma dseg_first h prv cur l nxt :
  dseg h prv cur l nxt -> cur = first_handle l nxt.
Proof. destruct l as [|[q [k v]] l]; simpl; [done|]. by intros [-> _]. Qed.

Lemma dseg_app h prv cur l1 l2 nxt :
  dseg h prv cur (l1 ++ l2) nxt <->
  dseg h prv cur l1 (first_handle l2 nxt) /\
  dseg h (last_handle prv l1) (first_handle l2 nxt) l2 nxt.
Proof.
  revert prv cur. induction l1 as [|[q [k v]] l1 IH]; intros prv cur; simpl.
  - split.
    + intros Hd. split; [by eapply dseg_first|].
      by rewrite <- (dseg_first _ _ _ _ _ Hd).
    + intros [-> Hd]. done.
  - rewrite last_handle_cons. simpl. split.
    + intros (-> & nx & Hq & Hd). apply IH in Hd as [Hd1 Hd2]. eauto 10.
    + intros ((-> & nx & Hq & Hd1) & Hd2). split; [done|]. exists nx. split; [done|].
      apply IH. done.
Qed.

(** A chain without repeated handles is no longer than the heap. *)
Lemma handles_length (hs : list nat) (n : nat) :
  NoDup hs -> (forall p, p ∈ hs -> p < n) -> List.length hs <= n.
Proof.
  intros Hnd Hlt.
  assert (hs ⊆+ seq 0 n) as Hsub.
  { apply NoDup_submseteq; [done|]. intros p Hp. apply elem_of_seq. specialize (Hlt p Hp). lia. }
  apply submseteq_length in Hsub. by rewrite length_seq in Hsub.
Qed.

Lemma dseg_length h prv cur l nxt :
  dseg h prv cur l nxt -> NoDup l.*1 -> List.length l <= List.length h.
Proof.
  intros Hd Hnd. rewrite <- (length_fmap fst l).
  apply handles_length; [done|]. intros p Hp. by eapply dseg_handle_lt.
Qed.

Lemma search_loop_spec fuel h prv cur l k :
  dseg h prv cur l None -> List.length l < fuel ->
  LinkedList.search_loop fuel h k cur = Returns (locate k l).
Proof.
  revert prv cur l. induction fuel as [|fuel IH]; intros prv cur l Hd Hlen; [lia|].
  destruct l as [|[q [k' v]] l]; simpl in *.
  - by subst.
  - destruct Hd as (-> & nx & Hq & Hd). rewrite Hq. simpl.
    destruct (decide (k' = k)); [done|]. eapply IH; [done|lia].
Qed.

Lemma forEach_loop_spec {B : Type} fuel h prv cur l (f : Key -> V -> B) acc :
  dseg h prv cur l None -> List.length l < fuel ->
  LinkedList.forEach_loop fuel h
    (fun node acc => acc ++ [f (LinkedList.key node) (LinkedList.value node)]) cur acc
  = Returns (acc ++ map (fun e => f e.1 e.2) l.*2).
Proof.
  revert prv cur l acc. induction fuel as [|fuel IH]; intros prv cur l acc Hd Hlen; [lia|].
  destruct l as [|[q [k' v]] l]; simpl in *.
  - subst. by rewrite app_nil_r.
  - destruct Hd as (-> & nx & Hq & Hd). rewrite Hq. simpl.
    erewrite IH; [|done|lia]. by rewrite <- app_assoc.
Qed.

Lemma locate_lookup k l :
  match locate k l with
  | Some p => exists v, (p, (k, v)) ∈ l /\ Model.lookup k l.*2 = Some v
  | None => Model.lookup k l.*2 = None
  end.
Proof.
  induction l as [|[q [k' v]] l IH]; simpl; [done|].
  destruct (decide (k' = k)) as [->|Hne].
  - exists v. split; [apply elem_of_cons; by left|done].
  - destruct (locate k l); [|done].
    destruct IH as (v' & Hin & Hl). exists v'. split; [apply elem_of_cons; by right|done].
Qed.

End Segments.

(** ** The methods of a chain *)
Section ChainMethods.
Context {V : Type}.
Implicit Types (h : LinkedList.Heap V) (l : list (nat * (Key * V))) (p : nat).
Implicit Types (c : LinkedList.state).

Lemma relabel_fst k v l : (relabel k v l).*1 = l.*1.
Proof.
  induction l as [|[q [k' v']] l IH]; [done|]. cbn [relabel].
  destruct (decide (k' = k)); [done|]. rewrite !fmap_cons. by rewrite IH.
Qed.

Lemma relabel_snd k v l : (relabel k v l).*2 = Model.update k v l.*2.
Proof.
  induction l as [|[q [k' v']] l IH]; [done|]. cbn [relabel].
  rewrite !fmap_cons. cbn [Model.update snd].
  destruct (decide (k' = k)); [done|]. rewrite !fmap_cons. by rewrite IH.
Qed.

Lemma locate_elem k l p : locate k l = Some p -> p ∈ l.*1.
Proof.
  induction l as [|[q [k' v']] l IH]; simpl; [done|].
  destruct (decide (k' = k)).
  - intros [= ->]. apply elem_of_cons. by left.
  - intros H. apply elem_of_cons. right. by apply IH.
Qed.

Lemma dseg_relabel h prv cur l nxt k v p n :
  dseg h prv cur l nxt -> NoDup l.*1 ->
  locate k l = Some p -> h !! p = Some n ->
  dseg (<[p := LinkedList.with_value v n]> h) prv cur (relabel k v l) nxt.
Proof.
  revert prv cur. induction l as [|[q [k' v']] l IH]; intros prv cur Hd Hnd Hloc Hp; [done|].
  simpl in *. destruct Hd as (-> & nx & Hq & Hd).
  apply NoDup_cons in Hnd as [Hq_notin Hnd].
  destruct (decide (k' = k)) as [->|Hne].
  - injection Hloc as ->. simpl. split; [done|]. exists nx. split.
    + rewrite list_lookup_insert_eq; [|by eapply lookup_lt_Some].
      rewrite Hq in Hp. by injection Hp as <-.
    + eapply dseg_frame; [done|]. intros r Hr.
      apply list_lookup_insert_ne. intros ->. done.
  - simpl. split; [done|]. exists nx. split.
    + rewrite list_lookup_insert_ne; [done|]. intros ->.
      apply locate_elem in Hloc. done.
    + by apply IH.
Qed.

Lemma search_spec h c l k :
  chain h c l -> NoDup l.*1 ->
  LinkedList.search k {| LinkedList.heap := h; LinkedList.this := c |}
  = ({| LinkedList.heap := h; LinkedList.this := c |}, Returns (locate k l)).
Proof.
  intros [Hd Hc] Hnd.
  pose proof (dseg_length _ _ _ _ _ Hd Hnd) as Hlen.
  unfold LinkedList.search. cbn [LinkedList.heap LinkedList.this].
  rewrite (search_loop_spec _ _ _ _ _ k Hd); [done|lia].
Qed.

Lemma append_spec h c l k v :
  chain h c l -> NoDup l.*1 ->
  exists h' c' l' r,
    LinkedList.append k v {| LinkedList.heap := h; LinkedList.this := c |}
    = ({| LinkedList.heap := h'; LinkedList.this := c' |}, Returns r) /\
    chain_step h c l h' c' l' /\
    l'.*2 = Model.append k v l.*2.
Proof.
  intros Hch Hnd. pose proof Hch as [Hd Hc].
  unfold LinkedList.append, bind.
  rewrite (search_spec _ _ _ k Hch Hnd).
  pose proof (locate_lookup k l) as Hloc.
  destruct (locate k l) as [p|] eqn:Hp.
  - destruct Hloc as (v0 & Hin & Hlk).
    destruct (dseg_lookup _ _ _ _ _ _ _ _ Hd Hin) as (nx & pv & Hhp).
    unfold LinkedList.write. simpl. rewrite Hhp. simpl.
    eexists _, _, (relabel k v l), _. split; [reflexivity|]. split.
    + split; [|split; [|split; [|split]]].
      * split; [|by rewrite Hc, <- (length_fmap fst (relabel k v l)), relabel_fst, length_fmap].
        by eapply dseg_relabel.
      * by rewrite relabel_fst.
      * by rewrite length_insert.
      * intros q _ Hq. apply list_lookup_insert_ne. intros ->.
        apply Hq. by eapply locate_elem.
      * rewrite relabel_fst. by left.
    + rewrite relabel_snd. unfold Model.append. by rewrite Hlk.
  - unfold LinkedList.alloc, LinkedList.get_firstNode, LinkedList.write. simpl.
    rewrite lookup_app_r, Nat.sub_diag; [|done]. simpl.
    assert (forall (nd x : LinkedList.Node V),
      <[List.length h := x]> (h ++ [nd]) = h ++ [x]) as Hins.
    { intros nd x. rewrite insert_app_r_alt, Nat.sub_diag; done. }
    rewrite Hins.
    destruct l as [|[f [kf vf]] l]; simpl in Hd.
    + rewrite Hd. simpl.
      assert (forall c', LinkedList.firstNode c' = Some (List.length h) ->
                LinkedList.nodeCount c' = 1 ->
                chain_step h c [] (h ++ [LinkedList.with_next None (LinkedList.LinkedListNode k v)]) c'
                  [(List.length h, (k, v))]) as Hstep.
      { intros c' Hf Hn. split; [|split; [|split; [|split]]].
        - split; [|done]. simpl. split; [done|]. exists None. split; [|done].
          rewrite lookup_app_r, Nat.sub_diag; done.
        - simpl. apply NoDup_singleton.
        - rewrite length_app. lia.
        - intros q Hq _. by apply lookup_app_l.
        - intros q Hq. right. simpl in Hq. apply list_elem_of_singleton in Hq. lia. }
      destruct (LinkedList.lastNode c); simpl;
        (eexists _, _, [(List.length h, (k, v))], _; split; [reflexivity|];
         split; [|by unfold Model.append]; apply Hstep; simpl; [done|]; simpl in Hc; lia).
    + destruct Hd as (Hf & nx & Hhf & Hd). rewrite Hf. simpl.
      pose proof (lookup_lt_Some _ _ _ Hhf) as Hflt.
      rewrite lookup_app_l, Hhf; [|done]. simpl.
      apply NoDup_cons in Hnd as [Hf_notin Hnd].
      set (h' := <[f := _]> (h ++ _)).
      assert (h' !! List.length h
              = Some (LinkedList.mkNode k v (Some f) None)) as Hnew.
      { unfold h'. rewrite list_lookup_insert_ne; [|lia].
        rewrite lookup_app_r, Nat.sub_diag; done. }
      assert (forall q, q < List.length h -> q ≠ f -> h' !! q = h !! q) as Hold.
      { intros q Hq Hne. unfold h'. rewrite list_lookup_insert_ne; [|done].
        by apply lookup_app_l. }
      assert (forall c', LinkedList.firstNode c' = Some (List.length h) ->
                LinkedList.nodeCount c' = S (LinkedList.nodeCount c) ->
                chain_step h c ((f, (kf, vf)) :: l) h' c'
                  ((List.length h, (k, v)) :: (f, (kf, vf)) :: l)) as Hstep.
      { intros c' Hf' Hn. split; [|split; [|split; [|split]]].
        - split; [|simpl in *; lia]. simpl. split; [done|]. exists (Some f).
          split; [done|]. split; [done|]. exists nx. split.
          + unfold h'. rewrite list_lookup_insert_eq; [done|].
            rewrite length_app. lia.
          + eapply dseg_frame; [done|]. intros q Hq. apply Hold.
            * by eapply dseg_handle_lt.
            * intros ->. done.
        - simpl. apply NoDup_cons. split; [|by apply NoDup_cons].
          intros Hin. apply elem_of_cons in Hin as [Heq|Hin]; [lia|].
          apply (dseg_handle_lt _ _ _ _ _ _ Hd) in Hin. lia.
        - unfold h'. rewrite length_insert, length_app. lia.
        - intros q Hq Hnotin. apply Hold; [done|]. intros ->. apply Hnotin.
          simpl. apply elem_of_cons. by left.
        - intros q Hq. simpl in Hq. apply elem_of_cons in Hq as [->|Hq]; [right; lia|].
          by left. }
      destruct (LinkedList.lastNode c); simpl;
        (eexists _, _, ((List.length h, (k, v)) :: (f, (kf, vf)) :: l), _;
         split; [reflexivity|];
         split; [|unfold Model.append; simpl in *; by rewrite Hloc];
         apply Hstep; simpl; done).
Qed.

Lemma last_handle_snoc prv l (c0 : nat * (Key * V)) :
  last_handle prv (l ++ [c0]) = Some c0.1.
Proof. unfold last_handle. by rewrite last_snoc. Qed.

(** [remove] on the only entry of a chain: [firstNode] is cleared, then
    [node.next.prev = null] dereferences [null]; [lastNode] is never
    reached. *)
Lemma remove_sole h c p k v :
  chain h c [(p, (k, v))] ->
  LinkedList.remove p {| LinkedList.heap := h; LinkedList.this := c |}
  = ({| LinkedList.heap := h;
        LinkedList.this := {| LinkedList.firstNode := None;
                              LinkedList.lastNode := LinkedList.lastNode c;
                              LinkedList.nodeCount := 0 |} |}, TypeError).
Proof.
  intros [(Hf & nx & Hp & Hnx) Hc]. simpl in Hnx, Hc. subst nx.
  unfold LinkedList.remove, bind, LinkedList.get_nodeCount, LinkedList.set_nodeCount,
    LinkedList.read, LinkedList.set_firstNode. simpl.
  rewrite Hc. simpl. repeat (rewrite Hp; simpl). done.
Qed.

Lemma remove_spec h c l1 p k v l2 :
  chain h c (l1 ++ (p, (k, v)) :: l2) ->
  NoDup (l1 ++ (p, (k, v)) :: l2).*1 ->
  l1 ++ l2 ≠ [] ->
  exists h' c',
    LinkedList.remove p {| LinkedList.heap := h; LinkedList.this := c |}
    = ({| LinkedList.heap := h'; LinkedList.this := c' |}, Returns tt) /\
    chain_step h c (l1 ++ (p, (k, v)) :: l2) h' c' (l1 ++ l2).
Proof.
  intros [Hd Hc] Hnd Hne.
  apply dseg_app in Hd as [Hd1 (_ & nx & Hp & Hd2)].
  cbn [first_handle fst] in Hd1.
  rewrite length_app in Hc. cbn [List.length] in Hc.
  rewrite fmap_app, fmap_cons in Hnd. cbn [fst] in Hnd.
  apply NoDup_app in Hnd as (Hnd1 & Hdisj & Hnd2).
  apply NoDup_cons in Hnd2 as [Hp2 Hnd2].
  assert (p ∉ l1.*1) as Hp1.
  { intros Hin. apply (Hdisj _ Hin). apply elem_of_cons. by left. }
  pose proof (lookup_lt_Some _ _ _ Hp) as Hplt.
  unfold LinkedList.remove, bind, LinkedList.get_nodeCount, LinkedList.set_nodeCount,
    LinkedList.read, LinkedList.write, LinkedList.set_firstNode, LinkedList.set_lastNode,
    LinkedList.nonnull, ret.
  cbn [LinkedList.heap LinkedList.this LinkedList.nodeCount LinkedList.firstNode
       LinkedList.lastNode].
  replace (LinkedList.nodeCount c) with (S (List.length l1 + List.length l2)) by lia.
  destruct l1 as [|[a [ka va]] l1' _] using rev_ind.
  - (* the head is removed *)
    cbn [last_handle last] in Hp. simpl in Hd1.
    destruct l2 as [|[q [kq vq]] l2']; [done|].
    destruct Hd2 as (-> & nxq & Hq & Hd2).
    assert (q ≠ p) as Hqp.
    { intros ->. apply Hp2. simpl. apply elem_of_cons. by left. }
    pose proof (lookup_lt_Some _ _ _ Hq) as Hqlt.
    repeat (simpl;
      first [ rewrite Hp | rewrite Hq
            | rewrite list_lookup_insert_eq by (by rewrite ?length_insert)
            | rewrite list_lookup_insert_ne by done ]).
    rewrite list_insert_insert_eq.
    eexists _, _. split; [reflexivity|].
    simpl in Hnd2. apply NoDup_cons in Hnd2 as [Hq2 Hnd2'].
    split; [|split; [|split; [|split]]].
    + split; [|simpl; lia]. simpl. split; [done|]. exists nxq. split.
      * by rewrite list_lookup_insert_eq.
      * eapply dseg_frame; [done|]. intros r Hr.
        apply list_lookup_insert_ne. intros ->. done.
    + simpl. by apply NoDup_cons.
    + by rewrite length_insert.
    + intros r _ Hr. apply list_lookup_insert_ne. intros ->. apply Hr.
      simpl. apply elem_of_cons. right. apply elem_of_cons. by left.
    + intros r Hr. left. simpl. apply elem_of_cons. by right.
  - (* a node after the head is removed *)
    rewrite last_handle_snoc in Hp. cbn [fst] in Hp.
    apply dseg_app in Hd1 as [Hd1 (_ & nxa & Ha & Hnxa)].
    simpl in Hd1, Hnxa. subst nxa.
    rewrite fmap_app in Hnd1, Hp1, Hdisj. simpl in Hnd1, Hp1, Hdisj.
    pose proof Hnd1 as Hnd1a.
    apply NoDup_app in Hnd1 as (Hnd1 & Hdisj1 & _).
    assert (a ≠ p) as Hap.
    { intros ->. apply Hp1. apply elem_of_app. right. apply elem_of_cons. by left. }
    assert (a ∉ l1'.*1) as Ha1.
    { intros Hin. apply (Hdisj1 _ Hin). apply elem_of_cons. by left. }
    pose proof (lookup_lt_Some _ _ _ Ha) as Halt.
    destruct l2 as [|[q [kq vq]] l2'].
    + simpl in Hd2. subst nx.
      repeat (simpl;
        first [ rewrite Hp | rewrite Ha
              | rewrite list_lookup_insert_eq by (by rewrite ?length_insert)
              | rewrite list_lookup_insert_ne by done ]).
      rewrite list_insert_insert_eq.
      eexists _, _. split; [reflexivity|].
      rewrite app_nil_r.
      split; [|split; [|split; [|split]]].
      * split; [|rewrite !length_app in *; simpl in *; lia].
        apply dseg_app. simpl. split.
        -- eapply dseg_frame; [done|]. intros r Hr.
           apply list_lookup_insert_ne. intros ->. done.
        -- split; [done|]. exists None. split; [|done].
           by rewrite list_lookup_insert_eq.
      * rewrite fmap_app. simpl. apply NoDup_app. split; [done|]. split; [done|].
        apply NoDup_singleton.
      * by rewrite length_insert.
      * intros r _ Hr. apply list_lookup_insert_ne. intros ->. apply Hr.
        rewrite !fmap_app. simpl. apply elem_of_app. left. apply elem_of_app. right.
        apply elem_of_cons. by left.
      * intros r Hr. left. rewrite fmap_app. apply elem_of_app. by left.
    + destruct Hd2 as (-> & nxq & Hq & Hd2).
      assert (q ≠ p) as Hqp.
      { intros ->. apply Hp2. simpl. apply elem_of_cons. by left. }
      assert (q ≠ a) as Hqa.
      { intros ->. eapply (Hdisj a).
        - apply elem_of_app. right. apply elem_of_cons. by left.
        - simpl. apply elem_of_cons. right. apply elem_of_cons. by left. }
      pose proof (lookup_lt_Some _ _ _ Hq) as Hqlt.
      repeat (simpl;
        first [ rewrite Hp | rewrite Ha | rewrite Hq
              | rewrite list_lookup_insert_eq by (by rewrite ?length_insert)
              | rewrite list_lookup_insert_ne by done ]).
      eexists _, _. split; [reflexivity|].
      simpl in Hnd2. apply NoDup_cons in Hnd2 as [Hq2 Hnd2'].
      split; [|split; [|split; [|split]]].
      * split; [|rewrite !length_app in *; simpl in *; rewrite ?length_app in *; simpl in *; lia].
        rewrite <- app_assoc. apply dseg_app. simpl. split.
        -- eapply dseg_frame; [done|]. intros r Hr.
           assert (a ≠ r) by (by intros <-).
           assert (q ≠ r).
           { intros <-. eapply (Hdisj q).
             - apply elem_of_app. by left.
             - simpl. apply elem_of_cons. right. apply elem_of_cons. by left. }
           by rewrite !list_lookup_insert_ne.
        -- split; [done|]. exists (Some q). split.
           ++ rewrite list_lookup_insert_ne by done.
              by rewrite list_lookup_insert_eq.
           ++ split; [done|]. exists nxq. split.
              ** rewrite list_lookup_insert_eq; [done|]. by rewrite length_insert.
              ** eapply dseg_frame; [done|]. intros r Hr.
                 assert (q ≠ r) by (by intros <-).
                 assert (a ≠ r).
                 { intros <-. eapply (Hdisj a).
                   - apply elem_of_app. right. simpl. apply elem_of_cons. by left.
                   - simpl. apply elem_of_cons. right. apply elem_of_cons. by right. }
                 by rewrite !list_lookup_insert_ne.
      * rewrite fmap_app. apply NoDup_app. split; [by rewrite fmap_app|].
        split; [|by apply NoDup_cons].
        intros r Hr1 Hr2. rewrite fmap_app in Hr1. apply (Hdisj r Hr1).
        apply elem_of_cons. by right.
      * by rewrite !length_insert.
      * intros r _ Hr.
        assert (a ≠ r).
        { intros <-. apply Hr. rewrite !fmap_app. simpl. apply elem_of_app. left.
          apply elem_of_app. right. apply elem_of_cons. by left. }
        assert (q ≠ r).
        { intros <-. apply Hr. rewrite !fmap_app. simpl. apply elem_of_app. right.
          apply elem_of_cons. right. apply elem_of_cons. by left. }
        by rewrite !list_lookup_insert_ne.
      * intros r Hr. left. rewrite fmap_app in Hr |- *. apply elem_of_app in Hr as [Hr|Hr].
        -- apply elem_of_app. by left.
        -- apply elem_of_app. right. rewrite fmap_cons. apply elem_of_cons. by right.
Qed.

End ChainMethods.

(** ** Lists of lists *)
Section Concat.
Context {A : Type}.
Implicit Types (xs : list (list A)).

Lemma elem_of_concat xs (x : A) :
  x ∈ concat xs <-> exists l, x ∈ l /\ l ∈ xs.
Proof.
  induction xs as [|l0 xs IH]; simpl.
  - split; [by intros ?%elem_of_nil|]. by intros (l & _ & ?%elem_of_nil).
  - rewrite elem_of_app, IH. split.
    + intros [Hx|(l & Hx & Hl)].
      * exists l0. split; [done|]. apply elem_of_cons. by left.
      * exists l. split; [done|]. apply elem_of_cons. by right.
    + intros (l & Hx & [->|Hl]%elem_of_cons); [by left|]. right. eauto.
Qed.

Lemma NoDup_concat xs :
  NoDup (concat xs) <->
  (forall j l, xs !! j = Some l -> NoDup l) /\
  (forall j1 j2 l1 l2 x, j1 ≠ j2 -> xs !! j1 = Some l1 -> xs !! j2 = Some l2 ->
     x ∈ l1 -> x ∈ l2 -> False).
Proof.
  induction xs as [|l0 xs IH]; simpl.
  - split; [|intros; apply NoDup_nil_2]. intros _. split; intros; simplify_eq.
  - rewrite NoDup_app, IH. split.
    + intros (Hl0 & Hdisj & Hall & Hpair). split.
      * intros [|j] l Hj; simplify_eq/=; eauto.
      * intros [|j1] [|j2] l1 l2 x Hne H1 H2 Hx1 Hx2; simplify_eq/=.
        -- apply (Hdisj x Hx1). apply elem_of_concat. exists l2. split; [done|].
           by eapply list_elem_of_lookup_2.
        -- apply (Hdisj x Hx2). apply elem_of_concat. exists l1. split; [done|].
           by eapply list_elem_of_lookup_2.
        -- eapply (Hpair j1 j2); eauto.
    + intros [Hall Hpair]. split; [by apply (Hall 0)|]. split; [|split].
      * intros x Hx0 Hx. apply elem_of_concat in Hx as (l & Hxl & Hl).
        apply list_elem_of_lookup in Hl as [j Hj].
        by apply (Hpair 0 (S j) l0 l x).
      * intros j l Hj. by apply (Hall (S j)).
      * intros j1 j2 l1 l2 x Hne H1 H2. apply (Hpair (S j1) (S j2)); [lia|done|done].
Qed.

Lemma length_concat_insert xs i (l l' : list A) :
  xs !! i = Some l ->
  List.length (concat (<[i := l']> xs)) + List.length l
  = List.length (concat xs) + List.length l'.
Proof.
  revert i. induction xs as [|l0 xs IH]; intros [|i] Hi; simplify_eq/=.
  - rewrite !length_app. lia.
  - rewrite !length_app. specialize (IH i Hi). lia.
Qed.

End Concat.

(** ** The table on linked nodes and the table on lists *)
Section TableRepresentation.
Context {V : Type}.
Implicit Types (t : HashMap.state V) (L : list (list (nat * (Key * V)))).
Implicit Types (bs : Model.table V) (l : list (nat * (Key * V))).

Lemma handles_lookup L i l :
  NoDup (handles L) -> L !! i = Some l -> NoDup l.*1.
Proof.
  intros Hnd Hi. apply NoDup_concat in Hnd as [Hall _].
  apply (Hall i). by rewrite list_lookup_fmap, Hi.
Qed.

Lemma handles_disjoint L i j l l' p :
  NoDup (handles L) -> i ≠ j -> L !! i = Some l -> L !! j = Some l' ->
  p ∈ l.*1 -> p ∈ l'.*1 -> False.
Proof.
  intros Hnd Hne Hi Hj Hp Hp'. apply NoDup_concat in Hnd as [_ Hpair].
  apply (Hpair i j l.*1 l'.*1 p); [done| | |done|done].
  - by rewrite list_lookup_fmap, Hi.
  - by rewrite list_lookup_fmap, Hj.
Qed.

Lemma represents_bucket t L i c :
  represents t L -> HashMap.buckets t !! i = Some c ->
  exists l, L !! i = Some l /\ chain (HashMap.heap t) c l /\ NoDup l.*1.
Proof.
  intros [Hall Hnd] Hi.
  destruct (Forall2_lookup_l _ _ _ _ _ Hall Hi) as (l & Hl & Hch).
  exists l. split; [done|]. split; [done|]. by eapply handles_lookup.
Qed.

Lemma represents_length t L :
  represents t L -> List.length (contents L) = List.length (HashMap.buckets t).
Proof.
  intros [Hall _]. unfold contents. rewrite length_map.
  symmetry. by eapply Forall2_length.
Qed.

Lemma contents_lookup L i : contents L !! i = (fun l => l.*2) <$> L !! i.
Proof. unfold contents. apply list_lookup_fmap. Qed.

(** A call on bucket [i] that is a [chain_step] keeps the whole table
    represented: the other chains do not share a node with bucket [i]. *)
Lemma represents_step t L i c l h' c' l' :
  represents t L -> HashMap.buckets t !! i = Some c -> L !! i = Some l ->
  chain_step (HashMap.heap t) c l h' c' l' ->
  represents {| HashMap.heap := h'; HashMap.buckets := <[i := c']> (HashMap.buckets t) |}
             (<[i := l']> L).
Proof.
  intros [Hall Hnd] Hc Hl (Hch & Hnd' & Hlen & Hframe & Hfresh).
  assert (forall j lj p, L !! j = Some lj -> p ∈ lj.*1 ->
            p < List.length (HashMap.heap t)) as Hbound.
  { intros j lj p Hj Hp.
    destruct (Forall2_lookup_r _ _ _ _ _ Hall Hj) as (cj & _ & [Hd _]).
    by eapply dseg_handle_lt. }
  split; simpl.
  - apply Forall2_same_length_lookup_2.
    { rewrite !length_insert. by eapply Forall2_length. }
    intros j cj lj Hcj Hlj.
    destruct (decide (i = j)) as [->|Hne].
    + rewrite list_lookup_insert_eq in Hcj by (by eapply lookup_lt_Some).
      rewrite list_lookup_insert_eq in Hlj by (by eapply lookup_lt_Some).
      by simplify_eq.
    + rewrite list_lookup_insert_ne in Hcj by done.
      rewrite list_lookup_insert_ne in Hlj by done.
      destruct (Forall2_lookup_lr _ _ _ _ _ _ Hall Hcj Hlj) as [Hd Hn].
      split; [|done]. eapply dseg_frame; [done|].
      intros p Hp. apply Hframe; [by eapply Hbound|].
      intros Hp'. by eapply (handles_disjoint L i j l lj p).
  - unfold handles. rewrite list_fmap_insert. apply NoDup_concat. split.
    + intros j hs Hj.
      destruct (decide (i = j)) as [->|Hne].
      * rewrite list_lookup_insert_eq in Hj
          by (rewrite length_fmap; by eapply lookup_lt_Some).
        by simplify_eq.
      * rewrite list_lookup_insert_ne, list_lookup_fmap in Hj by done.
        destruct (L !! j) as [lj|] eqn:Hlj; simplify_eq/=.
        by eapply handles_lookup.
    + assert (forall j (hs : list nat) (p : nat), i ≠ j ->
                ((fun l => l.*1) <$> L) !! j = Some hs ->
                p ∈ l'.*1 -> p ∈ hs -> False) as Hone.
      { intros j hs p Hne Hj Hp Hp'. rewrite list_lookup_fmap in Hj.
        destruct (L !! j) as [lj|] eqn:Hlj; simplify_eq/=.
        destruct (Hfresh p Hp) as [Hold|Hnew].
        - by eapply (handles_disjoint L i j l lj p).
        - pose proof (Hbound j lj p Hlj Hp'). lia. }
      intros j1 j2 hs1 hs2 p Hne H1 H2 Hp1 Hp2.
      destruct (decide (i = j1)) as [->|Hne1].
      * rewrite list_lookup_insert_eq in H1
          by (rewrite length_fmap; by eapply lookup_lt_Some).
        rewrite list_lookup_insert_ne in H2 by done. simplify_eq.
        by eapply (Hone j2 hs2 p).
      * rewrite list_lookup_insert_ne in H1 by done.
        destruct (decide (i = j2)) as [->|Hne2].
        -- rewrite list_lookup_insert_eq in H2
             by (rewrite length_fmap; by eapply lookup_lt_Some).
           simplify_eq. by eapply (Hone j1 hs1 p).
        -- rewrite list_lookup_insert_ne in H2 by done.
           rewrite list_lookup_fmap in H1, H2.
           destruct (L !! j1) as [lj1|] eqn:Hl1; simplify_eq/=.
           destruct (L !! j2) as [lj2|] eqn:Hl2; simplify_eq/=.
           by eapply (handles_disjoint L j1 j2 lj1 lj2 p).
Qed.

Lemma contents_insert L i l : contents (<[i := l]> L) = <[i := l.*2]> (contents L).
Proof. unfold contents. apply (list_fmap_insert (fun l => l.*2)). Qed.

Lemma length_sum (cs : list LinkedList.state) L (h : LinkedList.Heap V) acc :
  Forall2 (chain h) cs L ->
  fold_left (fun result list => result + LinkedList.length list) cs acc
  = acc + Model.count (contents L).
Proof.
  intros Hall. revert acc. induction Hall as [|c l cs L [_ Hc] _ IH]; intros acc; simpl.
  - unfold Model.count. simpl. lia.
  - rewrite IH. unfold Model.count, LinkedList.length. simpl.
    rewrite length_app, length_fmap, Hc. lia.
Qed.

Lemma length_spec t L : represents t L -> HashMap.length t = Model.count (contents L).
Proof. intros [Hall _]. unfold HashMap.length. by rewrite (length_sum _ L (HashMap.heap t)). Qed.

End TableRepresentation.

(** ** The fuel of [set] does not matter once it suffices *)
Section Fuel.
Context {V : Type}.
Variable hashFn : Key -> nat -> nat.
Implicit Types (t : HashMap.state V).

Lemma for_each_stable (set1 set2 : Key -> V -> M (HashMap.state V) unit) :
  (forall k v t t' r, set1 k v t = (t', r) -> r ≠ Diverges -> set2 k v t = (t', r)) ->
  forall elements t t' r,
    for_each set1 elements t = (t', r) -> r ≠ Diverges ->
    for_each set2 elements t = (t', r).
Proof.
  intros Hset elements. induction elements as [|[k v] rest IH]; intros t t' r Heq Hr.
  - done.
  - cbn [for_each] in Heq |- *. unfold bind in Heq |- *.
    destruct (set1 k v t) as [t1 r1] eqn:H1.
    destruct r1 as [[]| | |].
    + rewrite (Hset _ _ _ _ _ H1) by done. by apply IH.
    + injection Heq as <- <-. by rewrite (Hset _ _ _ _ _ H1).
    + injection Heq as <- <-. done.
    + injection Heq as <- <-. by rewrite (Hset _ _ _ _ _ H1).
Qed.

Lemma resizeBucketsIfNeeded_stable (set1 set2 : Key -> V -> M (HashMap.state V) unit) :
  (forall k v t t' r, set1 k v t = (t', r) -> r ≠ Diverges -> set2 k v t = (t', r)) ->
  forall t t' r,
    HashMap.resizeBucketsIfNeeded_with set1 t = (t', r) -> r ≠ Diverges ->
    HashMap.resizeBucketsIfNeeded_with set2 t = (t', r).
Proof.
  intros Hset t t' r. unfold HashMap.resizeBucketsIfNeeded_with.
  destruct (Qle_bool (3 # 4) (HashMap.loadFactor t)); [|done].
  unfold bind, lift_outcome. destruct (HashMap.entries t) as [elements| | |]; try done.
  cbn. apply for_each_stable. done.
Qed.

(** A call that did not run out of fuel ends the same way with more. *)
Lemma set_fuel_stable (fuel fuel' : nat) k v t t' r :
  fuel <= fuel' ->
  HashMap.set_fuel hashFn fuel k v t = (t', r) -> r ≠ Diverges ->
  HashMap.set_fuel hashFn fuel' k v t = (t', r).
Proof.
  revert fuel' k v t t' r.
  induction fuel as [|fuel IH]; intros fuel' k v t t' r Hle Heq Hr.
  - injection Heq as <- <-. done.
  - destruct fuel' as [|fuel']; [lia|].
    cbn [HashMap.set_fuel] in Heq |- *. unfold bind at 1 in Heq. unfold bind at 1.
    destruct (HashMap.resizeBucketsIfNeeded_with (HashMap.set_fuel hashFn fuel) t)
      as [t1 r1] eqn:H1.
    assert (r1 ≠ Diverges) as Hr1.
    { intros ->. injection Heq as <- <-. done. }
    rewrite (resizeBucketsIfNeeded_stable _ (HashMap.set_fuel hashFn fuel')
               (fun k0 v0 t0 t0' r0 H0 Hr0 => IH fuel' k0 v0 t0 t0' r0 ltac:(lia) H0 Hr0)
               _ _ _ H1 Hr1).
    done.
Qed.

End Fuel.

(** ** Every method of the table does what its list version does *)
Section Simulation.
Context {V : Type}.
Variable hashFn : Key -> nat -> nat.
Implicit Types (t : HashMap.state V) (L : list (list (nat * (Key * V)))).
Implicit Types (bs : Model.table V) (l : list (nat * (Key * V))).

Lemma refines_length t bs :
  refines t bs ->
  List.length (HashMap.buckets t) = List.length bs /\ HashMap.length t = Model.count bs.
Proof.
  intros (L & Hrep & ->). split.
  - symmetry. by apply represents_length.
  - by apply length_spec.
Qed.

Lemma forEach_spec {B : Type} (f : Key -> V -> B) (h : LinkedList.Heap V) c l acc :
  chain h c l -> NoDup l.*1 ->
  LinkedList.forEach
    (fun node acc => acc ++ [f (LinkedList.key node) (LinkedList.value node)]) acc
    {| LinkedList.heap := h; LinkedList.this := c |}
  = Returns (acc ++ map (fun e => f e.1 e.2) l.*2).
Proof.
  intros [Hd Hc] Hnd. unfold LinkedList.forEach. cbn [LinkedList.heap LinkedList.this].
  apply (forEach_loop_spec _ _ None _ _ f acc Hd).
  pose proof (dseg_length _ _ _ _ _ Hd Hnd). lia.
Qed.

Lemma collect_fold {B : Type} (f : Key -> V -> B) (h : LinkedList.Heap V) cs L acc :
  Forall2 (chain h) cs L -> Forall (fun l => NoDup l.*1) L ->
  fold_left
    (fun result list =>
       match result with
       | Returns acc =>
         LinkedList.forEach
           (fun node acc => acc ++ [f (LinkedList.key node) (LinkedList.value node)]) acc
           {| LinkedList.heap := h; LinkedList.this := list |}
       | e => e
       end) cs (Returns acc)
  = Returns (acc ++ map (fun e => f e.1 e.2) (concat (contents L))).
Proof.
  intros Hall. revert acc.
  induction Hall as [|c l cs L Hch _ IH]; intros acc Hnd.
  - simpl. by rewrite app_nil_r.
  - apply Forall_cons in Hnd as [Hl Hnd]. cbn [fold_left].
    rewrite (forEach_spec f h c l) by done.
    rewrite IH by done. unfold contents. cbn [map concat].
    by rewrite map_app, app_assoc.
Qed.

Lemma represents_NoDup t L : represents t L -> Forall (fun l => NoDup l.*1) L.
Proof.
  intros [_ Hnd]. apply Forall_lookup. intros i l Hl. by eapply handles_lookup.
Qed.

Lemma entries_spec t bs : refines t bs -> HashMap.entries t = Returns (concat bs).
Proof.
  intros (L & Hrep & ->). unfold HashMap.entries, HashMap.collect.
  rewrite (collect_fold _ _ _ L); [|apply Hrep|by eapply represents_NoDup].
  simpl. f_equal. clear. induction (concat (contents L)) as [|[k v] es IH]; simpl; [done|].
  by rewrite IH.
Qed.

Lemma keys_spec t bs : refines t bs -> HashMap.keys t = Returns (concat bs).*1.
Proof.
  intros (L & Hrep & ->). unfold HashMap.keys, HashMap.collect.
  etrans.
  { apply (collect_fold (fun k _ => k) (HashMap.heap t) _ L);
      [apply Hrep|by eapply represents_NoDup]. }
  done.
Qed.

Lemma get_spec t bs k :
  refines t bs ->
  HashMap.get hashFn k t
  = match bs !! hashFn k (List.length bs) with
    | Some b => Returns (Model.lookup k b)
    | None => TypeError
    end.
Proof.
  intros Href. pose proof Href as (L & Hrep & ->).
  destruct (refines_length _ _ Href) as [Hlen _].
  unfold HashMap.get, HashMap.on_bucket. rewrite Hlen, contents_lookup.
  destruct (HashMap.buckets t !! _) as [c|] eqn:Hc.
  - destruct (represents_bucket _ _ _ _ Hrep Hc) as (l & Hl & Hch & Hnd).
    rewrite Hl, (search_spec _ _ _ k Hch Hnd). simpl.
    pose proof (locate_lookup k l) as Hloc.
    destruct (locate k l) as [p|] eqn:Hp.
    + destruct Hloc as (v & Hin & ->). destruct Hch as [Hd _].
      destruct (dseg_lookup _ _ _ _ _ _ _ _ Hd Hin) as (nx & pv & ->). done.
    + by rewrite Hloc.
  - destruct (L !! _) as [l|] eqn:Hl; [|done].
    destruct Hrep as [Hall _].
    destruct (Forall2_lookup_r _ _ _ _ _ Hall Hl) as (c & Hc' & _). congruence.
Qed.

Lemma has_spec t bs k :
  refines t bs ->
  HashMap.has hashFn k t
  = match bs !! hashFn k (List.length bs) with
    | Some b => Returns (match Model.lookup k b with Some _ => true | None => false end)
    | None => TypeError
    end.
Proof.
  intros Href. pose proof Href as (L & Hrep & ->).
  destruct (refines_length _ _ Href) as [Hlen _].
  unfold HashMap.has, HashMap.on_bucket. rewrite Hlen, contents_lookup.
  destruct (HashMap.buckets t !! _) as [c|] eqn:Hc.
  - destruct (represents_bucket _ _ _ _ Hrep Hc) as (l & Hl & Hch & Hnd).
    rewrite Hl, (search_spec _ _ _ k Hch Hnd). simpl.
    pose proof (locate_lookup k l) as Hloc.
    destruct (locate k l) as [p|] eqn:Hp.
    + destruct Hloc as (v & Hin & ->). done.
    + by rewrite Hloc.
  - destruct (L !! _) as [l|] eqn:Hl; [|done].
    destruct Hrep as [Hall _].
    destruct (Forall2_lookup_r _ _ _ _ _ Hall Hl) as (c & Hc' & _). congruence.
Qed.

Lemma sim_intro {A : Type} t bs (r : outcome A) : refines t bs -> sim (t, r) (bs, r).
Proof. by split. Qed.

Lemma refines_lookup_None t bs i :
  refines t bs -> HashMap.buckets t !! i = None -> bs !! i = None.
Proof.
  intros Href Hi. destruct (refines_length _ _ Href) as [Hlen _].
  apply lookup_ge_None. apply lookup_ge_None in Hi. lia.
Qed.

Lemma append_bucket_sim t bs i k v :
  refines t bs ->
  sim (bind (HashMap.on_bucket i (LinkedList.append k v)) (fun _ => ret tt) t)
      (match bs !! i with
       | Some b => (<[i := Model.append k v b]> bs, Returns tt)
       | None => (bs, TypeError)
       end).
Proof.
  intros Href. unfold bind, HashMap.on_bucket.
  destruct (HashMap.buckets t !! i) as [c|] eqn:Hc.
  - destruct Href as (L & Hrep & ->).
    destruct (represents_bucket _ _ _ _ Hrep Hc) as (l & Hl & Hch & Hnd).
    destruct (append_spec _ _ _ k v Hch Hnd) as (h' & c' & l' & r & Heq & Hstep & Hl').
    rewrite Heq, contents_lookup, Hl. simpl. split; [|done]. simpl.
    exists (<[i := l']> L). split.
    + by eapply represents_step.
    + by rewrite contents_insert, Hl'.
  - rewrite (refines_lookup_None _ _ _ Href Hc). by apply sim_intro.
Qed.

Lemma concat_replicate_nil {A : Type} (n : nat) : concat (replicate n (@nil A)) = [].
Proof. induction n as [|n IH]; simpl; done. Qed.

Lemma map_replicate {A B : Type} (f : A -> B) (n : nat) (x : A) :
  map f (replicate n x) = replicate n (f x).
Proof. induction n as [|n IH]; simpl; [done|]. by rewrite IH. Qed.

Lemma map_const {A B : Type} (x : B) (xs : list A) :
  map (fun _ => x) xs = replicate (List.length xs) x.
Proof. induction xs as [|? xs IH]; simpl; [done|]. by rewrite IH. Qed.

Lemma resize_refines (h : LinkedList.Heap V) (n : nat) :
  refines {| HashMap.heap := h; HashMap.buckets := replicate n LinkedList.LinkedList |}
          (replicate n []).
Proof.
  exists (replicate n []). split; [split|]; simpl.
  - apply Forall2_replicate. by split.
  - unfold handles. rewrite map_replicate. simpl. rewrite concat_replicate_nil.
    apply NoDup_nil_2.
  - unfold contents. by rewrite map_replicate.
Qed.

Lemma for_each_sim (set : Key -> V -> M (HashMap.state V) unit)
    (aset : Key -> V -> M (Model.table V) unit) :
  (forall k v t bs, refines t bs -> sim (set k v t) (aset k v bs)) ->
  forall elements t bs, refines t bs ->
    sim (for_each set elements t) (for_each aset elements bs).
Proof.
  intros Hset elements. induction elements as [|[k v] rest IH]; intros t bs Href.
  - by apply sim_intro.
  - simpl. unfold bind. destruct (Hset k v t bs Href) as [Href' Hr].
    destruct (set k v t) as [t' r], (aset k v bs) as [bs' r']. simpl in *. subst r'.
    destruct r; try by apply sim_intro. by apply IH.
Qed.

Lemma resizeBucketsIfNeeded_sim (set : Key -> V -> M (HashMap.state V) unit)
    (aset : Key -> V -> M (Model.table V) unit) :
  (forall k v t bs, refines t bs -> sim (set k v t) (aset k v bs)) ->
  forall t bs, refines t bs ->
    sim (HashMap.resizeBucketsIfNeeded_with set t)
        (Model.resizeBucketsIfNeeded_with aset bs).
Proof.
  intros Hset t bs Href. destruct (refines_length _ _ Href) as [Hlen Hcount].
  unfold HashMap.resizeBucketsIfNeeded_with, Model.resizeBucketsIfNeeded_with,
    HashMap.loadFactor.
  rewrite Hlen, Hcount.
  destruct (Qle_bool (3 # 4) (ratio (Model.count bs) (List.length bs))).
  - unfold bind, lift_outcome, HashMap.resize. rewrite (entries_spec _ _ Href).
    apply for_each_sim; [done|]. apply resize_refines.
  - by apply sim_intro.
Qed.

Lemma set_fuel_sim fuel k v t bs :
  refines t bs ->
  sim (HashMap.set_fuel hashFn fuel k v t) (Model.set_fuel hashFn fuel k v bs).
Proof.
  revert k v t bs. induction fuel as [|fuel IH]; intros k v t bs Href.
  - by apply sim_intro.
  - cbn [HashMap.set_fuel Model.set_fuel]. unfold bind at 1 3.
    destruct (resizeBucketsIfNeeded_sim _ _ IH t bs Href) as [Href' Hr].
    destruct (HashMap.resizeBucketsIfNeeded_with _ t) as [t' r].
    destruct (Model.resizeBucketsIfNeeded_with _ bs) as [bs' r'].
    simpl in Href', Hr. subst r'.
    destruct r; try by apply sim_intro.
    destruct (refines_length _ _ Href') as [-> _].
    by apply append_bucket_sim.
Qed.

Lemma set_sim k v t bs :
  refines t bs -> sim (HashMap.set hashFn k v t) (Model.set hashFn k v bs).
Proof.
  intros Href. unfold HashMap.set, Model.set.
  destruct (refines_length _ _ Href) as [_ ->]. by apply set_fuel_sim.
Qed.

Lemma locate_split k l p :
  locate k l = Some p ->
  exists l1 v l2, l = l1 ++ (p, (k, v)) :: l2 /\
                 Model.delete k l.*2 = (l1 ++ l2).*2.
Proof.
  induction l as [|[q [k' v']] l IH]; simpl; [done|].
  destruct (decide (k' = k)) as [->|Hne].
  - intros [= ->]. by exists [], v', l.
  - intros Hloc. destruct (IH Hloc) as (l1 & v & l2 & -> & Hdel).
    exists ((q, (k', v')) :: l1), v, l2. split; [done|].
    rewrite <- !app_comm_cons, !fmap_cons. cbn [Model.delete snd].
    destruct (decide (k' = k)); [done|]. f_equal. exact Hdel.
Qed.

Lemma remove_sim k t bs :
  refines t bs -> sim (HashMap.remove hashFn k t) (Model.remove hashFn k bs).
Proof.
  intros Href. destruct (refines_length _ _ Href) as [Hlen _].
  unfold HashMap.remove, Model.remove, bind, HashMap.on_bucket at 1. rewrite Hlen.
  set (i := hashFn k (List.length bs)).
  destruct (HashMap.buckets t !! i) as [c|] eqn:Hc.
  - pose proof Href as (L & Hrep & ->).
    destruct (represents_bucket _ _ _ _ Hrep Hc) as (l & Hl & Hch & Hnd).
    rewrite (search_spec _ _ _ k Hch Hnd), contents_lookup, Hl.
    cbn [LinkedList.heap LinkedList.this fmap option_fmap option_map].
    rewrite list_insert_id by done.
    assert ({| HashMap.heap := HashMap.heap t; HashMap.buckets := HashMap.buckets t |} = t)
      as -> by (by destruct t).
    pose proof (locate_lookup k l) as Hloc.
    destruct (locate k l) as [p|] eqn:Hp.
    + destruct Hloc as (v0 & _ & ->).
      destruct (locate_split _ _ _ Hp) as (l1 & v & l2 & -> & Hdel).
      unfold HashMap.on_bucket. rewrite Hlen. fold i. rewrite Hc.
      destruct (decide (l1 ++ l2 = [])) as [Hnil|Hne].
      * apply app_eq_nil in Hnil as [-> ->]. simpl in *.
        rewrite (remove_sole _ _ _ _ _ Hch). simpl. split; [|done]. simpl.
        exists (<[i := []]> L). split; [|rewrite contents_insert; by destruct (decide (k = k))].
        eapply represents_step; [done..|].
        split; [|split; [|split; [|split]]]; simpl; try done.
        -- apply NoDup_nil_2.
        -- by intros q ?%elem_of_nil.
      * destruct (remove_spec _ _ _ _ _ _ _ Hch Hnd Hne) as (h' & c' & Heq & Hstep).
        rewrite Heq. simpl. split; simpl.
        -- exists (<[i := l1 ++ l2]> L). split; [by eapply represents_step|].
           by rewrite contents_insert, Hdel.
        -- destruct l1 as [|? [|? ?]], l2 as [|? ?]; simpl in *; done.
    + rewrite Hloc. by apply sim_intro.
  - rewrite (refines_lookup_None _ _ _ Href Hc). by apply sim_intro.
Qed.

Lemma clear_each_spec (h : LinkedList.Heap V) (cs : list LinkedList.state) :
  HashMap.clear_each cs h = (h, map (fun _ => LinkedList.LinkedList) cs, Returns tt).
Proof.
  induction cs as [|c cs IH]; simpl; [done|]. by rewrite IH.
Qed.

Lemma clear_sim t bs : refines t bs -> sim (HashMap.clear t) (Model.clear bs).
Proof.
  intros Href. destruct (refines_length _ _ Href) as [Hlen _].
  unfold HashMap.clear, Model.clear. rewrite clear_each_spec. split; [|done]. simpl.
  rewrite !map_const, Hlen. apply resize_refines.
Qed.

Lemma new_refines : refines (@HashMap.HashMap V) (Model.empty 16).
Proof. apply resize_refines. Qed.

End Simulation.

(** ** Association lists *)
Section Buckets.
Context {V : Type}.
Implicit Types (es : Model.bucket V) (k : Key) (v : V).

Lemma lookup_None k es : Model.lookup k es = None <-> k ∉ es.*1.
Proof.
  induction es as [|[k' v'] es IH]; simpl.
  - split; [|done]. intros _. apply not_elem_of_nil.
  - rewrite not_elem_of_cons. destruct (decide (k' = k)) as [->|Hne].
    + split; [done|]. by intros [? _].
    + rewrite IH. split; [|by intros [_ ?]]. intros ?. split; [congruence|done].
Qed.

Lemma lookup_Some k v es : NoDup es.*1 -> Model.lookup k es = Some v <-> (k, v) ∈ es.
Proof.
  induction es as [|[k' v'] es IH]; simpl; intros Hnd.
  - split; [done|]. by intros ?%elem_of_nil.
  - apply NoDup_cons in Hnd as [Hk' Hnd]. rewrite elem_of_cons.
    destruct (decide (k' = k)) as [->|Hne].
    + split; [intros [= ->]; by left|].
      intros [[= ->]|Hin]; [done|]. exfalso. apply Hk'.
      apply list_elem_of_fmap. by exists (k, v).
    + rewrite IH by done. split; [by right|]. intros [[= -> ->]|?]; done.
Qed.

Lemma update_keys k v es : (Model.update k v es).*1 = es.*1.
Proof.
  induction es as [|[k' v'] es IH]; [done|]. cbn [Model.update].
  destruct (decide (k' = k)); [done|]. rewrite !fmap_cons. by rewrite IH.
Qed.

Lemma update_length k v es : List.length (Model.update k v es) = List.length es.
Proof. by rewrite <- (length_fmap fst), update_keys, length_fmap. Qed.

Lemma lookup_update k v k' es :
  Model.lookup k' (Model.update k v es)
  = if decide (k = k')
    then match Model.lookup k es with Some _ => Some v | None => None end
    else Model.lookup k' es.
Proof.
  induction es as [|[k0 v0] es IH]; simpl.
  - by destruct (decide (k = k')).
  - destruct (decide (k0 = k)) as [->|Hne]; simpl.
    + destruct (decide (k = k')); done.
    + destruct (decide (k0 = k')) as [->|Hne'].
      * destruct (decide (k = k')); [congruence|done].
      * done.
Qed.

Lemma append_keys k v es :
  (Model.append k v es).*1
  = match Model.lookup k es with Some _ => es.*1 | None => k :: es.*1 end.
Proof.
  unfold Model.append. destruct (Model.lookup k es); [|done]. apply update_keys.
Qed.

Lemma append_length k v es :
  List.length (Model.append k v es)
  = List.length es + match Model.lookup k es with Some _ => 0 | None => 1 end.
Proof.
  unfold Model.append. destruct (Model.lookup k es); simpl; [|lia].
  rewrite update_length. lia.
Qed.

Lemma lookup_append k v k' es :
  Model.lookup k' (Model.append k v es)
  = if decide (k = k') then Some v else Model.lookup k' es.
Proof.
  unfold Model.append. destruct (Model.lookup k es) eqn:Hk.
  - rewrite lookup_update, Hk. done.
  - simpl. done.
Qed.

Lemma append_NoDup k v es : NoDup es.*1 -> NoDup (Model.append k v es).*1.
Proof.
  intros Hnd. rewrite append_keys. destruct (Model.lookup k es) eqn:Hk; [done|].
  apply NoDup_cons. split; [|done]. by apply lookup_None.
Qed.

Lemma delete_keys_subset k es k' : k' ∈ (Model.delete k es).*1 -> k' ∈ es.*1.
Proof.
  induction es as [|[k0 v0] es IH]; simpl; [done|].
  destruct (decide (k0 = k)); simpl.
  - intros ?. apply elem_of_cons. by right.
  - rewrite !elem_of_cons. intros [->|?]; [by left|right; by apply IH].
Qed.

Lemma delete_NoDup k es : NoDup es.*1 -> NoDup (Model.delete k es).*1.
Proof.
  induction es as [|[k0 v0] es IH]; simpl; [done|]. intros [Hk0 Hnd]%NoDup_cons.
  destruct (decide (k0 = k)); simpl; [done|].
  apply NoDup_cons. split; [|by apply IH]. intros ?%delete_keys_subset. done.
Qed.

Lemma lookup_delete k k' es :
  NoDup es.*1 ->
  Model.lookup k' (Model.delete k es)
  = if decide (k = k') then None else Model.lookup k' es.
Proof.
  induction es as [|[k0 v0] es IH]; simpl; intros Hnd.
  - by destruct (decide (k = k')).
  - apply NoDup_cons in Hnd as [Hk0 Hnd].
    destruct (decide (k0 = k)) as [->|Hne]; simpl.
    + destruct (decide (k = k')) as [->|?]; [|done]. by apply lookup_None.
    + destruct (decide (k0 = k')) as [->|?].
      * destruct (decide (k = k')); [congruence|done].
      * by apply IH.
Qed.

Lemma delete_length k es :
  List.length (Model.delete k es) + match Model.lookup k es with Some _ => 1 | None => 0 end
  = List.length es.
Proof.
  induction es as [|[k0 v0] es IH]; simpl; [done|].
  destruct (decide (k0 = k)); simpl; lia.
Qed.

End Buckets.

(** ** The table on lists *)
Section ModelFacts.
Context {V : Type}.
Variable hashFn : Key -> nat -> nat.
Hypothesis hashFn_in_range : in_range hashFn.
Implicit Types (bs : Model.table V) (b : Model.bucket V) (k : Key) (v : V).

Lemma well_placed_bucket bs k :
  well_placed hashFn bs -> exists b, bs !! hashFn k (List.length bs) = Some b.
Proof.
  intros [Hlen _]. apply lookup_lt_is_Some. by apply hashFn_in_range.
Qed.

Lemma well_placed_empty (n : nat) : 0 < n -> well_placed hashFn (@Model.empty V n).
Proof.
  intros Hn. unfold Model.empty. split; [by rewrite length_replicate|].
  intros i b [-> _]%lookup_replicate. split; [apply NoDup_nil_2|].
  by intros k ?%elem_of_nil.
Qed.

Lemma find_empty (n : nat) k : Model.find hashFn k (@Model.empty V n) = None.
Proof.
  unfold Model.find, Model.empty.
  destruct (replicate n [] !! _) as [b|] eqn:Hb; [|done].
  by apply lookup_replicate in Hb as [-> _].
Qed.

Lemma count_empty (n : nat) : Model.count (@Model.empty V n) = 0.
Proof. unfold Model.count, Model.empty. by rewrite concat_replicate_nil. Qed.

Lemma count_insert bs i b b' :
  bs !! i = Some b ->
  Model.count (<[i := b']> bs) + List.length b = Model.count bs + List.length b'.
Proof. apply length_concat_insert. Qed.

Lemma find_Some bs k v :
  well_placed hashFn bs ->
  Model.find hashFn k bs = Some v <-> exists i b, bs !! i = Some b /\ (k, v) ∈ b.
Proof.
  intros [Hlen Hwp]. unfold Model.find. split.
  - destruct (bs !! hashFn k (List.length bs)) as [b|] eqn:Hb; [|done].
    intros Hl. exists (hashFn k (List.length bs)), b. split; [done|].
    apply lookup_Some; [|done]. by apply (Hwp _ _ Hb).
  - intros (i & b & Hb & Hin). destruct (Hwp _ _ Hb) as [Hnd Hhash].
    rewrite (Hhash k); [|apply list_elem_of_fmap; by exists (k, v)].
    rewrite Hb. by apply lookup_Some.
Qed.

(** The insertion that ends [set], on a table that needs no resize. *)
Lemma insert_post bs k v b :
  well_placed hashFn bs -> bs !! hashFn k (List.length bs) = Some b ->
  let bs' := <[hashFn k (List.length bs) := Model.append k v b]> bs in
  well_placed hashFn bs' /\
  (forall k', Model.find hashFn k' bs'
              = if decide (k = k') then Some v else Model.find hashFn k' bs) /\
  Model.count bs'
  = Model.count bs + match Model.find hashFn k bs with Some _ => 0 | None => 1 end /\
  List.length bs' = List.length bs.
Proof.
  intros [Hlen Hwp] Hb bs'. set (i := hashFn k (List.length bs)) in *.
  assert (List.length bs' = List.length bs) as Hlen' by apply length_insert.
  pose proof (lookup_lt_Some _ _ _ Hb) as Hi.
  split; [|split; [|split]]; [| | |done].
  - split; [lia|]. rewrite Hlen'. intros j bj Hj.
    destruct (decide (i = j)) as [<-|Hne].
    + unfold bs' in Hj. rewrite list_lookup_insert_eq in Hj by done. simplify_eq.
      destruct (Hwp _ _ Hb) as [Hnd Hhash]. split; [by apply append_NoDup|].
      intros k'. rewrite append_keys.
      destruct (Model.lookup k b); [by apply Hhash|].
      intros [->|?]%elem_of_cons; [done|by apply Hhash].
    + unfold bs' in Hj. rewrite list_lookup_insert_ne in Hj by done. by apply Hwp.
  - intros k'. unfold Model.find. rewrite Hlen'.
    destruct (decide (i = hashFn k' (List.length bs))) as [Heq|Hne].
    + rewrite <- Heq. unfold bs'. rewrite list_lookup_insert_eq by done.
      rewrite Hb. apply lookup_append.
    + unfold bs'. rewrite list_lookup_insert_ne by done.
      destruct (decide (k = k')) as [->|?]; [done|done].
  - pose proof (count_insert bs i b (Model.append k v b) Hb) as Hcount.
    rewrite append_length in Hcount. unfold Model.find. fold i. rewrite Hb.
    fold bs' in Hcount. lia.
Qed.

Lemma for_each_post (fuel : nat) (aset : Key -> V -> M (Model.table V) unit) :
  (forall bs k v, well_placed hashFn bs -> Model.count bs < fuel ->
     exists bs', aset k v bs = (bs', Returns tt) /\ set_post hashFn k v bs bs') ->
  forall (elements : list (Key * V)) bs,
    well_placed hashFn bs -> NoDup elements.*1 ->
    (forall k, k ∈ elements.*1 -> Model.find hashFn k bs = None) ->
    Model.count bs + List.length elements <= fuel ->
    exists bs',
      for_each aset elements bs = (bs', Returns tt) /\
      well_placed hashFn bs' /\
      (forall k', Model.find hashFn k' bs'
                  = match Model.lookup k' elements with
                    | Some v => Some v
                    | None => Model.find hashFn k' bs
                    end) /\
      Model.count bs' = Model.count bs + List.length elements /\
      (4 * (Model.count bs + List.length elements) < 3 * List.length bs + 4 ->
       List.length bs' = List.length bs).
Proof.
  intros Haset elements.
  induction elements as [|[k v] rest IH]; intros bs Hwp Hnd Hfresh Hfuel.
  - exists bs. split; [done|]. split; [done|]. split; [done|]. split; [simpl; lia|done].
  - rewrite fmap_cons in Hnd, Hfresh. cbn [List.length] in Hfuel. cbn [fst] in Hnd, Hfresh.
    apply NoDup_cons in Hnd as [Hk Hnd].
    destruct (Haset bs k v Hwp ltac:(lia)) as (bs1 & Heq & Hwp1 & Hfind1 & Hcount1 & Hsame1 & _).
    rewrite (Hfresh k) in Hcount1 by (apply elem_of_cons; by left).
    destruct (IH bs1 Hwp1 Hnd) as (bs' & Heq' & Hwp' & Hfind' & Hcount' & Hsame').
    { intros k' Hk'. rewrite Hfind1. destruct (decide (k = k')) as [->|?]; [done|].
      apply Hfresh. apply elem_of_cons. by right. }
    { lia. }
    exists bs'. cbn [for_each]. unfold bind. rewrite Heq, Heq'.
    split; [done|]. split; [done|]. split; [|split].
    + intros k'. rewrite Hfind', Hfind1. simpl.
      destruct (decide (k = k')) as [->|?]; [|done].
      apply lookup_None in Hk. by rewrite Hk.
    + cbn [List.length]. lia.
    + cbn [List.length]. intros Hbelow.
      rewrite Hsame' by (rewrite Hsame1; lia). apply Hsame1. lia.
Qed.

Lemma concat_keys bs : (concat bs).*1 = concat (map (fun b => b.*1) bs).
Proof.
  induction bs as [|b bs IH]; simpl; [done|]. by rewrite fmap_app, IH.
Qed.

Lemma well_placed_NoDup bs : well_placed hashFn bs -> NoDup (concat bs).*1.
Proof.
  intros [_ Hwp]. rewrite concat_keys. apply NoDup_concat. split.
  - intros j ks Hj. rewrite list_lookup_fmap in Hj.
    destruct (bs !! j) as [b|] eqn:Hb; simplify_eq/=. by apply (Hwp _ _ Hb).
  - intros j1 j2 ks1 ks2 k Hne H1 H2 Hk1 Hk2. rewrite list_lookup_fmap in H1, H2.
    destruct (bs !! j1) as [b1|] eqn:Hb1; simplify_eq/=.
    destruct (bs !! j2) as [b2|] eqn:Hb2; simplify_eq/=.
    destruct (Hwp _ _ Hb1) as [_ Hh1]. destruct (Hwp _ _ Hb2) as [_ Hh2].
    apply Hne. by rewrite <- (Hh1 k Hk1), <- (Hh2 k Hk2).
Qed.

Lemma lookup_concat bs k :
  well_placed hashFn bs -> Model.lookup k (concat bs) = Model.find hashFn k bs.
Proof.
  intros Hwp. apply option_eq. intros v.
  rewrite lookup_Some by (by apply well_placed_NoDup).
  rewrite find_Some by done. rewrite elem_of_concat. split.
  - intros (b & Hin & Hb). apply list_elem_of_lookup in Hb as [i Hi]. eauto.
  - intros (i & b & Hi & Hin). exists b. split; [done|]. by eapply list_elem_of_lookup_2.
Qed.

Lemma set_fuel_post (fuel : nat) bs k v :
  well_placed hashFn bs -> Model.count bs < fuel ->
  exists bs', Model.set_fuel hashFn fuel k v bs = (bs', Returns tt) /\ set_post hashFn k v bs bs'.
Proof.
  revert bs k v. induction fuel as [|fuel IH]; intros bs k v Hwp Hfuel; [lia|].
  cbn [Model.set_fuel]. unfold bind, Model.resizeBucketsIfNeeded_with.
  pose proof Hwp as [Hlen _].
  destruct (Qle_bool (3 # 4) (ratio (Model.count bs) (List.length bs))) eqn:Hratio.
  - apply ratio_threshold in Hratio as [_ Hratio].
    destruct (for_each_post fuel (Model.set_fuel hashFn fuel) IH (concat bs)
                (Model.empty (List.length bs * 2)))
      as (bs1 & Heq & Hwp1 & Hfind1 & Hcount1 & Hsame1).
    { apply well_placed_empty. lia. }
    { by apply well_placed_NoDup. }
    { intros k' _. apply find_empty. }
    { rewrite count_empty. unfold Model.count in Hfuel. lia. }
    unfold Model.empty in Heq. rewrite Heq.
    rewrite count_empty in Hcount1, Hsame1. unfold Model.empty in Hsame1.
    rewrite length_replicate in Hsame1. fold (Model.count bs) in Hcount1, Hsame1.
    destruct (well_placed_bucket bs1 k Hwp1) as [b Hb]. rewrite Hb.
    destruct (insert_post bs1 k v b Hwp1 Hb) as (Hwp' & Hfind' & Hcount' & Hlen').
    eexists. split; [reflexivity|].
    assert (forall k', Model.find hashFn k' bs1 = Model.find hashFn k' bs) as Hsame.
    { intros k'. rewrite Hfind1, lookup_concat by done.
      rewrite find_empty. by destruct (Model.find hashFn k' bs). }
    split; [done|]. split; [|split; [|split]].
    + intros k'. by rewrite Hfind', Hsame.
    + rewrite Hcount', Hsame. lia.
    + lia.
    + intros _ Hupper. rewrite Hlen', Hsame1; lia.
  - apply ratio_below in Hratio; [|done].
    destruct (well_placed_bucket bs k Hwp) as [b Hb]. rewrite Hb.
    destruct (insert_post bs k v b Hwp Hb) as (Hwp' & Hfind' & Hcount' & Hlen').
    eexists. split; [reflexivity|]. split; [done|]. split; [done|]. split; [done|].
    split; [done|]. lia.
Qed.

Lemma set_post_spec bs k v :
  well_placed hashFn bs ->
  exists bs', Model.set hashFn k v bs = (bs', Returns tt) /\ set_post hashFn k v bs bs'.
Proof. intros Hwp. apply set_fuel_post; [done|lia]. Qed.

(** The resize check alone. *)
Lemma resize_post (fuel : nat) bs :
  well_placed hashFn bs -> Model.count bs <= fuel ->
  exists bs1,
    Model.resizeBucketsIfNeeded_with (Model.set_fuel hashFn fuel) bs = (bs1, Returns tt) /\
    well_placed hashFn bs1 /\
    (forall k, Model.find hashFn k bs1 = Model.find hashFn k bs) /\
    Model.count bs1 = Model.count bs /\
    (4 * Model.count bs < 3 * List.length bs -> bs1 = bs) /\
    (3 * List.length bs <= 4 * Model.count bs ->
     4 * Model.count bs < 6 * List.length bs + 4 ->
     List.length bs1 = 2 * List.length bs).
Proof.
  intros Hwp Hfuel. unfold Model.resizeBucketsIfNeeded_with.
  pose proof Hwp as [Hlen _].
  destruct (Qle_bool (3 # 4) (ratio (Model.count bs) (List.length bs))) eqn:Hratio.
  - apply ratio_threshold in Hratio as [_ Hratio].
    destruct (for_each_post fuel (Model.set_fuel hashFn fuel)
                (fun bs k v Hwp Hc => set_fuel_post fuel bs k v Hwp Hc) (concat bs)
                (Model.empty (List.length bs * 2)))
      as (bs1 & Heq & Hwp1 & Hfind1 & Hcount1 & Hsame1).
    { apply well_placed_empty. lia. }
    { by apply well_placed_NoDup. }
    { intros k' _. apply find_empty. }
    { rewrite count_empty. unfold Model.count in Hfuel. lia. }
    unfold Model.empty in Heq. rewrite Heq.
    rewrite count_empty in Hcount1, Hsame1. unfold Model.empty in Hsame1.
    rewrite length_replicate in Hsame1. fold (Model.count bs) in Hcount1, Hsame1.
    exists bs1. split; [done|]. split; [done|]. split; [|split; [|split]].
    + intros k'. rewrite Hfind1, lookup_concat by done.
      rewrite find_empty. by destruct (Model.find hashFn k' bs).
    + lia.
    + lia.
    + intros _ Hupper. rewrite Hsame1; lia.
  - apply ratio_below in Hratio; [|done].
    exists bs. split; [done|]. split; [done|]. split; [done|]. split; [done|].
    split; [done|]. lia.
Qed.

Lemma remove_post bs k :
  well_placed hashFn bs ->
  exists bs' r,
    Model.remove hashFn k bs = (bs', r) /\
    well_placed hashFn bs' /\
    List.length bs' = List.length bs /\
    (forall k', Model.find hashFn k' bs'
                = if decide (k = k') then None else Model.find hashFn k' bs) /\
    Model.count bs' + match Model.find hashFn k bs with Some _ => 1 | None => 0 end
    = Model.count bs /\
    match Model.find hashFn k bs with
    | None => bs' = bs /\ r = Returns false
    | Some _ =>
      exists b, bs !! hashFn k (List.length bs) = Some b /\
                r = match b with [_] => TypeError | _ => Returns true end
    end.
Proof.
  intros Hwp. pose proof Hwp as [Hlen Hall].
  destruct (well_placed_bucket bs k Hwp) as [b Hb].
  unfold Model.remove, Model.find. rewrite Hb.
  set (i := hashFn k (List.length bs)) in *.
  destruct (Model.lookup k b) as [v|] eqn:Hk.
  - eexists _, _. split; [reflexivity|].
    assert (List.length (<[i := Model.delete k b]> bs) = List.length bs) as Hlen'
      by apply length_insert.
    pose proof (lookup_lt_Some _ _ _ Hb) as Hi.
    destruct (Hall _ _ Hb) as [Hnd Hhash].
    split; [|split; [done|split; [|split]]].
    + split; [lia|]. rewrite Hlen'. intros j bj Hj.
      destruct (decide (i = j)) as [<-|Hne].
      * rewrite list_lookup_insert_eq in Hj by done. simplify_eq.
        split; [by apply delete_NoDup|].
        intros k' ?%delete_keys_subset. by apply Hhash.
      * rewrite list_lookup_insert_ne in Hj by done. by apply Hall.
    + intros k'. rewrite Hlen'.
      destruct (decide (i = hashFn k' (List.length bs))) as [Heq|Hne].
      * rewrite <- Heq. rewrite list_lookup_insert_eq by done.
        rewrite Hb. by apply lookup_delete.
      * rewrite list_lookup_insert_ne by done.
        destruct (decide (k = k')) as [->|?]; done.
    + pose proof (count_insert bs i b (Model.delete k b) Hb) as Hcount.
      pose proof (delete_length k b) as Hdel. rewrite Hk in Hdel. lia.
    + by exists b.
  - exists bs, (Returns false). split; [done|]. split; [done|]. split; [done|].
    split; [|split; [lia|done]].
    intros k'. destruct (decide (k = k')) as [<-|?]; [|done].
    fold i. by rewrite Hb.
Qed.

Lemma clear_post bs :
  well_placed hashFn bs ->
  well_placed hashFn (Model.clear bs).1 /\
  List.length (Model.clear bs).1 = List.length bs /\
  Model.count (Model.clear bs).1 = 0 /\
  forall k, Model.find hashFn k (Model.clear bs).1 = None.
Proof.
  intros [Hlen _]. unfold Model.clear. cbn [fst]. rewrite map_const.
  split; [by apply well_placed_empty|]. split; [by rewrite length_replicate|].
  split; [apply count_empty|]. intros k. apply find_empty.
Qed.

(** ** Tables reached by calls *)

Lemma steady_step bs o : steady hashFn bs -> steady hashFn (model_step hashFn bs o).
Proof.
  intros [Hwp [Hn Hc]]. destruct o as [k v|k|]; cbn [model_step].
  - destruct (set_post_spec bs k v Hwp) as (bs' & -> & Hwp' & _ & Hcount & Hsame & Hdouble).
    split; [done|]. cbn [fst]. unfold below_threshold.
    destruct (decide (4 * Model.count bs < 3 * List.length bs)) as [Hlt|Hge].
    + rewrite (Hsame Hlt). destruct (Model.find hashFn k bs); lia.
    + rewrite Hdouble by lia. destruct (Model.find hashFn k bs); lia.
  - destruct (remove_post bs k Hwp) as (bs' & r & -> & Hwp' & Hlen' & _ & Hcount & _).
    split; [done|]. cbn [fst]. unfold below_threshold. rewrite Hlen'.
    destruct (Model.find hashFn k bs); lia.
  - destruct (clear_post bs Hwp) as (Hwp' & Hlen' & Hcount' & _).
    split; [done|]. unfold below_threshold. rewrite Hlen', Hcount'. lia.
Qed.

Lemma steady_empty : steady hashFn (@Model.empty V 16).
Proof.
  split; [apply well_placed_empty; lia|].
  unfold below_threshold. rewrite count_empty. unfold Model.empty.
  rewrite length_replicate. lia.
Qed.

Lemma steady_run ops bs :
  steady hashFn bs -> steady hashFn (fold_left (model_step hashFn) ops bs).
Proof.
  revert bs. induction ops as [|o ops IH]; intros bs Hbs; [done|].
  simpl. apply IH. by apply steady_step.
Qed.

Lemma run_refines ops (t : HashMap.state V) bs :
  refines t bs -> refines (run hashFn ops t) (fold_left (model_step hashFn) ops bs).
Proof.
  revert t bs. induction ops as [|o ops IH]; intros t bs Href; [done|].
  simpl. apply IH. destruct o as [k v|k|]; simpl.
  - by apply set_sim.
  - by apply remove_sim.
  - by apply clear_sim.
Qed.

(** Every reachable table is represented by a steady table on lists. *)
Lemma reachable_refines (t : HashMap.state V) :
  reachable hashFn t -> exists bs, refines t bs /\ steady hashFn bs.
Proof.
  intros [ops ->]. exists (fold_left (model_step hashFn) ops (Model.empty 16)). split.
  - apply run_refines. apply new_refines.
  - apply steady_run. apply steady_empty.
Qed.

End ModelFacts.

(** ** The default hash function *)
Lemma defaultHashFunction_lt (key : Key) (n : nat) :
  0 < n -> defaultHashFunction key n < n.
Proof.
  intros Hn. unfold defaultHashFunction.
  assert (forall acc, acc < n ->
            fold_left (fun hashCode charCode => (hashCode * 31 + charCode) mod n) key acc < n)
    as Hfold; [|by apply Hfold].
  induction key as [|c key IH]; intros acc Hacc; simpl; [done|].
  apply IH. apply Nat.mod_upper_bound. lia.
Qed.

Lemma defaultHashFunction_in_range : in_range defaultHashFunction.
Proof. intros k n Hn. by apply defaultHashFunction_lt. Qed.

(** ** What calls on a reachable table return *)
Section Calls.
Context {V : Type}.
Variable hashFn : Key -> nat -> nat.
Hypothesis hashFn_in_range : in_range hashFn.
Implicit Types (t : HashMap.state V) (bs : Model.table V) (k : Key) (v : V).

Lemma get_find t bs k :
  refines t bs -> well_placed hashFn bs ->
  HashMap.get hashFn k t = Returns (Model.find hashFn k bs).
Proof.
  intros Href Hwp. rewrite (get_spec hashFn _ _ k Href). unfold Model.find.
  by destruct (well_placed_bucket hashFn hashFn_in_range bs k Hwp) as [b ->].
Qed.

Lemma has_find t bs k :
  refines t bs -> well_placed hashFn bs ->
  HashMap.has hashFn k t
  = Returns (match Model.find hashFn k bs with Some _ => true | None => false end).
Proof.
  intros Href Hwp. rewrite (has_spec hashFn _ _ k Href). unfold Model.find.
  by destruct (well_placed_bucket hashFn hashFn_in_range bs k Hwp) as [b ->].
Qed.

Lemma find_expected (ops : list (@Op V)) k :
  Model.find hashFn k (fold_left (model_step hashFn) ops (Model.empty 16))
  = expected ops k.
Proof.
  unfold expected. induction ops as [|o ops IH] using rev_ind.
  - simpl. apply find_empty.
  - rewrite fold_left_app, rev_app_distr. cbn [fold_left rev app].
    pose proof (steady_run hashFn hashFn_in_range ops _ (steady_empty hashFn))
      as [Hwp _].
    set (bs := fold_left (model_step hashFn) ops (Model.empty 16)) in *.
    destruct o as [k' v|k'|]; cbn [model_step last_write].
    + destruct (set_post_spec hashFn hashFn_in_range bs k' v Hwp)
        as (bs' & -> & _ & Hfind & _).
      cbn [fst]. rewrite Hfind. destruct (decide (k' = k)); done.
    + destruct (remove_post hashFn hashFn_in_range bs k' Hwp)
        as (bs' & r & -> & _ & _ & Hfind & _).
      cbn [fst]. rewrite Hfind. destruct (decide (k' = k)); done.
    + by destruct (clear_post hashFn bs Hwp) as (_ & _ & _ & ->).
Qed.

Lemma run_model (ops : list (@Op V)) :
  let bs := fold_left (model_step hashFn) ops (Model.empty 16) in
  refines (run hashFn ops HashMap.HashMap) bs /\ steady hashFn bs.
Proof.
  split.
  - apply run_refines. apply new_refines.
  - apply steady_run; [done|]. by apply steady_empty.
Qed.

(** C3: after any sequence of [set], [remove] and [clear] calls on a new
    table, [get(key)] returns the value of the most recent [set] of the key
    that no later [remove(key)] or [clear()] followed, and [has(key)]
    returns true; for a key never set, or removed or cleared since,
    [get(key)] returns [null] and [has(key)] returns false.  Neither call
    throws.  (A [remove] that threw is counted as a [remove]: the entry is
    gone all the same.) *)
Theorem get_has_after_calls (ops : list (@Op V)) k :
  HashMap.get hashFn k (run hashFn ops HashMap.HashMap) = Returns (expected ops k) /\
  HashMap.has hashFn k (run hashFn ops HashMap.HashMap)
  = Returns (match expected ops k with Some _ => true | None => false end).
Proof.
  destruct (run_model ops) as [Href [Hwp _]].
  rewrite (get_find _ _ k Href Hwp), (has_find _ _ k Href Hwp), find_expected. done.
Qed.

Lemma set_returns t bs k v :
  refines t bs -> well_placed hashFn bs ->
  exists t' bs',
    HashMap.set hashFn k v t = (t', Returns tt) /\
    Model.set hashFn k v bs = (bs', Returns tt) /\
    refines t' bs' /\ set_post hashFn k v bs bs'.
Proof.
  intros Href Hwp.
  destruct (set_post_spec hashFn hashFn_in_range bs k v Hwp) as (bs' & Heq & Hpost).
  destruct (set_sim hashFn k v t bs Href) as [Href' Hr]. rewrite Heq in Href', Hr.
  destruct (HashMap.set hashFn k v t) as [t' r]. simpl in *. subst r. eauto 10.
Qed.

(** [set] is the resize check followed by the insertion into the bucket the
    key selects under the bucket count the check left. *)
Lemma set_unfold t k v :
  HashMap.set hashFn k v t
  = bind (HashMap.resizeBucketsIfNeeded hashFn)
      (fun _ t1 =>
         bind (HashMap.on_bucket (hashFn k (List.length (HashMap.buckets t1)))
                 (LinkedList.append k v))
           (fun _ => ret tt) t1) t.
Proof. reflexivity. Qed.

Lemma check_returns t bs :
  refines t bs -> well_placed hashFn bs ->
  exists t1 bs1,
    HashMap.resizeBucketsIfNeeded hashFn t = (t1, Returns tt) /\
    refines t1 bs1 /\ well_placed hashFn bs1 /\
    (forall k, Model.find hashFn k bs1 = Model.find hashFn k bs) /\
    Model.count bs1 = Model.count bs /\
    (4 * Model.count bs < 3 * List.length bs -> t1 = t /\ bs1 = bs) /\
    (3 * List.length bs <= 4 * Model.count bs ->
     4 * Model.count bs < 6 * List.length bs + 4 ->
     List.length bs1 = 2 * List.length bs).
Proof.
  intros Href Hwp. destruct (refines_length _ _ Href) as [Hlen Hcount].
  destruct (resize_post hashFn hashFn_in_range (Model.count bs) bs Hwp ltac:(lia))
    as (bs1 & Heq & Hwp1 & Hfind & Hcount1 & Hsame & Hdouble).
  unfold HashMap.resizeBucketsIfNeeded. rewrite Hcount.
  destruct (resizeBucketsIfNeeded_sim
              (HashMap.set_fuel hashFn (Model.count bs))
              (Model.set_fuel hashFn (Model.count bs))
              (fun k0 v0 t0 bs0 => set_fuel_sim hashFn (Model.count bs) k0 v0 t0 bs0)
              t bs Href)
    as [Href1 Hr].
  rewrite Heq in Href1, Hr.
  destruct (HashMap.resizeBucketsIfNeeded_with _ t) as [t1 r] eqn:Ht1.
  simpl in Href1, Hr. subst r.
  exists t1, bs1. split; [done|]. split; [done|]. split; [done|]. split; [done|].
  split; [done|]. split; [|done].
  intros Hlt. split; [|by apply Hsame].
  unfold HashMap.resizeBucketsIfNeeded_with, HashMap.loadFactor in Ht1.
  rewrite Hlen, Hcount in Ht1.
  assert (Qle_bool (3 # 4) (ratio (Model.count bs) (List.length bs)) = false) as Hq.
  { apply ratio_below; [apply Hwp|done]. }
  rewrite Hq in Ht1. by injection Ht1.
Qed.

Lemma ratio_lt (c n : nat) : 0 < n -> (ratio c n < 3 # 4)%Q <-> 4 * c < 3 * n.
Proof.
  intros Hn. rewrite <- (ratio_below c n Hn). split.
  - intros Hlt. destruct (Qle_bool (3 # 4) (ratio c n)) eqn:E; [|done].
    apply Qle_bool_iff in E. by apply Qlt_not_le in Hlt.
  - intros E. apply Qnot_le_lt. intros Hle. apply Qle_bool_iff in Hle. congruence.
Qed.

Lemma ratio_ge (c n : nat) : (3 # 4 <= ratio c n)%Q <-> 0 < n /\ 3 * n <= 4 * c.
Proof. rewrite <- Qle_bool_iff. apply ratio_threshold. Qed.

(** C5: [set] runs the resize check before it computes the bucket index of
    the incoming key.  On every table reached from a new one, the check
    returns and leaves [loadFactor()] below 0.75; the insertion that follows
    keeps the bucket count and adds at most one entry, so that when [set]
    returns the load factor is below 0.75 up to that one entry (it may
    reach 0.75 with it, and the next [set] checks again). *)
Theorem load_factor_checked_before_insertion (ops : list (@Op V)) k v :
  let t := run hashFn ops HashMap.HashMap in
  HashMap.set hashFn k v t
  = bind (HashMap.resizeBucketsIfNeeded hashFn)
      (fun _ t1 =>
         bind (HashMap.on_bucket (hashFn k (List.length (HashMap.buckets t1)))
                 (LinkedList.append k v))
           (fun _ => ret tt) t1) t /\
  exists t1 t2,
    HashMap.resizeBucketsIfNeeded hashFn t = (t1, Returns tt) /\
    (HashMap.loadFactor t1 < 3 # 4)%Q /\
    HashMap.set hashFn k v t = (t2, Returns tt) /\
    List.length (HashMap.buckets t2) = List.length (HashMap.buckets t1) /\
    HashMap.length t1 <= HashMap.length t2 <= HashMap.length t1 + 1 /\
    (ratio (HashMap.length t2 - 1) (List.length (HashMap.buckets t2)) < 3 # 4)%Q.
Proof.
  intros t. split; [apply set_unfold|].
  destruct (run_model ops) as [Href [Hwp [Hn Hc]]]. fold t in Href.
  set (bs := fold_left (model_step hashFn) ops (Model.empty 16)) in *.
  destruct (check_returns t bs Href Hwp)
    as (t1 & bs1 & Hcheck & Href1 & Hwp1 & Hfind1 & Hcount1 & Hsame & Hdouble).
  destruct (refines_length _ _ Href1) as [Hlen1 Hcnt1].
  assert (4 * Model.count bs1 < 3 * List.length bs1) as Hbelow.
  { destruct (decide (4 * Model.count bs < 3 * List.length bs)) as [Hlt|Hge].
    - destruct (Hsame Hlt) as [_ ->]. done.
    - rewrite Hdouble, Hcount1 by lia. lia. }
  destruct (well_placed_bucket hashFn hashFn_in_range bs1 k Hwp1) as [b Hb].
  destruct (insert_post hashFn bs1 k v b Hwp1 Hb) as (Hwp2 & Hfind2 & Hcount2 & Hlen2).
  pose proof (append_bucket_sim t1 bs1 (hashFn k (List.length bs1)) k v Href1) as Hsim.
  rewrite Hb in Hsim.
  rewrite <- Hlen1 in Hsim at 1.
  destruct Hsim as [Href2 Hr].
  destruct (bind (HashMap.on_bucket _ _) _ t1) as [t2 r] eqn:Ht2.
  simpl in Href2, Hr. subst r.
  destruct (refines_length _ _ Href2) as [Hlenb2 Hcnt2].
  exists t1, t2. split; [done|]. split.
  { unfold HashMap.loadFactor. rewrite Hlen1, Hcnt1. apply ratio_lt; [apply Hwp1|done]. }
  split.
  { rewrite set_unfold. unfold bind at 1. rewrite Hcheck. done. }
  split; [lia|]. split.
  { rewrite Hcnt1, Hcnt2, Hcount2. destruct (Model.find hashFn k bs1); lia. }
  rewrite Hlenb2, Hcnt2. apply ratio_lt; [rewrite Hlen2; apply Hwp1|].
  rewrite Hcount2, Hlen2. destruct (Model.find hashFn k bs1); lia.
Qed.

(** C4, amended: on a table reached from a new one, when [set(key, value)]
    triggers a resize, it returns with exactly twice the buckets; [key] then
    has the new value, and every other key present before is retrieved by
    [get] with the value it had (an absent key stays absent). *)
Theorem resize_keeps_other_keys (ops : list (@Op V)) k v :
  let t := run hashFn ops HashMap.HashMap in
  (3 # 4 <= HashMap.loadFactor t)%Q ->
  exists t',
    HashMap.set hashFn k v t = (t', Returns tt) /\
    List.length (HashMap.buckets t') = 2 * List.length (HashMap.buckets t) /\
    HashMap.get hashFn k t' = Returns (Some v) /\
    forall k', k' ≠ k -> HashMap.get hashFn k' t' = HashMap.get hashFn k' t.
Proof.
  intros t Htrigger.
  destruct (run_model ops) as [Href [Hwp [Hn Hc]]]. fold t in Href.
  set (bs := fold_left (model_step hashFn) ops (Model.empty 16)) in *.
  destruct (refines_length _ _ Href) as [Hlen Hcnt].
  unfold HashMap.loadFactor in Htrigger. rewrite Hlen, Hcnt in Htrigger.
  apply ratio_ge in Htrigger as [_ Htrigger].
  destruct (set_returns t bs k v Href Hwp)
    as (t' & bs' & Hset & _ & Href' & Hwp' & Hfind & _ & _ & Hdouble).
  destruct (refines_length _ _ Href') as [Hlen' _].
  exists t'. split; [done|]. split; [rewrite Hlen', Hlen; apply Hdouble; lia|].
  split.
  - rewrite (get_find _ _ k Href' Hwp'), Hfind. by destruct (decide (k = k)).
  - intros k' Hne. rewrite (get_find _ _ k' Href' Hwp'), (get_find _ _ k' Href Hwp), Hfind.
    by destruct (decide (k = k')).
Qed.

Lemma append_same (h : LinkedList.Heap V) c (l : list (nat * (Key * V))) k v :
  chain h c l -> NoDup l.*1 -> Model.lookup k l.*2 = Some v ->
  LinkedList.append k v {| LinkedList.heap := h; LinkedList.this := c |}
  = ({| LinkedList.heap := h; LinkedList.this := c |}, Returns (locate k l)).
Proof.
  intros Hch Hnd Hk. unfold LinkedList.append, bind.
  rewrite (search_spec _ _ _ k Hch Hnd).
  pose proof (locate_lookup k l) as Hloc.
  destruct (locate k l) as [p|]; [|congruence].
  destruct Hloc as (v' & Hin & Hk'). assert (v' = v) as -> by congruence.
  destruct Hch as [Hd _].
  destruct (dseg_lookup _ _ _ _ _ _ _ _ Hd Hin) as (nx & pv & Hp).
  unfold LinkedList.write. cbn [LinkedList.heap LinkedList.this]. rewrite Hp.
  cbn [LinkedList.with_value LinkedList.key LinkedList.next LinkedList.prev
       LinkedList.heap LinkedList.this].
  by rewrite list_insert_id.
Qed.

(** Below the threshold, setting a key to the value it has changes nothing,
    in the buckets or in the nodes. *)
Lemma set_same t bs k v :
  refines t bs -> well_placed hashFn bs ->
  4 * Model.count bs < 3 * List.length bs ->
  Model.find hashFn k bs = Some v ->
  HashMap.set hashFn k v t = (t, Returns tt).
Proof.
  intros Href Hwp Hbelow Hk.
  destruct (check_returns t bs Href Hwp) as (t1 & bs1 & Hcheck & _ & _ & _ & _ & Hsame & _).
  destruct (Hsame Hbelow) as [-> ->].
  rewrite set_unfold. unfold bind at 1. rewrite Hcheck.
  destruct (refines_length _ _ Href) as [Hlen _]. rewrite Hlen.
  unfold Model.find in Hk.
  destruct (well_placed_bucket hashFn hashFn_in_range bs k Hwp) as [b Hb].
  rewrite Hb in Hk. destruct Href as (L & Hrep & ->).
  rewrite contents_lookup in Hb.
  destruct (L !! hashFn k (List.length (contents L))) as [l|] eqn:Hl; simplify_eq/=.
  destruct Hrep as [Hall Hnd].
  destruct (Forall2_lookup_r _ _ _ _ _ Hall Hl) as (c & Hc & Hch).
  unfold bind, HashMap.on_bucket. rewrite Hc.
  rewrite (append_same _ _ l k v Hch); [|by eapply handles_lookup|done].
  cbn [LinkedList.heap LinkedList.this]. rewrite list_insert_id by done.
  by destruct t.
Qed.

(** C6, amended: on a table reached from a new one, a second [set(k, v)]
    right after [set(k, v)] returns, leaves [length()] unchanged and leaves
    every key with the value it had.  When the first call left the load
    factor below 0.75 the second call changes nothing at all, in the buckets
    or in the nodes; when the first call brought the load factor to 0.75,
    the second call doubles the bucket count (and builds every entry
    anew). *)
Theorem second_set_keeps_contents (ops : list (@Op V)) k v :
  let t := run hashFn ops HashMap.HashMap in
  exists t1 t2,
    HashMap.set hashFn k v t = (t1, Returns tt) /\
    HashMap.set hashFn k v t1 = (t2, Returns tt) /\
    HashMap.length t2 = HashMap.length t1 /\
    (forall k', HashMap.get hashFn k' t2 = HashMap.get hashFn k' t1) /\
    ((HashMap.loadFactor t1 < 3 # 4)%Q -> t2 = t1) /\
    ((3 # 4 <= HashMap.loadFactor t1)%Q ->
     List.length (HashMap.buckets t2) = 2 * List.length (HashMap.buckets t1)).
Proof.
  intros t. destruct (run_model ops) as [Href Hsteady]. fold t in Href.
  set (bs := fold_left (model_step hashFn) ops (Model.empty 16)) in *.
  pose proof Hsteady as [Hwp _].
  destruct (set_returns t bs k v Href Hwp)
    as (t1 & bs1 & Hset1 & Hmset1 & Href1 & Hwp1 & Hfind1 & _).
  assert (steady hashFn bs1) as [_ [Hn1 Hc1]].
  { pose proof (steady_step hashFn hashFn_in_range bs (OpSet k v) Hsteady) as Hs.
    cbn [model_step] in Hs. by rewrite Hmset1 in Hs. }
  assert (Model.find hashFn k bs1 = Some v) as Hk1.
  { rewrite Hfind1. by destruct (decide (k = k)). }
  destruct (set_returns t1 bs1 k v Href1 Hwp1)
    as (t2 & bs2 & Hset2 & _ & Href2 & Hwp2 & Hfind2 & Hcount2 & _ & Hdouble2).
  rewrite Hk1 in Hcount2.
  destruct (refines_length _ _ Href1) as [Hlen1 Hcnt1].
  destruct (refines_length _ _ Href2) as [Hlen2 Hcnt2].
  exists t1, t2. split; [done|]. split; [done|]. split; [lia|]. split; [|split].
  - intros k'. rewrite (get_find _ _ k' Href2 Hwp2), (get_find _ _ k' Href1 Hwp1), Hfind2.
    destruct (decide (k = k')) as [<-|?]; [|done]. by rewrite Hk1.
  - unfold HashMap.loadFactor. rewrite Hlen1, Hcnt1. intros Hlt.
    apply ratio_lt in Hlt; [|lia].
    rewrite (set_same t1 bs1 k v Href1 Hwp1 Hlt Hk1) in Hset2. by injection Hset2.
  - unfold HashMap.loadFactor. rewrite Hlen1, Hcnt1. intros [_ Hge]%ratio_ge.
    rewrite Hlen2. apply Hdouble2; lia.
Qed.

(** What [remove] does, case by case. *)
Lemma remove_cases t bs k :
  refines t bs -> well_placed hashFn bs ->
  exists t' bs' r c,
    HashMap.remove hashFn k t = (t', r) /\
    refines t' bs' /\ well_placed hashFn bs' /\
    HashMap.buckets t !! hashFn k (List.length (HashMap.buckets t)) = Some c /\
    HashMap.has hashFn k t' = Returns false /\
    match HashMap.has hashFn k t with
    | Returns true =>
      HashMap.length t' + 1 = HashMap.length t /\
      r = (if decide (LinkedList.nodeCount c = 1) then TypeError else Returns true)
    | _ => t' = t /\ r = Returns false
    end.
Proof.
  intros Href Hwp.
  destruct (remove_post hashFn hashFn_in_range bs k Hwp)
    as (bs' & r & Hrm & Hwp' & Hlen' & Hfind' & Hcount' & Hcase).
  destruct (remove_sim hashFn k t bs Href) as [Href' Hr]. rewrite Hrm in Href', Hr.
  destruct (HashMap.remove hashFn k t) as [t' r'] eqn:Hremove.
  cbn [fst snd] in Href', Hr. subst r'.
  destruct (refines_length _ _ Href) as [Hlen Hcnt].
  destruct (refines_length _ _ Href') as [_ Hcnt'].
  destruct (well_placed_bucket hashFn hashFn_in_range bs k Hwp) as [b Hb].
  pose proof (has_find _ _ k Href Hwp) as Hhas.
  pose proof (has_find _ _ k Href' Hwp') as Hhas'.
  destruct Href as (L & Hrep & HL).
  pose proof Hb as Hb0. rewrite HL, contents_lookup, <- HL in Hb0.
  destruct (L !! hashFn k (List.length bs)) as [l|] eqn:Hl; [|done].
  cbn in Hb0. injection Hb0 as Hbl. change (l.*2 = b) in Hbl.
  pose proof Hrep as [Hall Hnd].
  destruct (Forall2_lookup_r _ _ _ _ _ Hall Hl) as (c & Hc & Hch).
  pose proof Hch as [Hd Hn].
  exists t', bs', r, c. split; [done|]. split; [done|]. split; [done|].
  split; [by rewrite Hlen|]. split.
  { rewrite Hhas', Hfind'. by destruct (decide (k = k)). }
  rewrite Hhas. unfold Model.find in Hcase, Hcount' |- *. rewrite Hb in Hcase, Hcount' |- *.
  destruct (Model.lookup k b) as [v|] eqn:Hk.
  - split; [lia|]. destruct Hcase as (b' & [= <-] & ->).
    rewrite Hn, <- Hbl.
    destruct l as [|? [|? ?]]; simpl; done.
  - destruct Hcase as [-> ->]. split; [|done].
    unfold HashMap.remove, bind, HashMap.on_bucket in Hremove.
    rewrite Hlen, Hc in Hremove.
    rewrite (search_spec _ _ l k) in Hremove; [|done|by eapply handles_lookup].
    pose proof (locate_lookup k l) as Hloc. rewrite Hbl in Hloc.
    destruct (locate k l) as [p|].
    + destruct Hloc as (? & _ & ?). congruence.
    + cbn [LinkedList.heap LinkedList.this] in Hremove.
      rewrite list_insert_id in Hremove by done.
      injection Hremove as <-. by destruct t.
Qed.

(** C2, where the code fails: on a table reached from a new one,
    [remove(key)] of a present key that is the only entry of its bucket
    raises a [TypeError] instead of returning true.  The entry is gone
    afterwards and [length()] is one less. *)
Theorem remove_only_entry_of_bucket_throws (ops : list (@Op V)) k c :
  let t := run hashFn ops HashMap.HashMap in
  HashMap.has hashFn k t = Returns true ->
  HashMap.buckets t !! hashFn k (List.length (HashMap.buckets t)) = Some c ->
  LinkedList.nodeCount c = 1 ->
  exists t',
    HashMap.remove hashFn k t = (t', TypeError) /\
    HashMap.has hashFn k t' = Returns false /\
    HashMap.length t' + 1 = HashMap.length t.
Proof.
  intros t Hhas Hc Hone.
  destruct (run_model ops) as [Href [Hwp _]]. fold t in Href.
  destruct (remove_cases t _ k Href Hwp)
    as (t' & bs' & r & c' & Hremove & _ & _ & Hc' & Hgone & Hcase).
  rewrite Hhas in Hcase. destruct Hcase as [Hlen ->].
  assert (c' = c) as -> by congruence.
  exists t'. destruct (decide (LinkedList.nodeCount c = 1)); done.
Qed.

End Calls.

(** ** Rebuilding a table from its entries *)
Section Replay.
Context {V : Type}.
Variables hashFn hashFn' : Key -> nat -> nat.
Hypothesis hashFn_in_range : in_range hashFn.
Hypothesis hashFn'_in_range : in_range hashFn'.

(** C7: after any sequence of [set] calls on a new table, [entries()]
    returns, and setting the pairs it returns, in order, on a fresh table of
    any positive bucket count and with any hash function in range gives a
    table in which [get] returns for every key what it returns in the
    original. *)
Theorem entries_replay (sets : list (Key * V)) (bucketCount : nat) :
  0 < bucketCount ->
  let t := run hashFn (map (fun e => OpSet e.1 e.2) sets) HashMap.HashMap in
  exists elements t',
    HashMap.entries t = Returns elements /\
    for_each (HashMap.set hashFn') elements (HashMap.resize bucketCount HashMap.HashMap).1
    = (t', Returns tt) /\
    forall k, HashMap.get hashFn' k t' = HashMap.get hashFn k t.
Proof.
  intros Hn t.
  destruct (run_model hashFn hashFn_in_range (map (fun e => OpSet e.1 e.2) sets))
    as [Href [Hwp _]].
  fold t in Href. set (bs := fold_left _ _ _) in *.
  destruct (for_each_post hashFn' (S (List.length (concat bs))) (Model.set hashFn')
              (fun bs0 k v Hwp0 _ => set_post_spec hashFn' hashFn'_in_range bs0 k v Hwp0)
              (concat bs) (Model.empty bucketCount))
    as (bs' & Heq & Hwp' & Hfind' & _).
  { by apply well_placed_empty. }
  { by eapply well_placed_NoDup. }
  { intros k _. apply find_empty. }
  { rewrite count_empty. lia. }
  destruct (for_each_sim (HashMap.set hashFn') (Model.set hashFn')
              (fun k v t0 bs0 => set_sim hashFn' k v t0 bs0) (concat bs)
              (HashMap.resize bucketCount HashMap.HashMap).1 (Model.empty bucketCount))
    as [Href' Hr].
  { apply resize_refines. }
  rewrite Heq in Href', Hr.
  destruct (for_each (HashMap.set hashFn') _ _) as [t' r] eqn:Ht'.
  cbn [fst snd] in Href', Hr. subst r.
  exists (concat bs), t'. split; [by apply entries_spec|]. split; [done|].
  intros k.
  rewrite (get_find hashFn' hashFn'_in_range _ _ k Href' Hwp').
  rewrite (get_find hashFn hashFn_in_range _ _ k Href Hwp).
  rewrite Hfind', find_empty, (lookup_concat hashFn) by done.
  by destruct (Model.find hashFn k bs).
Qed.

End Replay.

(** ** [clear] *)
Section Clear.
Context {V : Type}.

Lemma length_cleared (cs : list LinkedList.state) (acc : nat) :
  fold_left (fun result list => result + LinkedList.length list)
    (map (fun _ => LinkedList.LinkedList) cs) acc = acc.
Proof.
  revert acc. induction cs as [|c cs IH]; intros acc; simpl; [done|].
  rewrite IH. unfold LinkedList.length. simpl. lia.
Qed.

Lemma collect_cleared {B : Type} (f : Key -> V -> B) (h : LinkedList.Heap V)
    (cs : list LinkedList.state) (acc : list B) :
  fold_left
    (fun result list =>
       match result with
       | Returns acc =>
         LinkedList.forEach
           (fun node acc => acc ++ [f (LinkedList.key node) (LinkedList.value node)]) acc
           {| LinkedList.heap := h; LinkedList.this := list |}
       | e => e
       end) (map (fun _ => LinkedList.LinkedList) cs) (Returns acc)
  = Returns acc.
Proof.
  induction cs as [|c cs IH]; simpl; [done|]. apply IH.
Qed.

(** C8: on every table, [clear()] returns; afterwards [length()] is 0 and
    [keys()] is the empty sequence, and the bucket count is what it was
    before the call. *)
Theorem clear_empties_every_bucket (t : HashMap.state V) :
  exists t',
    HashMap.clear t = (t', Returns tt) /\
    HashMap.length t' = 0 /\
    HashMap.keys t' = Returns [] /\
    List.length (HashMap.buckets t') = List.length (HashMap.buckets t).
Proof.
  unfold HashMap.clear. rewrite clear_each_spec. eexists. split; [reflexivity|].
  split; [|split].
  - unfold HashMap.length. cbn [HashMap.buckets]. apply length_cleared.
  - unfold HashMap.keys, HashMap.collect. cbn [HashMap.buckets HashMap.heap].
    apply (collect_cleared (fun k _ => k)).
  - cbn [HashMap.buckets]. apply length_map.
Qed.

End Clear.

(** ** Misuse of [remove] *)
Section Misuse.
Context {V : Type}.
Implicit Types (h : LinkedList.Heap V) (c : LinkedList.state).

(** C1, where the code fails: on every chain of exactly one entry,
    [remove] of that entry clears [firstNode] and then raises a [TypeError]
    at [node.next.prev = null]; [lastNode] keeps its value. *)
Theorem remove_last_entry_throws h c (p : nat) (k : Key) (v : V) :
  chain h c [(p, (k, v))] ->
  LinkedList.remove p {| LinkedList.heap := h; LinkedList.this := c |}
  = ({| LinkedList.heap := h;
        LinkedList.this := {| LinkedList.firstNode := None;
                              LinkedList.lastNode := LinkedList.lastNode c;
                              LinkedList.nodeCount := 0 |} |}, TypeError).
Proof. apply remove_sole. Qed.

(** [remove] makes no test of membership: an entry with two neighbours is
    spliced out of wherever it is linked, and the count of the list the
    method was called on goes down. *)
Lemma remove_interior h c (node a b : nat) (n na nb : LinkedList.Node V) :
  LinkedList.nodeCount c ≠ 0 ->
  h !! node = Some n -> LinkedList.prev n = Some a -> LinkedList.next n = Some b ->
  h !! a = Some na -> h !! b = Some nb ->
  exists h',
    LinkedList.remove node {| LinkedList.heap := h; LinkedList.this := c |}
    = ({| LinkedList.heap := h';
          LinkedList.this := {| LinkedList.firstNode := LinkedList.firstNode c;
                                LinkedList.lastNode := LinkedList.lastNode c;
                                LinkedList.nodeCount := LinkedList.nodeCount c - 1 |} |},
       Returns tt).
Proof.
  intros Hcount Hnode Hprev Hnext Ha Hb.
  pose proof (lookup_lt_Some _ _ _ Ha) as Ha_lt.
  pose proof (lookup_lt_Some _ _ _ Hb) as Hb_lt.
  destruct n as [kn vn nxn pvn]. simpl in Hprev, Hnext. subst nxn pvn.
  unfold LinkedList.remove, bind, LinkedList.get_nodeCount, LinkedList.set_nodeCount,
    LinkedList.read, LinkedList.write, LinkedList.set_firstNode, LinkedList.set_lastNode,
    LinkedList.nonnull, ret.
  destruct (LinkedList.nodeCount c) as [|count] eqn:Hc; [done|].
  assert (<[a := LinkedList.with_next (Some b) na]> h !! node
          = Some (LinkedList.mkNode kn vn (Some b) (Some a))) as Hnode'.
  { destruct (decide (a = node)) as [->|Hne].
    - rewrite list_lookup_insert_eq by done.
      assert (na = LinkedList.mkNode kn vn (Some b) (Some node)) as -> by congruence.
      done.
    - by rewrite list_lookup_insert_ne. }
  assert (is_Some (<[a := LinkedList.with_next (Some b) na]> h !! b)) as [nb' Hnb'].
  { apply lookup_lt_is_Some. by rewrite length_insert. }
  simpl. rewrite Hc. simpl. rewrite Hnode. simpl. rewrite Hnode. simpl. rewrite Ha. simpl.
  rewrite Hnode'. simpl. rewrite Hnode'. simpl. rewrite Hnb'.
  eexists. f_equal. f_equal. f_equal. lia.
Qed.

(** The guard [if (nodeCount)] of line 58: on a list whose count is 0,
    [remove] reads nothing and writes nothing, whatever node it is given. *)
Lemma remove_at_count_zero h c (node : nat) :
  LinkedList.nodeCount c = 0 ->
  LinkedList.remove node {| LinkedList.heap := h; LinkedList.this := c |}
  = ({| LinkedList.heap := h; LinkedList.this := c |}, Returns tt).
Proof.
  intros Hcount. unfold LinkedList.remove, bind, LinkedList.get_nodeCount, ret.
  cbn [LinkedList.this snd fst]. by rewrite Hcount.
Qed.

End Misuse.

Section CheckedCalls.
Context {V : Type}.
Variable hashFn : Key -> nat -> nat.
Hypothesis hashFn_in_range : in_range hashFn.

(** C9, amended: neither misuse is detected, and neither can be committed
    through the table.  [HashMap()] takes no bucket count: it builds 16
    buckets, and every table reached from it has at least one.
    [remove(key)] hands to the chain's [remove] only an entry that belongs
    to that chain.  The chain's [remove] itself tests only its own count,
    never membership.  On a chain whose count is not 0, called with any
    entry that has two neighbours, of this chain or not, it returns
    normally, with [firstNode] and [lastNode] as they were and the count one
    less.  On a chain whose count is 0 it returns normally whatever it is
    given, and changes nothing: the count is not decremented there. *)
Theorem remove_is_given_own_entries (ops : list (@Op V)) (k : Key) :
  let t := run hashFn ops HashMap.HashMap in
  let i := hashFn k (List.length (HashMap.buckets t)) in
  List.length (HashMap.buckets (@HashMap.HashMap V)) = 16 /\
  0 < List.length (HashMap.buckets t) /\
  (forall node,
     (HashMap.on_bucket i (LinkedList.search k) t).2 = Returns (Some node) ->
     exists c l, HashMap.buckets t !! i = Some c /\
                 chain (HashMap.heap t) c l /\ node ∈ l.*1) /\
  (forall (h : LinkedList.Heap V) c (node a b : nat) (n na nb : LinkedList.Node V),
     LinkedList.nodeCount c ≠ 0 ->
     h !! node = Some n -> LinkedList.prev n = Some a -> LinkedList.next n = Some b ->
     h !! a = Some na -> h !! b = Some nb ->
     exists h',
       LinkedList.remove node {| LinkedList.heap := h; LinkedList.this := c |}
       = ({| LinkedList.heap := h';
             LinkedList.this :=
               {| LinkedList.firstNode := LinkedList.firstNode c;
                  LinkedList.lastNode := LinkedList.lastNode c;
                  LinkedList.nodeCount := LinkedList.nodeCount c - 1 |} |},
          Returns tt)) /\
  (forall (h : LinkedList.Heap V) c (node : nat),
     LinkedList.nodeCount c = 0 ->
     LinkedList.remove node {| LinkedList.heap := h; LinkedList.this := c |}
     = ({| LinkedList.heap := h; LinkedList.this := c |}, Returns tt)).
Proof.
  intros t i. destruct (run_model hashFn hashFn_in_range ops) as [Href [Hwp _]].
  fold t in Href. destruct (refines_length _ _ Href) as [Hlen _].
  split; [done|]. split; [rewrite Hlen; apply Hwp|].
  split; [|split; [apply remove_interior|apply remove_at_count_zero]].
  intros node Hsearch. unfold HashMap.on_bucket in Hsearch.
  destruct (HashMap.buckets t !! i) as [c|] eqn:Hc; [|done].
  destruct Href as (L & Hrep & _).
  destruct (represents_bucket _ _ _ _ Hrep Hc) as (l & Hl & Hch & Hnd).
  rewrite (search_spec _ _ _ k Hch Hnd) in Hsearch. cbn in Hsearch.
  injection Hsearch as Hloc. exists c, l. split; [done|]. split; [done|].
  by eapply locate_elem.
Qed.

End CheckedCalls.

(** C10: for every key and every bucket count [n >= 1],
    [defaultHashFunction(key, n)] is a natural number below [n], and it is 0
    for the empty string.  Hence on every table reached from a new one with
    the default hash function, the bucket a key selects exists, so that the
    array access of [get], [has] and [remove] is in bounds, and [set]
    returns without a [TypeError], so that every access it and the
    re-insertions of a resize make is in bounds. *)
Theorem defaultHashFunction_in_bounds {V : Type} (key : Key) (n : nat)
    (ops : list (@Op V)) (k : Key) (v : V) :
  1 <= n ->
  defaultHashFunction key n < n /\
  defaultHashFunction [] n = 0 /\
  let t := run defaultHashFunction ops HashMap.HashMap in
  is_Some (HashMap.buckets t !! defaultHashFunction k (List.length (HashMap.buckets t))) /\
  exists t', HashMap.set defaultHashFunction k v t = (t', Returns tt).
Proof.
  intros Hn. split; [apply defaultHashFunction_lt; lia|]. split; [done|].
  intros t.
  destruct (run_model defaultHashFunction defaultHashFunction_in_range ops)
    as [Href [Hwp _]].
  fold t in Href. destruct (refines_length _ _ Href) as [Hlen _]. split.
  - apply lookup_lt_is_Some. apply defaultHashFunction_lt. rewrite Hlen. apply Hwp.
  - destruct (set_returns defaultHashFunction defaultHashFunction_in_range t _ k v Href Hwp)
      as (t' & _ & Hset & _).
    by exists t'.
Qed.

(** ** Concrete runs *)

(** The scenario of the specification: 16 buckets at first; after
    [set("a",1)], [set("b",2)], [set("a",3)] the length is 2, ["a"] has 3,
    ["b"] has 2 and ["c"] is absent. *)
Example three_sets :
  let t := run defaultHashFunction (sets_of [("a", 1); ("b", 2); ("a", 3)]%string)
             HashMap.HashMap in
  List.length (HashMap.buckets (@HashMap.HashMap nat)) = 16 /\
  HashMap.length t = 2 /\
  HashMap.get defaultHashFunction (key_of_string "a") t = Returns (Some 3) /\
  HashMap.get defaultHashFunction (key_of_string "b") t = Returns (Some 2) /\
  HashMap.has defaultHashFunction (key_of_string "c") t = Returns false.
Proof. vm_compute. repeat split; reflexivity. Qed.

(** Twelve entries fill 16 buckets to 0.75; the thirteenth [set] resizes to
    32 buckets and all thirteen keys are found. *)
Example thirteen_sets :
  let t12 := run defaultHashFunction (sets_of twelve_pairs) HashMap.HashMap in
  let t13 := run defaultHashFunction (sets_of (twelve_pairs ++ [("k13", 13)]%string))
               HashMap.HashMap in
  List.length (HashMap.buckets t12) = 16 /\
  List.length (HashMap.buckets t13) = 32 /\
  HashMap.length t13 = 13 /\
  forallb (fun e =>
             match HashMap.get defaultHashFunction (key_of_string e.1) t13 with
             | Returns (Some v) => Nat.eqb v e.2
             | _ => false
             end) (twelve_pairs ++ [("k13", 13)]%string) = true.
Proof. vm_compute. repeat split; reflexivity. Qed.

Lemma constantHashFunction_in_range : in_range constantHashFunction.
Proof. intros k n Hn. exact Hn. Qed.

Lemma remove_last_entry_throws_witness :
  let h := [LinkedList.LinkedListNode (key_of_string "a") 1] in
  let c := {| LinkedList.firstNode := Some 0; LinkedList.lastNode := Some 0;
              LinkedList.nodeCount := 1 |} in
  chain h c [(0, (key_of_string "a", 1))] /\
  LinkedList.remove 0 {| LinkedList.heap := h; LinkedList.this := c |}
  = ({| LinkedList.heap := h;
        LinkedList.this := {| LinkedList.firstNode := None;
                              LinkedList.lastNode := Some 0;
                              LinkedList.nodeCount := 0 |} |}, TypeError).
Proof.
  intros h c.
  assert (chain h c [(0, (key_of_string "a", 1))]) as Hchain.
  { split; [|reflexivity]. simpl. split; [reflexivity|]. exists None. split; reflexivity. }
  split; [exact Hchain|].
  exact (remove_last_entry_throws h c 0 (key_of_string "a") 1 Hchain).
Defined.

Lemma remove_only_entry_of_bucket_throws_witness :
  let t := run defaultHashFunction (sets_of [("a", 1)]%string) HashMap.HashMap in
  in_range defaultHashFunction /\
  HashMap.has defaultHashFunction (key_of_string "a") t = Returns true /\
  exists t',
    HashMap.remove defaultHashFunction (key_of_string "a") t = (t', TypeError) /\
    HashMap.has defaultHashFunction (key_of_string "a") t' = Returns false /\
    HashMap.length t' + 1 = HashMap.length t.
Proof.
  intros t. split; [exact defaultHashFunction_in_range|]. split; [reflexivity|].
  apply (remove_only_entry_of_bucket_throws defaultHashFunction
           defaultHashFunction_in_range (sets_of [("a", 1)]%string) (key_of_string "a")
           {| LinkedList.firstNode := Some 0; LinkedList.lastNode := Some 0;
              LinkedList.nodeCount := 1 |}); reflexivity.
Defined.

Lemma get_has_after_calls_witness :
  let ops := sets_of [("a", 1); ("b", 2); ("a", 3)]%string in
  let t := run defaultHashFunction ops HashMap.HashMap in
  in_range defaultHashFunction /\
  HashMap.get defaultHashFunction (key_of_string "a") t = Returns (Some 3) /\
  HashMap.has defaultHashFunction (key_of_string "a") t = Returns true.
Proof.
  intros ops t. split; [exact defaultHashFunction_in_range|].
  exact (get_has_after_calls defaultHashFunction defaultHashFunction_in_range ops
           (key_of_string "a")).
Defined.

(** C4 as stated fails where the key being set is already present: with 12
    entries in 16 buckets, [set("k1", 100)] triggers the resize, and
    [get("k1")] is 100 afterwards, not the previous 1. *)
Lemma resize_overwrites_the_key_being_set :
  ~ resize_keeps_every_value defaultHashFunction
      (run defaultHashFunction (sets_of twelve_pairs) HashMap.HashMap)
      (key_of_string "k1") 100.
Proof.
  intros H. destruct H as (t' & Hset & _ & Hget).
  { apply Qle_bool_iff. vm_compute. reflexivity. }
  apply (f_equal fst) in Hset. cbn [fst] in Hset. subst t'.
  specialize (Hget (key_of_string "k1") 1 eq_refl).
  vm_compute in Hget. discriminate Hget.
Qed.

Lemma resize_keeps_other_keys_witness :
  let t := run defaultHashFunction (sets_of twelve_pairs) HashMap.HashMap in
  in_range defaultHashFunction /\
  (3 # 4 <= HashMap.loadFactor t)%Q /\
  exists t',
    HashMap.set defaultHashFunction (key_of_string "k1") 100 t = (t', Returns tt) /\
    List.length (HashMap.buckets t') = 2 * List.length (HashMap.buckets t) /\
    HashMap.get defaultHashFunction (key_of_string "k1") t' = Returns (Some 100) /\
    forall k', k' ≠ key_of_string "k1" ->
      HashMap.get defaultHashFunction k' t' = HashMap.get defaultHashFunction k' t.
Proof.
  intros t.
  assert (3 # 4 <= HashMap.loadFactor t)%Q as Htrigger.
  { apply Qle_bool_iff. vm_compute. reflexivity. }
  split; [exact defaultHashFunction_in_range|]. split; [exact Htrigger|].
  exact (resize_keeps_other_keys defaultHashFunction defaultHashFunction_in_range
           (sets_of twelve_pairs) (key_of_string "k1") 100 Htrigger).
Defined.

Lemma load_factor_checked_before_insertion_witness :
  let t := run defaultHashFunction (sets_of twelve_pairs) HashMap.HashMap in
  in_range defaultHashFunction /\
  exists t1 t2,
    HashMap.resizeBucketsIfNeeded defaultHashFunction t = (t1, Returns tt) /\
    (HashMap.loadFactor t1 < 3 # 4)%Q /\
    HashMap.set defaultHashFunction (key_of_string "k13") 13 t = (t2, Returns tt) /\
    List.length (HashMap.buckets t2) = List.length (HashMap.buckets t1) /\
    HashMap.length t1 <= HashMap.length t2 <= HashMap.length t1 + 1 /\
    (ratio (HashMap.length t2 - 1) (List.length (HashMap.buckets t2)) < 3 # 4)%Q.
Proof.
  intros t. split; [exact defaultHashFunction_in_range|].
  exact (proj2 (load_factor_checked_before_insertion defaultHashFunction
                  defaultHashFunction_in_range (sets_of twelve_pairs)
                  (key_of_string "k13") 13)).
Defined.

(** C6 as stated fails where the first [set] brings the load factor to
    0.75: after 11 entries, [set("k12", 12)] makes 12 entries in 16 buckets,
    and the same call again rebuilds the table with 32 buckets and 12 new
    nodes. *)
Lemma second_set_may_resize :
  ~ second_set_changes_nothing defaultHashFunction
      (run defaultHashFunction (sets_of eleven_pairs) HashMap.HashMap)
      (key_of_string "k12") 12.
Proof.
  intros (_ & Hnodes & _). vm_compute in Hnodes. discriminate Hnodes.
Qed.

Lemma second_set_keeps_contents_witness :
  let t := run defaultHashFunction (sets_of eleven_pairs) HashMap.HashMap in
  in_range defaultHashFunction /\
  exists t1 t2,
    HashMap.set defaultHashFunction (key_of_string "k12") 12 t = (t1, Returns tt) /\
    HashMap.set defaultHashFunction (key_of_string "k12") 12 t1 = (t2, Returns tt) /\
    HashMap.length t2 = HashMap.length t1 /\
    (forall k', HashMap.get defaultHashFunction k' t2 = HashMap.get defaultHashFunction k' t1) /\
    ((HashMap.loadFactor t1 < 3 # 4)%Q -> t2 = t1) /\
    ((3 # 4 <= HashMap.loadFactor t1)%Q ->
     List.length (HashMap.buckets t2) = 2 * List.length (HashMap.buckets t1)).
Proof.
  intros t. split; [exact defaultHashFunction_in_range|].
  exact (second_set_keeps_contents defaultHashFunction defaultHashFunction_in_range
           (sets_of eleven_pairs) (key_of_string "k12") 12).
Defined.

Lemma entries_replay_witness :
  let pairs := [(key_of_string "a", 1); (key_of_string "b", 2); (key_of_string "a", 3)] in
  let t := run defaultHashFunction (map (fun e => OpSet e.1 e.2) pairs) HashMap.HashMap in
  in_range defaultHashFunction /\ in_range constantHashFunction /\ 0 < 1 /\
  exists elements t',
    HashMap.entries t = Returns elements /\
    for_each (HashMap.set constantHashFunction) elements
      (HashMap.resize 1 HashMap.HashMap).1 = (t', Returns tt) /\
    forall k, HashMap.get constantHashFunction k t' = HashMap.get defaultHashFunction k t.
Proof.
  intros pairs t.
  split; [exact defaultHashFunction_in_range|].
  split; [exact constantHashFunction_in_range|].
  split; [lia|].
  exact (entries_replay defaultHashFunction constantHashFunction
           defaultHashFunction_in_range constantHashFunction_in_range pairs 1
           (Nat.lt_0_1)).
Defined.

(** C9 as stated fails: [remove] called on the list holding ["a"] with the
    node of ["y"], which belongs to the other list, returns normally. It has
    brought the count of the first list to 0 although ["a"] is still linked
    there, and unlinked ["y"] from the second list, whose count stays 3. *)
Lemma remove_accepts_foreign_entry :
  let '(h, first, second) := two_lists in
  chain h first [(0, (key_of_string "a", 1))] /\
  chain h second [(3, (key_of_string "z", 4)); (2, (key_of_string "y", 3));
                  (1, (key_of_string "x", 2))] /\
  ~ fails_fast {| LinkedList.heap := h; LinkedList.this := first |} 2.
Proof.
  destruct two_lists as [[h first] second] eqn:E. vm_compute in E.
  injection E as <- <- <-. split; [|split].
  - split; [|reflexivity]. simpl. split; [reflexivity|]. exists None. split; reflexivity.
  - split; [|reflexivity]. simpl. split; [reflexivity|]. exists (Some 2).
    split; [reflexivity|]. split; [reflexivity|]. exists (Some 1).
    split; [reflexivity|]. split; [reflexivity|]. exists None. split; reflexivity.
  - intros Hfails. apply Hfails. vm_compute. reflexivity.
Qed.

Lemma remove_is_given_own_entries_witness :
  let t := run defaultHashFunction (sets_of [("a", 1)]%string) HashMap.HashMap in
  let h := two_lists.1.1 in
  let first := two_lists.1.2 in
  let emptied :=
    {| LinkedList.firstNode := LinkedList.firstNode first;
       LinkedList.lastNode := LinkedList.lastNode first;
       LinkedList.nodeCount := 0 |} in
  in_range defaultHashFunction /\
  List.length (HashMap.buckets (@HashMap.HashMap nat)) = 16 /\
  0 < List.length (HashMap.buckets t) /\
  (LinkedList.nodeCount first ≠ 0 /\
   h !! 2 = Some (LinkedList.mkNode (key_of_string "y") 3 (Some 1) (Some 3)) /\
   is_Some (h !! 3) /\ is_Some (h !! 1) /\
   exists h',
     LinkedList.remove 2 {| LinkedList.heap := h; LinkedList.this := first |}
     = ({| LinkedList.heap := h';
           LinkedList.this :=
             {| LinkedList.firstNode := LinkedList.firstNode first;
                LinkedList.lastNode := LinkedList.lastNode first;
                LinkedList.nodeCount := LinkedList.nodeCount first - 1 |} |},
        Returns tt)) /\
  (LinkedList.nodeCount emptied = 0 /\
   LinkedList.remove 2 {| LinkedList.heap := h; LinkedList.this := emptied |}
   = ({| LinkedList.heap := h; LinkedList.this := emptied |}, Returns tt)).
Proof.
  intros t h first emptied. split; [exact defaultHashFunction_in_range|].
  pose proof (remove_is_given_own_entries defaultHashFunction
                defaultHashFunction_in_range (sets_of [("a", 1)]%string)
                (key_of_string "a")) as (Hsixteen & Hpositive & _ & Hinterior & Hguard).
  split; [exact Hsixteen|]. split; [exact Hpositive|]. split.
  - assert (LinkedList.nodeCount first ≠ 0) as Hcount by (vm_compute; lia).
    split; [exact Hcount|]. split; [reflexivity|].
    split; [by eexists|]. split; [by eexists|].
    exact (Hinterior h first 2 3 1
             (LinkedList.mkNode (key_of_string "y") 3 (Some 1) (Some 3))
             (LinkedList.mkNode (key_of_string "z") 4 (Some 2) None)
             (LinkedList.mkNode (key_of_string "x") 2 None (Some 2))
             Hcount eq_refl eq_refl eq_refl eq_refl eq_refl).
  - split; [reflexivity|]. exact (Hguard h emptied 2 eq_refl).
Defined.

Lemma defaultHashFunction_in_bounds_witness :
  1 <= 16 /\
  defaultHashFunction (key_of_string "Hello") 16 < 16 /\
  defaultHashFunction [] 16 = 0.
Proof.
  assert (1 <= 16) as Hn by lia. split; [exact Hn|].
  pose proof (defaultHashFunction_in_bounds (V := nat) (key_of_string "Hello") 16
                (sets_of [("a", 1)]%string) (key_of_string "a") 1 Hn) as H.
  exact (conj (proj1 H) (proj1 (proj2 H))).
Defined.

(** * More of linked-list.js *)
Section ChainCalls.
Context {V : Type}.
Implicit Types (h : LinkedList.Heap V) (l : list (nat * (Key * V))) (p : nat).
Implicit Types (c : LinkedList.state).

Lemma locate_relabel k v l : locate k (relabel k v l) = locate k l.
Proof.
  induction l as [|[q [k' v']] l IH]; [done|]. cbn [relabel locate].
  destruct (decide (k' = k)) as [->|Hne]; cbn [locate].
  - by destruct (decide (k = k)).
  - by destruct (decide (k' = k)).
Qed.

(** [append] in full: the node it returns, the cells of the chain after the
    call, and what it leaves in [lastNode]. *)
Lemma append_full h c l k v :
  chain h c l -> NoDup l.*1 ->
  exists h' c' l',
    LinkedList.append k v {| LinkedList.heap := h; LinkedList.this := c |}
    = ({| LinkedList.heap := h'; LinkedList.this := c' |}, Returns (locate k l')) /\
    chain_step h c l h' c' l' /\
    l' = match locate k l with
         | Some _ => relabel k v l
         | None => (List.length h, (k, v)) :: l
         end /\
    LinkedList.lastNode c'
    = match LinkedList.lastNode c with
      | Some last => Some last
      | None => match locate k l with Some _ => None | None => Some (List.length h) end
      end.
Proof.
  intros Hch Hnd. pose proof Hch as [Hd Hc].
  unfold LinkedList.append, bind.
  rewrite (search_spec _ _ _ k Hch Hnd).
  pose proof (locate_lookup k l) as Hloc.
  destruct (locate k l) as [p|] eqn:Hp.
  - destruct Hloc as (v0 & Hin & Hlk).
    destruct (dseg_lookup _ _ _ _ _ _ _ _ Hd Hin) as (nx & pv & Hhp).
    unfold LinkedList.write. simpl. rewrite Hhp. simpl.
    eexists _, _, (relabel k v l). split; [by rewrite locate_relabel, Hp|]. split.
    + split; [|split; [|split; [|split]]].
      * split; [|by rewrite Hc, <- (length_fmap fst (relabel k v l)), relabel_fst, length_fmap].
        by eapply dseg_relabel.
      * by rewrite relabel_fst.
      * by rewrite length_insert.
      * intros q _ Hq. apply list_lookup_insert_ne. intros ->.
        apply Hq. by eapply locate_elem.
      * rewrite relabel_fst. by left.
    + split; [done|]. by destruct (LinkedList.lastNode c).
  - unfold LinkedList.alloc, LinkedList.get_firstNode, LinkedList.write. simpl.
    rewrite lookup_app_r, Nat.sub_diag; [|done]. simpl.
    assert (forall (nd x : LinkedList.Node V),
      <[List.length h := x]> (h ++ [nd]) = h ++ [x]) as Hins.
    { intros nd x. rewrite insert_app_r_alt, Nat.sub_diag; done. }
    rewrite Hins.
    assert (forall l0, locate k ((List.length h, (k, v)) :: l0) = Some (List.length h))
      as Hhead.
    { intros l0. cbn [locate]. by destruct (decide (k = k)). }
    destruct l as [|[f [kf vf]] l]; simpl in Hd.
    + rewrite Hd. simpl.
      assert (forall c', LinkedList.firstNode c' = Some (List.length h) ->
                LinkedList.nodeCount c' = 1 ->
                chain_step h c []
                  (h ++ [LinkedList.with_next None (LinkedList.LinkedListNode k v)]) c'
                  [(List.length h, (k, v))]) as Hstep.
      { intros c' Hf Hn. split; [|split; [|split; [|split]]].
        - split; [|done]. simpl. split; [done|]. exists None. split; [|done].
          rewrite lookup_app_r, Nat.sub_diag; done.
        - simpl. apply NoDup_singleton.
        - rewrite length_app. lia.
        - intros q Hq _. by apply lookup_app_l.
        - intros q Hq. right. simpl in Hq. apply list_elem_of_singleton in Hq. lia. }
      destruct (LinkedList.lastNode c); simpl;
        (eexists _, _, [(List.length h, (k, v))];
         split; [rewrite Hhead; reflexivity|];
         split; [|done]; apply Hstep; simpl; [done|]; simpl in Hc; lia).
    + destruct Hd as (Hf & nx & Hhf & Hd). rewrite Hf. simpl.
      pose proof (lookup_lt_Some _ _ _ Hhf) as Hflt.
      rewrite lookup_app_l, Hhf; [|done]. simpl.
      apply NoDup_cons in Hnd as [Hf_notin Hnd].
      set (h' := <[f := _]> (h ++ _)).
      assert (h' !! List.length h
              = Some (LinkedList.mkNode k v (Some f) None)) as Hnew.
      { unfold h'. rewrite list_lookup_insert_ne; [|lia].
        rewrite lookup_app_r, Nat.sub_diag; done. }
      assert (forall q, q < List.length h -> q ≠ f -> h' !! q = h !! q) as Hold.
      { intros q Hq Hne. unfold h'. rewrite list_lookup_insert_ne; [|done].
        by apply lookup_app_l. }
      assert (forall c', LinkedList.firstNode c' = Some (List.length h) ->
                LinkedList.nodeCount c' = S (LinkedList.nodeCount c) ->
                chain_step h c ((f, (kf, vf)) :: l) h' c'
                  ((List.length h, (k, v)) :: (f, (kf, vf)) :: l)) as Hstep.
      { intros c' Hf' Hn. split; [|split; [|split; [|split]]].
        - split; [|simpl in *; lia]. simpl. split; [done|]. exists (Some f).
          split; [done|]. split; [done|]. exists nx. split.
          + unfold h'. rewrite list_lookup_insert_eq; [done|].
            rewrite length_app. lia.
          + eapply dseg_frame; [done|]. intros q Hq. apply Hold.
            * by eapply dseg_handle_lt.
            * intros ->. done.
        - simpl. apply NoDup_cons. split; [|by apply NoDup_cons].
          intros Hin. apply elem_of_cons in Hin as [Heq|Hin]; [lia|].
          apply (dseg_handle_lt _ _ _ _ _ _ Hd) in Hin. lia.
        - unfold h'. rewrite length_insert, length_app. lia.
        - intros q Hq Hnotin. apply Hold; [done|]. intros ->. apply Hnotin.
          simpl. apply elem_of_cons. by left.
        - intros q Hq. simpl in Hq. apply elem_of_cons in Hq as [->|Hq]; [right; lia|].
          by left. }
      destruct (LinkedList.lastNode c); simpl;
        (eexists _, _, ((List.length h, (k, v)) :: (f, (kf, vf)) :: l);
         split; [rewrite Hhead; reflexivity|];
         split; [|done]; apply Hstep; simpl; done).
Qed.

(** [remove] of an entry that is not alone, in full. *)
Lemma remove_full h c l1 p k v l2 :
  chain h c (l1 ++ (p, (k, v)) :: l2) ->
  NoDup (l1 ++ (p, (k, v)) :: l2).*1 ->
  l1 ++ l2 ≠ [] ->
  exists h' c',
    LinkedList.remove p {| LinkedList.heap := h; LinkedList.this := c |}
    = ({| LinkedList.heap := h'; LinkedList.this := c' |}, Returns tt) /\
    chain_step h c (l1 ++ (p, (k, v)) :: l2) h' c' (l1 ++ l2) /\
    LinkedList.lastNode c'
    = match l2 with [] => last_handle None l1 | _ => LinkedList.lastNode c end.
Proof.
  intros [Hd Hc] Hnd Hne.
  apply dseg_app in Hd as [Hd1 (_ & nx & Hp & Hd2)].
  cbn [first_handle fst] in Hd1.
  rewrite length_app in Hc. cbn [List.length] in Hc.
  rewrite fmap_app, fmap_cons in Hnd. cbn [fst] in Hnd.
  apply NoDup_app in Hnd as (Hnd1 & Hdisj & Hnd2).
  apply NoDup_cons in Hnd2 as [Hp2 Hnd2].
  assert (p ∉ l1.*1) as Hp1.
  { intros Hin. apply (Hdisj _ Hin). apply elem_of_cons. by left. }
  pose proof (lookup_lt_Some _ _ _ Hp) as Hplt.
  unfold LinkedList.remove, bind, LinkedList.get_nodeCount, LinkedList.set_nodeCount,
    LinkedList.read, LinkedList.write, LinkedList.set_firstNode, LinkedList.set_lastNode,
    LinkedList.nonnull, ret.
  cbn [LinkedList.heap LinkedList.this LinkedList.nodeCount LinkedList.firstNode
       LinkedList.lastNode].
  replace (LinkedList.nodeCount c) with (S (List.length l1 + List.length l2)) by lia.
  destruct l1 as [|[a [ka va]] l1' _] using rev_ind.
  - (* the head is removed *)
    cbn [last_handle last] in Hp. simpl in Hd1.
    destruct l2 as [|[q [kq vq]] l2']; [done|].
    destruct Hd2 as (-> & nxq & Hq & Hd2).
    assert (q ≠ p) as Hqp.
    { intros ->. apply Hp2. simpl. apply elem_of_cons. by left. }
    pose proof (lookup_lt_Some _ _ _ Hq) as Hqlt.
    repeat (simpl;
      first [ rewrite Hp | rewrite Hq
            | rewrite list_lookup_insert_eq by (by rewrite ?length_insert)
            | rewrite list_lookup_insert_ne by done ]).
    rewrite list_insert_insert_eq.
    eexists _, _. split; [reflexivity|]. split; [|done].
    simpl in Hnd2. apply NoDup_cons in Hnd2 as [Hq2 Hnd2'].
    split; [|split; [|split; [|split]]].
    + split; [|simpl; lia]. simpl. split; [done|]. exists nxq. split.
      * by rewrite list_lookup_insert_eq.
      * eapply dseg_frame; [done|]. intros r Hr.
        apply list_lookup_insert_ne. intros ->. done.
    + simpl. by apply NoDup_cons.
    + by rewrite length_insert.
    + intros r _ Hr. apply list_lookup_insert_ne. intros ->. apply Hr.
      simpl. apply elem_of_cons. right. apply elem_of_cons. by left.
    + intros r Hr. left. simpl. apply elem_of_cons. by right.
  - (* a node after the head is removed *)
    rewrite last_handle_snoc in Hp. cbn [fst] in Hp.
    apply dseg_app in Hd1 as [Hd1 (_ & nxa & Ha & Hnxa)].
    simpl in Hd1, Hnxa. subst nxa.
    rewrite fmap_app in Hnd1, Hp1, Hdisj. simpl in Hnd1, Hp1, Hdisj.
    pose proof Hnd1 as Hnd1a.
    apply NoDup_app in Hnd1 as (Hnd1 & Hdisj1 & _).
    assert (a ≠ p) as Hap.
    { intros ->. apply Hp1. apply elem_of_app. right. apply elem_of_cons. by left. }
    assert (a ∉ l1'.*1) as Ha1.
    { intros Hin. apply (Hdisj1 _ Hin). apply elem_of_cons. by left. }
    pose proof (lookup_lt_Some _ _ _ Ha) as Halt.
    destruct l2 as [|[q [kq vq]] l2'].
    + simpl in Hd2. subst nx.
      repeat (simpl;
        first [ rewrite Hp | rewrite Ha
              | rewrite list_lookup_insert_eq by (by rewrite ?length_insert)
              | rewrite list_lookup_insert_ne by done ]).
      rewrite list_insert_insert_eq.
      eexists _, _. split; [reflexivity|]. split; [|by rewrite last_handle_snoc].
      rewrite app_nil_r.
      split; [|split; [|split; [|split]]].
      * split; [|rewrite !length_app in *; simpl in *; lia].
        apply dseg_app. simpl. split.
        -- eapply dseg_frame; [done|]. intros r Hr.
           apply list_lookup_insert_ne. intros ->. done.
        -- split; [done|]. exists None. split; [|done].
           by rewrite list_lookup_insert_eq.
      * rewrite fmap_app. simpl. apply NoDup_app. split; [done|]. split; [done|].
        apply NoDup_singleton.
      * by rewrite length_insert.
      * intros r _ Hr. apply list_lookup_insert_ne. intros ->. apply Hr.
        rewrite !fmap_app. simpl. apply elem_of_app. left. apply elem_of_app. right.
        apply elem_of_cons. by left.
      * intros r Hr. left. rewrite fmap_app. apply elem_of_app. by left.
    + destruct Hd2 as (-> & nxq & Hq & Hd2).
      assert (q ≠ p) as Hqp.
      { intros ->. apply Hp2. simpl. apply elem_of_cons. by left. }
      assert (q ≠ a) as Hqa.
      { intros ->. eapply (Hdisj a).
        - apply elem_of_app. right. apply elem_of_cons. by left.
        - simpl. apply elem_of_cons. right. apply elem_of_cons. by left. }
      pose proof (lookup_lt_Some _ _ _ Hq) as Hqlt.
      repeat (simpl;
        first [ rewrite Hp | rewrite Ha | rewrite Hq
              | rewrite list_lookup_insert_eq by (by rewrite ?length_insert)
              | rewrite list_lookup_insert_ne by done ]).
      eexists _, _. split; [reflexivity|]. split; [|done].
      simpl in Hnd2. apply NoDup_cons in Hnd2 as [Hq2 Hnd2'].
      split; [|split; [|split; [|split]]].
      * split; [|rewrite !length_app in *; simpl in *; rewrite ?length_app in *; simpl in *; lia].
        rewrite <- app_assoc. apply dseg_app. simpl. split.
        -- eapply dseg_frame; [done|]. intros r Hr.
           assert (a ≠ r) by (by intros <-).
           assert (q ≠ r).
           { intros <-. eapply (Hdisj q).
             - apply elem_of_app. by left.
             - simpl. apply elem_of_cons. right. apply elem_of_cons. by left. }
           by rewrite !list_lookup_insert_ne.
        -- split; [done|]. exists (Some q). split.
           ++ rewrite list_lookup_insert_ne by done.
              by rewrite list_lookup_insert_eq.
           ++ split; [done|]. exists nxq. split.
              ** rewrite list_lookup_insert_eq; [done|]. by rewrite length_insert.
              ** eapply dseg_frame; [done|]. intros r Hr.
                 assert (q ≠ r) by (by intros <-).
                 assert (a ≠ r).
                 { intros <-. eapply (Hdisj a).
                   - apply elem_of_app. right. simpl. apply elem_of_cons. by left.
                   - simpl. apply elem_of_cons. right. apply elem_of_cons. by right. }
                 by rewrite !list_lookup_insert_ne.
      * rewrite fmap_app. apply NoDup_app. split; [by rewrite fmap_app|].
        split; [|by apply NoDup_cons].
        intros r Hr1 Hr2. rewrite fmap_app in Hr1. apply (Hdisj r Hr1).
        apply elem_of_cons. by right.
      * by rewrite !length_insert.
      * intros r _ Hr.
        assert (a ≠ r).
        { intros <-. apply Hr. rewrite !fmap_app. simpl. apply elem_of_app. left.
          apply elem_of_app. right. apply elem_of_cons. by left. }
        assert (q ≠ r).
        { intros <-. apply Hr. rewrite !fmap_app. simpl. apply elem_of_app. right.
          apply elem_of_cons. right. apply elem_of_cons. by left. }
        by rewrite !list_lookup_insert_ne.
      * intros r Hr. left. rewrite fmap_app in Hr |- *. apply elem_of_app in Hr as [Hr|Hr].
        -- apply elem_of_app. by left.
        -- apply elem_of_app. right. rewrite fmap_cons. apply elem_of_cons. by right.
Qed.

End ChainCalls.

Section ChainProperties.
Context {V : Type}.
Implicit Types (h : LinkedList.Heap V) (l : list (nat * (Key * V))) (p : nat).
Implicit Types (c : LinkedList.state).

Lemma map_pair_id (es : list (Key * V)) : map (fun e => (e.1, e.2)) es = es.
Proof. induction es as [|[k v] es IH]; simpl; [done|]. by rewrite IH. Qed.

Lemma forEach_pairs h c l :
  chain h c l -> NoDup l.*1 ->
  LinkedList.forEach push_pair [] {| LinkedList.heap := h; LinkedList.this := c |}
  = Returns l.*2.
Proof.
  intros Hch Hnd.
  pose proof (forEach_spec (fun k v => (k, v)) h c l [] Hch Hnd) as Heq.
  rewrite map_pair_id in Heq. exact Heq.
Qed.

Lemma locate_None_lookup k l : locate k l = None -> Model.lookup k l.*2 = None.
Proof. intros Hloc. pose proof (locate_lookup k l) as H. by rewrite Hloc in H. Qed.

Lemma locate_Some_lookup k l p :
  locate k l = Some p -> exists v, (p, (k, v)) ∈ l /\ Model.lookup k l.*2 = Some v.
Proof. intros Hloc. pose proof (locate_lookup k l) as H. by rewrite Hloc in H. Qed.

(** X1: on a well-formed chain [search(key)] returns, without changing
    anything: the first node that holds the key ([locate], counting from
    [firstNode]), whose value is the one the chain associates with the key,
    or [null] when no entry has the key. *)
Theorem search_finds_first_match h c l (k : Key) :
  chain h c l -> NoDup l.*1 ->
  exists result,
    LinkedList.search k {| LinkedList.heap := h; LinkedList.this := c |}
    = ({| LinkedList.heap := h; LinkedList.this := c |}, Returns result) /\
    result = locate k l /\
    match result with
    | Some node =>
      exists v nx pv, h !! node = Some (LinkedList.mkNode k v nx pv) /\
                      Model.lookup k l.*2 = Some v
    | None => k ∉ l.*2.*1
    end.
Proof.
  intros Hch Hnd. exists (locate k l). split; [by apply search_spec|].
  split; [done|].
  destruct (locate k l) as [node|] eqn:Hloc.
  - destruct (locate_Some_lookup _ _ _ Hloc) as (v & Hin & Hlk).
    destruct Hch as [Hd _].
    destruct (dseg_lookup _ _ _ _ _ _ _ _ Hd Hin) as (nx & pv & Hnode). eauto.
  - apply lookup_None. by apply locate_None_lookup.
Qed.

(** X2: on a well-formed chain [append(key, value)] returns a node.  When
    the key is new, the entry is put at the head: [forEach] then visits it
    first and the old entries after it, and the length is one more.  When
    the key is present, its value is overwritten in place: the order and
    the length are unchanged.  In both cases a [search(key)] that follows
    returns the node [append] returned, and that node holds [value]. *)
Theorem append_puts_new_key_at_head h c l (k : Key) (v : V) :
  chain h c l -> NoDup l.*1 ->
  exists s' node,
    LinkedList.append k v {| LinkedList.heap := h; LinkedList.this := c |}
    = (s', Returns (Some node)) /\
    LinkedList.forEach push_pair [] s'
    = Returns (match Model.lookup k l.*2 with
               | Some _ => Model.update k v l.*2
               | None => (k, v) :: l.*2
               end) /\
    LinkedList.length (LinkedList.this s')
    = List.length l + match Model.lookup k l.*2 with Some _ => 0 | None => 1 end /\
    LinkedList.search k s' = (s', Returns (Some node)) /\
    LinkedList.read LinkedList.value node s' = (s', Returns v).
Proof.
  intros Hch Hnd.
  destruct (append_full h c l k v Hch Hnd)
    as (h' & c' & l' & Heq & (Hch' & Hnd' & _) & Hl' & _).
  assert (exists node, locate k l' = Some node /\ (node, (k, v)) ∈ l' /\
            l'.*2 = match Model.lookup k l.*2 with
                    | Some _ => Model.update k v l.*2
                    | None => (k, v) :: l.*2
                    end /\
            List.length l'
            = List.length l + match Model.lookup k l.*2 with Some _ => 0 | None => 1 end)
    as (node & Hloc' & Hin' & Hcontents & Hlen).
  { destruct (locate k l) as [q|] eqn:Hloc.
    - destruct (locate_Some_lookup _ _ _ Hloc) as (v0 & Hin & Hlk). subst l'.
      exists q. rewrite locate_relabel, relabel_snd, Hlk. split; [done|].
      split; [|split; [done|]].
      + pose proof (locate_lookup k (relabel k v l)) as H.
        rewrite locate_relabel, Hloc, relabel_snd, lookup_update, Hlk in H.
        destruct H as (v' & Hin' & Hv'). destruct (decide (k = k)); [|done].
        by simplify_eq.
      + rewrite <- (length_fmap fst (relabel k v l)), relabel_fst, length_fmap. lia.
    - rewrite (locate_None_lookup _ _ Hloc). subst l'. exists (List.length h).
      cbn [locate]. destruct (decide (k = k)); [|done].
      split; [done|]. split; [apply elem_of_cons; by left|]. split; [done|].
      cbn [List.length]. lia. }
  rewrite Hloc' in Heq. eexists _, node. split; [exact Heq|].
  split; [by rewrite (forEach_pairs _ _ l' Hch' Hnd'), Hcontents|]. split.
  { cbn [LinkedList.this]. unfold LinkedList.length. destruct Hch' as [_ ->]. done. }
  split; [by rewrite (search_spec _ _ l' k), Hloc'|].
  destruct Hch' as [Hd' _].
  destruct (dseg_lookup _ _ _ _ _ _ _ _ Hd' Hin') as (nx & pv & Hnode).
  unfold LinkedList.read. cbn [LinkedList.heap]. by rewrite Hnode.
Qed.

(** X3: on a well-formed chain of two or more entries, [remove] of one of
    its entries returns; [forEach] then visits the other entries in the
    order they had, and the length is one less. *)
Theorem remove_unlinks_entry h c l1 l2 p (k : Key) (v : V) :
  chain h c (l1 ++ (p, (k, v)) :: l2) ->
  NoDup (l1 ++ (p, (k, v)) :: l2).*1 ->
  l1 ++ l2 ≠ [] ->
  exists s',
    LinkedList.remove p {| LinkedList.heap := h; LinkedList.this := c |}
    = (s', Returns tt) /\
    LinkedList.forEach push_pair [] s' = Returns (l1.*2 ++ l2.*2) /\
    LinkedList.length (LinkedList.this s') = List.length l1 + List.length l2.
Proof.
  intros Hch Hnd Hne.
  destruct (remove_full h c l1 p k v l2 Hch Hnd Hne)
    as (h' & c' & Heq & (Hch' & Hnd' & _) & _).
  eexists. split; [exact Heq|]. split.
  - by rewrite (forEach_pairs _ _ (l1 ++ l2)), fmap_app.
  - cbn [LinkedList.this]. unfold LinkedList.length. destruct Hch' as [_ ->].
    by rewrite length_app.
Qed.

(** X4: appending a new key to a non-empty well-formed chain and removing
    the node [append] returned gives back the entries there were, in the
    same order, and the same length.  (On an empty chain the [remove]
    throws.) *)
Theorem append_then_remove_restores h c l (k : Key) (v : V) :
  chain h c l -> NoDup l.*1 -> l ≠ [] -> k ∉ l.*2.*1 ->
  exists s1 node s2,
    LinkedList.append k v {| LinkedList.heap := h; LinkedList.this := c |}
    = (s1, Returns (Some node)) /\
    LinkedList.remove node s1 = (s2, Returns tt) /\
    LinkedList.forEach push_pair [] s2 = Returns l.*2 /\
    LinkedList.length (LinkedList.this s2) = List.length l.
Proof.
  intros Hch Hnd Hne Hk.
  destruct (append_full h c l k v Hch Hnd)
    as (h' & c' & l' & Heq & (Hch' & Hnd' & _) & Hl' & _).
  assert (locate k l = None) as Hloc.
  { destruct (locate k l) as [q|] eqn:Hloc; [|done].
    destruct (locate_Some_lookup _ _ _ Hloc) as (v0 & _ & Hlk).
    apply lookup_None in Hk. congruence. }
  rewrite Hloc in Hl'. subst l'.
  cbn [locate] in Heq. destruct (decide (k = k)); [|done].
  destruct (remove_full h' c' [] (List.length h) k v l Hch' Hnd' Hne)
    as (h'' & c'' & Heq' & (Hch'' & Hnd'' & _) & _).
  eexists _, _, _. split; [exact Heq|]. split; [exact Heq'|]. split.
  - by rewrite (forEach_pairs _ _ l).
  - cbn [LinkedList.this]. unfold LinkedList.length. by destruct Hch'' as [_ ->].
Qed.

Lemma last_handle_nonempty prv prv' l : l ≠ [] -> last_handle prv l = last_handle prv' l.
Proof.
  intros Hne. unfold last_handle. destruct (last l) eqn:Hlast; [done|].
  apply last_None in Hlast. done.
Qed.

Lemma last_handle_relabel prv k v l : last_handle prv (relabel k v l) = last_handle prv l.
Proof.
  revert prv. induction l as [|[q [k' v']] l IH]; intros prv; [done|].
  cbn [relabel]. destruct (decide (k' = k)).
  - by rewrite !last_handle_cons.
  - rewrite !last_handle_cons. apply IH.
Qed.

(** X5: [append] keeps [lastNode] at the last entry of the chain: on a
    well-formed chain whose [lastNode] is its last entry (or [null] when
    empty), the chain after [append] is well formed and its [lastNode] is
    again its last entry. *)
Theorem append_keeps_lastNode h c l (k : Key) (v : V) :
  tailed h c l -> NoDup l.*1 ->
  exists h' c' l' node,
    LinkedList.append k v {| LinkedList.heap := h; LinkedList.this := c |}
    = ({| LinkedList.heap := h'; LinkedList.this := c' |}, Returns (Some node)) /\
    tailed h' c' l' /\ NoDup l'.*1 /\
    l'.*2 = Model.append k v l.*2.
Proof.
  intros [Hch Htail] Hnd.
  destruct (append_full h c l k v Hch Hnd)
    as (h' & c' & l' & Heq & (Hch' & Hnd' & _) & Hl' & Hlast).
  destruct (locate k l) as [q|] eqn:Hloc.
  - destruct (locate_Some_lookup _ _ _ Hloc) as (v0 & Hin & Hlk). subst l'.
    rewrite locate_relabel, Hloc in Heq.
    exists h', c', (relabel k v l), q. split; [exact Heq|]. split; [|split; [done|]].
    + split; [done|]. rewrite Hlast, last_handle_relabel, Htail.
      by destruct (last_handle None l).
    + rewrite relabel_snd. unfold Model.append. by rewrite Hlk.
  - subst l'. cbn [locate] in Heq. destruct (decide (k = k)); [|done].
    exists h', c', ((List.length h, (k, v)) :: l), (List.length h).
    split; [exact Heq|]. split; [|split; [done|]].
    + split; [done|]. rewrite Hlast, Htail, last_handle_cons. cbn [fst].
      destruct l as [|cell l]; [done|].
      rewrite (last_handle_nonempty (Some (List.length h)) None) by done.
      unfold last_handle. rewrite last_cons. by destruct (last l).
    + rewrite fmap_cons. unfold Model.append.
      by rewrite (locate_None_lookup _ _ Hloc).
Qed.

(** X6: a [remove] that returns keeps [lastNode] at the last entry: on a
    well-formed chain of two or more entries whose [lastNode] is its last
    entry, after [remove] of one of its entries the chain is well formed
    without that entry and [lastNode] is its last entry. *)
Theorem remove_keeps_lastNode h c l1 l2 p (k : Key) (v : V) :
  tailed h c (l1 ++ (p, (k, v)) :: l2) ->
  NoDup (l1 ++ (p, (k, v)) :: l2).*1 ->
  l1 ++ l2 ≠ [] ->
  exists h' c',
    LinkedList.remove p {| LinkedList.heap := h; LinkedList.this := c |}
    = ({| LinkedList.heap := h'; LinkedList.this := c' |}, Returns tt) /\
    tailed h' c' (l1 ++ l2).
Proof.
  intros [Hch Htail] Hnd Hne.
  destruct (remove_full h c l1 p k v l2 Hch Hnd Hne)
    as (h' & c' & Heq & (Hch' & _) & Hlast).
  exists h', c'. split; [exact Heq|]. split; [done|]. rewrite Hlast.
  destruct l2 as [|cell l2].
  - by rewrite app_nil_r.
  - rewrite Htail. unfold last_handle. by rewrite !last_app.
Qed.

End ChainProperties.

(** * More of hash-map.js *)

Lemma ratio_le (c n : nat) : 0 < n -> (ratio c n <= 3 # 4)%Q <-> 4 * c <= 3 * n.
Proof.
  intros Hn. unfold ratio.
  assert (0 < inject_Z (Z.of_nat n))%Q as Hpos by (unfold Qlt, inject_Z; simpl; lia).
  assert (~ inject_Z (Z.of_nat n) == 0)%Q as Hnz by (unfold Qeq, inject_Z; simpl; lia).
  split.
  - intros H. apply (Qmult_le_r _ _ _ Hpos) in H.
    unfold Qdiv in H. rewrite <- Qmult_assoc in H.
    rewrite (Qmult_comm (/ _)) in H. rewrite Qmult_inv_r in H by done.
    rewrite Qmult_1_r in H. unfold Qle, Qmult, inject_Z in H; simpl in H. lia.
  - intros H. apply (Qmult_le_r _ _ _ Hpos).
    unfold Qdiv. rewrite <- Qmult_assoc.
    rewrite (Qmult_comm (/ _)). rewrite Qmult_inv_r by done.
    rewrite Qmult_1_r. unfold Qle, Qmult, inject_Z; simpl. lia.
Qed.

(** X7: reducing modulo the bucket count at every step gives what one
    reduction of the whole base-31 number gives. *)
Theorem defaultHashFunction_is_polynomial_mod (key : Key) (n : nat) :
  0 < n -> defaultHashFunction key n = polynomial key mod n.
Proof.
  intros Hn. unfold defaultHashFunction, polynomial.
  assert (forall a b, a mod n = b mod n ->
            fold_left (fun hashCode charCode => (hashCode * 31 + charCode) mod n) key a
            mod n
            = fold_left (fun hashCode charCode => hashCode * 31 + charCode) key b mod n)
    as Hfold.
  { induction key as [|ch key IH]; intros a b Hab; simpl; [done|].
    apply IH. rewrite Nat.Div0.mod_mod.
    rewrite (Nat.Div0.add_mod (a * 31)), (Nat.Div0.add_mod (b * 31)).
    rewrite (Nat.Div0.mul_mod a), (Nat.Div0.mul_mod b), Hab. done. }
  rewrite <- (Hfold 0 0 eq_refl). symmetry. apply Nat.mod_small.
  by apply defaultHashFunction_lt.
Qed.

Section TableProperties.
Context {V : Type}.
Variable hashFn : Key -> nat -> nat.
Hypothesis hashFn_in_range : in_range hashFn.
Implicit Types (t : HashMap.state V) (bs : Model.table V) (k : Key) (v : V).


Lemma remove_find t bs k :
  refines t bs -> well_placed hashFn bs ->
  exists t' bs' r,
    HashMap.remove hashFn k t = (t', r) /\
    refines t' bs' /\ well_placed hashFn bs' /\
    List.length bs' = List.length bs /\
    (forall k', Model.find hashFn k' bs'
                = if decide (k = k') then None else Model.find hashFn k' bs) /\
    Model.count bs' + match Model.find hashFn k bs with Some _ => 1 | None => 0 end
    = Model.count bs.
Proof.
  intros Href Hwp.
  destruct (remove_post hashFn hashFn_in_range bs k Hwp)
    as (bs' & r & Hrm & Hwp' & Hlen' & Hfind' & Hcount' & _).
  destruct (remove_sim hashFn k t bs Href) as [Href' Hr]. rewrite Hrm in Href', Hr.
  destruct (HashMap.remove hashFn k t) as [t' r'].
  cbn [fst snd] in Href', Hr. subst r'. eauto 10.
Qed.

(** X8: on a table reached from a new one, [set(key, value)] returns; the
    key then has the value, every other key has what it had, and [length()]
    is one more when the key was absent and unchanged when it was
    present. *)
Theorem set_updates_one_key (ops : list (@Op V)) k v :
  let t := run hashFn ops HashMap.HashMap in
  exists t',
    HashMap.set hashFn k v t = (t', Returns tt) /\
    HashMap.get hashFn k t' = Returns (Some v) /\
    (forall k', k' ≠ k -> HashMap.get hashFn k' t' = HashMap.get hashFn k' t) /\
    HashMap.length t'
    = HashMap.length t
      + match HashMap.get hashFn k t with Returns (Some _) => 0 | _ => 1 end.
Proof.
  intros t. destruct (run_model hashFn hashFn_in_range ops) as [Href [Hwp _]].
  fold t in Href.
  destruct (set_returns hashFn hashFn_in_range t _ k v Href Hwp)
    as (t' & bs' & Hset & _ & Href' & Hwp' & Hfind & Hcount & _).
  destruct (refines_length _ _ Href) as [_ Hcnt].
  destruct (refines_length _ _ Href') as [_ Hcnt'].
  exists t'. split; [done|]. split; [|split].
  - rewrite (get_find hashFn hashFn_in_range _ _ k Href' Hwp'), Hfind.
    by destruct (decide (k = k)).
  - intros k' Hne.
    rewrite (get_find hashFn hashFn_in_range _ _ k' Href' Hwp'),
      (get_find hashFn hashFn_in_range _ _ k' Href Hwp), Hfind.
    by destruct (decide (k = k')).
  - rewrite (get_find hashFn hashFn_in_range _ _ k Href Hwp), Hcnt, Hcnt', Hcount.
    by destruct (Model.find hashFn k _).
Qed.

(** X9: on a table reached from a new one, [remove(key)] of a present key
    whose bucket holds another entry as well returns true; the key is
    absent afterwards and [length()] is one less. *)
Theorem remove_returns_true (ops : list (@Op V)) k c :
  let t := run hashFn ops HashMap.HashMap in
  HashMap.has hashFn k t = Returns true ->
  HashMap.buckets t !! hashFn k (List.length (HashMap.buckets t)) = Some c ->
  LinkedList.nodeCount c ≠ 1 ->
  exists t',
    HashMap.remove hashFn k t = (t', Returns true) /\
    HashMap.has hashFn k t' = Returns false /\
    HashMap.get hashFn k t' = Returns None /\
    HashMap.length t' + 1 = HashMap.length t.
Proof.
  intros t Hhas Hc Hmore.
  destruct (run_model hashFn hashFn_in_range ops) as [Href [Hwp _]]. fold t in Href.
  destruct (remove_cases hashFn hashFn_in_range t _ k Href Hwp)
    as (t' & bs' & r & c' & Hremove & Href' & Hwp' & Hc' & Hgone & Hcase).
  rewrite Hhas in Hcase. destruct Hcase as [Hlen ->].
  assert (c' = c) as -> by congruence.
  exists t'. destruct (decide (LinkedList.nodeCount c = 1)); [done|].
  split; [done|]. split; [done|]. split; [|done].
  rewrite (has_find hashFn hashFn_in_range _ _ k Href' Hwp') in Hgone.
  rewrite (get_find hashFn hashFn_in_range _ _ k Href' Hwp').
  by destruct (Model.find hashFn k bs').
Qed.

(** X10: on a table reached from a new one, [remove(key)] of an absent key
    returns false and leaves the table exactly as it was. *)
Theorem remove_absent_key (ops : list (@Op V)) k :
  let t := run hashFn ops HashMap.HashMap in
  HashMap.has hashFn k t = Returns false ->
  HashMap.remove hashFn k t = (t, Returns false).
Proof.
  intros t Hhas.
  destruct (run_model hashFn hashFn_in_range ops) as [Href [Hwp _]]. fold t in Href.
  destruct (remove_cases hashFn hashFn_in_range t _ k Href Hwp)
    as (t' & bs' & r & c' & Hremove & _ & _ & _ & _ & Hcase).
  rewrite Hhas in Hcase. destruct Hcase as [-> ->]. done.
Qed.

(** X11: on a table reached from a new one, whatever [remove(key)] does
    (return or throw), it leaves every other key with the value it had and
    the bucket count as it was, and [key] itself absent. *)
Theorem remove_keeps_other_keys (ops : list (@Op V)) k :
  let t := run hashFn ops HashMap.HashMap in
  let t' := (HashMap.remove hashFn k t).1 in
  (forall k', k' ≠ k -> HashMap.get hashFn k' t' = HashMap.get hashFn k' t) /\
  HashMap.get hashFn k t' = Returns None /\
  List.length (HashMap.buckets t') = List.length (HashMap.buckets t).
Proof.
  intros t t'.
  destruct (run_model hashFn hashFn_in_range ops) as [Href [Hwp _]]. fold t in Href.
  destruct (remove_find t _ k Href Hwp)
    as (t'' & bs' & r & Hremove & Href' & Hwp' & Hlen' & Hfind' & _).
  assert (t' = t'') as -> by (unfold t'; by rewrite Hremove).
  destruct (refines_length _ _ Href) as [Hlen _].
  destruct (refines_length _ _ Href') as [Hlen'' _].
  split; [|split].
  - intros k' Hne.
    rewrite (get_find hashFn hashFn_in_range _ _ k' Href' Hwp'),
      (get_find hashFn hashFn_in_range _ _ k' Href Hwp), Hfind'.
    by destruct (decide (k = k')).
  - rewrite (get_find hashFn hashFn_in_range _ _ k Href' Hwp'), Hfind'.
    by destruct (decide (k = k)).
  - lia.
Qed.

(** X12: setting an absent key and removing it again leaves every key
    with the value it had before the two calls, and [length()] as it was,
    whether the [remove] returned or threw. *)
Theorem set_then_remove_restores (ops : list (@Op V)) k v :
  let t := run hashFn ops HashMap.HashMap in
  HashMap.get hashFn k t = Returns None ->
  let t1 := (HashMap.set hashFn k v t).1 in
  let t2 := (HashMap.remove hashFn k t1).1 in
  (forall k', HashMap.get hashFn k' t2 = HashMap.get hashFn k' t) /\
  HashMap.length t2 = HashMap.length t.
Proof.
  intros t Habsent t1 t2.
  destruct (run_model hashFn hashFn_in_range ops) as [Href [Hwp _]]. fold t in Href.
  rewrite (get_find hashFn hashFn_in_range _ _ k Href Hwp) in Habsent.
  injection Habsent as Habsent.
  destruct (set_returns hashFn hashFn_in_range t _ k v Href Hwp)
    as (t1' & bs1 & Hset & _ & Href1 & Hwp1 & Hfind1 & Hcount1 & _).
  assert (t1 = t1') as -> by (unfold t1; by rewrite Hset).
  destruct (remove_find t1' bs1 k Href1 Hwp1)
    as (t2' & bs2 & r & Hremove & Href2 & Hwp2 & _ & Hfind2 & Hcount2).
  assert (t2 = t2') as -> by (unfold t2; by rewrite Hremove).
  destruct (refines_length _ _ Href) as [_ Hcnt].
  destruct (refines_length _ _ Href2) as [_ Hcnt2].
  rewrite Habsent in Hcount1. rewrite (Hfind1 k) in Hcount2.
  destruct (decide (k = k)); [|done].
  split; [|lia].
  intros k'. rewrite (get_find hashFn hashFn_in_range _ _ k' Href2 Hwp2),
    (get_find hashFn hashFn_in_range _ _ k' Href Hwp), Hfind2, Hfind1.
  destruct (decide (k = k')) as [<-|?]; [by rewrite Habsent|done].
Qed.

End TableProperties.

Section TableViews.
Context {V : Type}.
Variable hashFn : Key -> nat -> nat.
Hypothesis hashFn_in_range : in_range hashFn.
Implicit Types (t : HashMap.state V) (bs : Model.table V) (k : Key) (v : V).

(** X13: on a table reached from a new one, [keys()] returns each present
    key once and nothing else: it has no duplicate, it has [length()]
    elements, and a key is in it exactly when [has(key)] is true. *)
Theorem keys_are_the_present_keys (ops : list (@Op V)) :
  let t := run hashFn ops HashMap.HashMap in
  exists ks,
    HashMap.keys t = Returns ks /\
    NoDup ks /\
    List.length ks = HashMap.length t /\
    forall k, k ∈ ks <-> HashMap.has hashFn k t = Returns true.
Proof.
  intros t. destruct (run_model hashFn hashFn_in_range ops) as [Href [Hwp _]].
  fold t in Href. set (bs := fold_left _ _ _) in *.
  destruct (refines_length _ _ Href) as [_ Hcnt].
  exists (concat bs).*1. split; [by apply keys_spec|].
  split; [by eapply well_placed_NoDup|].
  split; [by rewrite length_fmap, Hcnt|].
  intros k. rewrite (has_find hashFn hashFn_in_range _ _ k Href Hwp).
  rewrite <- (lookup_concat hashFn bs k Hwp).
  pose proof (lookup_None k (concat bs)) as Hnone.
  destruct (Model.lookup k (concat bs)) as [v|].
  - split; [done|]. intros _.
    destruct (decide (k ∈ (concat bs).*1)) as [|Hnotin]; [done|].
    apply Hnone in Hnotin. done.
  - split; [|done]. intros Hin. exfalso. by apply (proj1 Hnone).
Qed.


Lemma model_step_length bs (o : @Op V) :
  steady hashFn bs ->
  List.length (model_step hashFn bs o) = List.length bs \/
  List.length (model_step hashFn bs o) = 2 * List.length bs.
Proof.
  intros [Hwp [Hn Hc]]. destruct o as [k v|k|]; cbn [model_step].
  - destruct (set_post_spec hashFn hashFn_in_range bs k v Hwp)
      as (bs' & -> & _ & _ & _ & Hsame & Hdouble). cbn [fst].
    destruct (decide (4 * Model.count bs < 3 * List.length bs)) as [Hlt|Hge].
    + left. by apply Hsame.
    + right. apply Hdouble; lia.
  - destruct (remove_post hashFn hashFn_in_range bs k Hwp)
      as (bs' & r & -> & _ & Hlen' & _). by left.
  - left. by destruct (clear_post hashFn bs Hwp) as (_ & -> & _).
Qed.

Lemma model_run_length (ops : list (@Op V)) bs :
  steady hashFn bs ->
  exists j, List.length (fold_left (model_step hashFn) ops bs) = List.length bs * 2 ^ j.
Proof.
  revert bs. induction ops as [|o ops IH]; intros bs Hsteady.
  - exists 0. simpl. lia.
  - cbn [fold_left].
    destruct (IH _ (steady_step hashFn hashFn_in_range bs o Hsteady)) as [j Hj].
    destruct (model_step_length bs o Hsteady) as [Heq|Heq]; rewrite Heq in Hj.
    + by exists j.
    + exists (S j). rewrite Hj. cbn [Nat.pow]. lia.
Qed.

Lemma step_refines t bs (o : @Op V) :
  refines t bs -> refines (step hashFn t o) (model_step hashFn bs o).
Proof.
  intros Href. apply (run_refines hashFn [o] t bs Href).
Qed.

(** X15: the bucket count of a table reached from a new one is 16 times a
    power of two, and no call makes it smaller. *)
Theorem bucket_count_only_doubles (ops : list (@Op V)) (o : @Op V) :
  let t := run hashFn ops HashMap.HashMap in
  (exists j, List.length (HashMap.buckets t) = 16 * 2 ^ j) /\
  List.length (HashMap.buckets t) <= List.length (HashMap.buckets (step hashFn t o)).
Proof.
  intros t. destruct (run_model hashFn hashFn_in_range ops) as [Href Hsteady].
  fold t in Href. set (bs := fold_left _ _ _) in *.
  destruct (refines_length _ _ Href) as [Hlen _]. split.
  - destruct (model_run_length ops (Model.empty 16) (steady_empty hashFn)) as [j Hj].
    fold bs in Hj. unfold Model.empty in Hj. rewrite length_replicate in Hj.
    exists j. by rewrite Hlen.
  - destruct (refines_length _ _ (step_refines t bs o Href)) as [Hlen' _].
    rewrite Hlen, Hlen'. destruct (model_step_length bs o Hsteady); lia.
Qed.

(** X16: between calls the load factor never exceeds 0.75: on every table
    reached from a new one, [loadFactor() <= 0.75]. *)
Theorem load_factor_at_most_threshold (ops : list (@Op V)) :
  (HashMap.loadFactor (run hashFn ops HashMap.HashMap) <= 3 # 4)%Q.
Proof.
  destruct (run_model hashFn hashFn_in_range ops) as [Href [Hwp [Hn Hc]]].
  set (t := run hashFn ops HashMap.HashMap) in *. set (bs := fold_left _ _ _) in *.
  destruct (refines_length _ _ Href) as [Hlen Hcnt].
  destruct (model_run_length ops (Model.empty 16) (steady_empty hashFn)) as [j Hj].
  fold bs in Hj. unfold Model.empty in Hj. rewrite length_replicate in Hj.
  unfold HashMap.loadFactor. rewrite Hlen, Hcnt. apply ratio_le; [lia|].
  rewrite Hj in Hc |- *. lia.
Qed.

(** X17: on a table reached from a new one, [resizeBucketsIfNeeded()]
    returns and keeps the contents: every key has the value it had and
    [length()] is unchanged.  Below a load factor of 0.75 it changes nothing
    at all; from 0.75 on it leaves exactly twice the buckets. *)
Theorem resize_check_keeps_contents (ops : list (@Op V)) :
  let t := run hashFn ops HashMap.HashMap in
  exists t1,
    HashMap.resizeBucketsIfNeeded hashFn t = (t1, Returns tt) /\
    (forall k, HashMap.get hashFn k t1 = HashMap.get hashFn k t) /\
    HashMap.length t1 = HashMap.length t /\
    ((HashMap.loadFactor t < 3 # 4)%Q -> t1 = t) /\
    ((3 # 4 <= HashMap.loadFactor t)%Q ->
     List.length (HashMap.buckets t1) = 2 * List.length (HashMap.buckets t)).
Proof.
  intros t. destruct (run_model hashFn hashFn_in_range ops) as [Href [Hwp [Hn Hc]]].
  fold t in Href. set (bs := fold_left _ _ _) in *.
  destruct (check_returns hashFn hashFn_in_range t bs Href Hwp)
    as (t1 & bs1 & Hcheck & Href1 & Hwp1 & Hfind1 & Hcount1 & Hsame & Hdouble).
  destruct (refines_length _ _ Href) as [Hlen Hcnt].
  destruct (refines_length _ _ Href1) as [Hlen1 Hcnt1].
  exists t1. split; [done|]. split; [|split; [lia|split]].
  - intros k. by rewrite (get_find hashFn hashFn_in_range _ _ k Href1 Hwp1),
      (get_find hashFn hashFn_in_range _ _ k Href Hwp), Hfind1.
  - unfold HashMap.loadFactor. rewrite Hlen, Hcnt. intros Hlt%ratio_lt; [|lia].
    by destruct (Hsame Hlt).
  - unfold HashMap.loadFactor. rewrite Hlen, Hcnt. intros [_ Hge]%ratio_ge.
    rewrite Hlen1. apply Hdouble; lia.
Qed.

End TableViews.

(** X18: a hash function that answers an index outside the bucket array
    makes [get], [has] and [remove] raise a [TypeError] (a method of
    [undefined] is called), on any table, which they leave as it was; so
    does [set] when the table needs no resize. *)
Theorem out_of_range_hash_throws {V : Type} (hashFn : Key -> nat -> nat)
    (t : HashMap.state V) (k : Key) (v : V) :
  List.length (HashMap.buckets t) <= hashFn k (List.length (HashMap.buckets t)) ->
  HashMap.get hashFn k t = TypeError /\
  HashMap.has hashFn k t = TypeError /\
  HashMap.remove hashFn k t = (t, TypeError) /\
  ((HashMap.loadFactor t < 3 # 4)%Q -> HashMap.set hashFn k v t = (t, TypeError)).
Proof.
  intros Hout. apply lookup_ge_None_2 in Hout.
  unfold HashMap.get, HashMap.has, HashMap.remove, bind, HashMap.on_bucket.
  rewrite Hout. split; [done|]. split; [done|]. split; [done|].
  intros Hlt. unfold HashMap.set. cbn [HashMap.set_fuel].
  unfold bind at 1, HashMap.resizeBucketsIfNeeded_with.
  destruct (Qle_bool (3 # 4) (HashMap.loadFactor t)) eqn:E.
  { apply Qle_bool_iff in E. by apply Qlt_not_le in Hlt. }
  unfold ret at 1. unfold bind, HashMap.on_bucket. by rewrite Hout.
Qed.

(** X19: [resize(bucketCount)] on any table returns and drops every entry:
    it leaves [bucketCount] empty buckets, so that [length()] is 0 and
    [entries()] is empty; no node is touched. *)
Theorem resize_drops_every_entry {V : Type} (t : HashMap.state V) (bucketCount : nat) :
  exists t',
    HashMap.resize bucketCount t = (t', Returns tt) /\
    List.length (HashMap.buckets t') = bucketCount /\
    HashMap.length t' = 0 /\
    HashMap.entries t' = Returns [] /\
    HashMap.heap t' = HashMap.heap t.
Proof.
  unfold HashMap.resize. eexists. split; [reflexivity|].
  cbn [HashMap.buckets HashMap.heap].
  assert (replicate bucketCount LinkedList.LinkedList
          = map (fun _ => LinkedList.LinkedList)
              (replicate bucketCount LinkedList.LinkedList)) as Hrep.
  { by rewrite map_const, length_replicate. }
  split; [apply length_replicate|]. split; [|split; [|done]].
  - unfold HashMap.length. cbn [HashMap.buckets]. rewrite Hrep. apply length_cleared.
  - unfold HashMap.entries, HashMap.collect. cbn [HashMap.buckets HashMap.heap].
    rewrite Hrep. apply (collect_cleared (fun k v => (k, v))).
Qed.

Section BucketInvariant.
Context {V : Type}.
Variable hashFn : Key -> nat -> nat.
Hypothesis hashFn_in_range : in_range hashFn.

(** X20: in a table reached from a new one, every bucket is a well-formed
    chain (its [next] and [prev] links agree, its head has no predecessor,
    and [nodeCount] nodes are linked).  [forEach] on it returns; the keys
    it visits are pairwise different, and each of them is sent to this very
    bucket by the hash function under the current bucket count. *)
Theorem entries_sit_in_their_bucket (ops : list (@Op V)) (i : nat) (c : LinkedList.state) :
  let t := run hashFn ops HashMap.HashMap in
  HashMap.buckets t !! i = Some c ->
  exists l,
    chain (HashMap.heap t) c l /\ NoDup l.*1 /\
    LinkedList.forEach push_pair []
      {| LinkedList.heap := HashMap.heap t; LinkedList.this := c |} = Returns l.*2 /\
    LinkedList.length c = List.length l.*2 /\
    NoDup l.*2.*1 /\
    forall k, k ∈ l.*2.*1 -> hashFn k (List.length (HashMap.buckets t)) = i.
Proof.
  intros t Hc. destruct (run_model hashFn hashFn_in_range ops) as [Href [Hwp _]].
  fold t in Href. destruct (refines_length _ _ Href) as [Hlen _].
  destruct Href as (L & Hrep & HL).
  destruct (represents_bucket _ _ _ _ Hrep Hc) as (l & Hl & Hch & Hnd).
  exists l. split; [done|]. split; [done|]. split; [by apply forEach_pairs|].
  split; [unfold LinkedList.length; destruct Hch as [_ ->]; by rewrite length_fmap|].
  rewrite HL in Hwp, Hlen. destruct Hwp as [_ Hplaced].
  assert (contents L !! i = Some l.*2) as Hb by (by rewrite contents_lookup, Hl).
  destruct (Hplaced i _ Hb) as [Hkeys Hhash]. split; [done|].
  intros k Hk. rewrite Hlen. by apply Hhash.
Qed.

End BucketInvariant.

(** ** Concrete runs of the further properties *)

Lemma single_chain : chain single_heap single_list [(0, (key_of_string "a", 1))].
Proof.
  split; [|reflexivity]. simpl. split; [reflexivity|]. exists None. split; reflexivity.
Qed.

Lemma pair_chain :
  chain pair_heap pair_list [(1, (key_of_string "b", 2)); (0, (key_of_string "a", 1))].
Proof.
  split; [|reflexivity]. simpl. split; [reflexivity|]. exists (Some 0).
  split; [reflexivity|]. split; [reflexivity|]. exists None. split; reflexivity.
Qed.

Lemma single_handles : NoDup [(0, (key_of_string "a", 1))].*1.
Proof. apply NoDup_singleton. Qed.

Lemma pair_handles :
  NoDup ([] ++ [(1, (key_of_string "b", 2)); (0, (key_of_string "a", 1))]).*1.
Proof. simpl. apply NoDup_cons. split; [|apply NoDup_singleton]. by intros ?%list_elem_of_singleton. Qed.

Lemma search_finds_first_match_witness :
  chain single_heap single_list [(0, (key_of_string "a", 1))] /\
  NoDup [(0, (key_of_string "a", 1))].*1 /\
  exists result,
    LinkedList.search (key_of_string "a")
      {| LinkedList.heap := single_heap; LinkedList.this := single_list |}
    = ({| LinkedList.heap := single_heap; LinkedList.this := single_list |},
       Returns result).
Proof.
  split; [exact single_chain|]. split; [exact single_handles|].
  destruct (search_finds_first_match single_heap single_list _ (key_of_string "a")
              single_chain single_handles) as (result & Heq & _).
  exists result. exact Heq.
Defined.

Lemma append_puts_new_key_at_head_witness :
  chain single_heap single_list [(0, (key_of_string "a", 1))] /\
  NoDup [(0, (key_of_string "a", 1))].*1 /\
  exists s' node,
    LinkedList.append (key_of_string "b") 2
      {| LinkedList.heap := single_heap; LinkedList.this := single_list |}
    = (s', Returns (Some node)) /\
    LinkedList.forEach push_pair [] s'
    = Returns [(key_of_string "b", 2); (key_of_string "a", 1)].
Proof.
  split; [exact single_chain|]. split; [exact single_handles|].
  destruct (append_puts_new_key_at_head single_heap single_list _ (key_of_string "b") 2
              single_chain single_handles) as (s' & node & Heq & Hvisit & _).
  exists s', node. split; [exact Heq|exact Hvisit].
Defined.

Lemma remove_unlinks_entry_witness :
  chain pair_heap pair_list ([] ++ [(1, (key_of_string "b", 2)); (0, (key_of_string "a", 1))]) /\
  [] ++ [(0, (key_of_string "a", 1))] ≠ [] /\
  exists s',
    LinkedList.remove 1 {| LinkedList.heap := pair_heap; LinkedList.this := pair_list |}
    = (s', Returns tt) /\
    LinkedList.forEach push_pair [] s' = Returns [(key_of_string "a", 1)].
Proof.
  assert ([] ++ [(0, (key_of_string "a", 1))] ≠ []) as Hne by discriminate.
  split; [exact pair_chain|]. split; [exact Hne|].
  destruct (remove_unlinks_entry pair_heap pair_list [] [(0, (key_of_string "a", 1))] 1
              (key_of_string "b") 2 pair_chain pair_handles Hne)
    as (s' & Heq & Hvisit & _).
  exists s'. split; [exact Heq|exact Hvisit].
Defined.

Lemma append_then_remove_restores_witness :
  chain single_heap single_list [(0, (key_of_string "a", 1))] /\
  (key_of_string "b" ∉ [(0, (key_of_string "a", 1))].*2.*1) /\
  exists s1 node s2,
    LinkedList.append (key_of_string "b") 2
      {| LinkedList.heap := single_heap; LinkedList.this := single_list |}
    = (s1, Returns (Some node)) /\
    LinkedList.remove node s1 = (s2, Returns tt) /\
    LinkedList.forEach push_pair [] s2 = Returns [(key_of_string "a", 1)].
Proof.
  assert (key_of_string "b" ∉ [(0, (key_of_string "a", 1))].*2.*1) as Hfresh.
  { intros Hin. apply list_elem_of_singleton in Hin. discriminate Hin. }
  assert ([(0, (key_of_string "a", 1))] ≠ []) as Hne by discriminate.
  split; [exact single_chain|]. split; [exact Hfresh|].
  destruct (append_then_remove_restores single_heap single_list _ (key_of_string "b") 2
              single_chain single_handles Hne Hfresh)
    as (s1 & node & s2 & Heq1 & Heq2 & Hvisit & _).
  exists s1, node, s2. split; [exact Heq1|]. split; [exact Heq2|exact Hvisit].
Defined.

Lemma append_keeps_lastNode_witness :
  tailed single_heap single_list [(0, (key_of_string "a", 1))] /\
  exists h' c' l' node,
    LinkedList.append (key_of_string "b") 2
      {| LinkedList.heap := single_heap; LinkedList.this := single_list |}
    = ({| LinkedList.heap := h'; LinkedList.this := c' |}, Returns (Some node)) /\
    tailed h' c' l'.
Proof.
  assert (tailed single_heap single_list [(0, (key_of_string "a", 1))]) as Htailed.
  { split; [exact single_chain|reflexivity]. }
  split; [exact Htailed|].
  destruct (append_keeps_lastNode single_heap single_list _ (key_of_string "b") 2
              Htailed single_handles) as (h' & c' & l' & node & Heq & Htailed' & _).
  exists h', c', l', node. split; [exact Heq|exact Htailed'].
Defined.

Lemma remove_keeps_lastNode_witness :
  tailed pair_heap pair_list
    ([] ++ [(1, (key_of_string "b", 2)); (0, (key_of_string "a", 1))]) /\
  exists h' c',
    LinkedList.remove 1 {| LinkedList.heap := pair_heap; LinkedList.this := pair_list |}
    = ({| LinkedList.heap := h'; LinkedList.this := c' |}, Returns tt) /\
    tailed h' c' ([] ++ [(0, (key_of_string "a", 1))]).
Proof.
  assert (tailed pair_heap pair_list
            ([] ++ [(1, (key_of_string "b", 2)); (0, (key_of_string "a", 1))]))
    as Htailed.
  { split; [exact pair_chain|reflexivity]. }
  assert ([] ++ [(0, (key_of_string "a", 1))] ≠ []) as Hne by discriminate.
  split; [exact Htailed|].
  exact (remove_keeps_lastNode pair_heap pair_list [] [(0, (key_of_string "a", 1))] 1
           (key_of_string "b") 2 Htailed pair_handles Hne).
Defined.

Lemma defaultHashFunction_is_polynomial_mod_witness :
  0 < 16 /\
  defaultHashFunction (key_of_string "Hello") 16 = polynomial (key_of_string "Hello") mod 16.
Proof.
  assert (0 < 16) as Hn by lia. split; [exact Hn|].
  exact (defaultHashFunction_is_polynomial_mod (key_of_string "Hello") 16 Hn).
Defined.

Lemma set_updates_one_key_witness :
  let t := run defaultHashFunction (sets_of [("a", 1); ("b", 2)]%string) HashMap.HashMap in
  in_range defaultHashFunction /\
  exists t',
    HashMap.set defaultHashFunction (key_of_string "a") 3 t = (t', Returns tt) /\
    HashMap.get defaultHashFunction (key_of_string "a") t' = Returns (Some 3).
Proof.
  intros t. split; [exact defaultHashFunction_in_range|].
  destruct (set_updates_one_key defaultHashFunction defaultHashFunction_in_range
              (sets_of [("a", 1); ("b", 2)]%string) (key_of_string "a") 3)
    as (t' & Hset & Hget & _).
  exists t'. split; [exact Hset|exact Hget].
Defined.

Lemma remove_returns_true_witness :
  let t := run defaultHashFunction (sets_of shared_bucket_pairs) HashMap.HashMap in
  in_range defaultHashFunction /\
  HashMap.has defaultHashFunction (key_of_string "Instrument") t = Returns true /\
  exists t',
    HashMap.remove defaultHashFunction (key_of_string "Instrument") t = (t', Returns true) /\
    HashMap.has defaultHashFunction (key_of_string "Instrument") t' = Returns false /\
    HashMap.get defaultHashFunction (key_of_string "Instrument") t' = Returns None /\
    HashMap.length t' + 1 = HashMap.length t.
Proof.
  intros t. split; [exact defaultHashFunction_in_range|]. split; [reflexivity|].
  apply (remove_returns_true defaultHashFunction defaultHashFunction_in_range
           (sets_of shared_bucket_pairs) (key_of_string "Instrument")
           {| LinkedList.firstNode := Some 1; LinkedList.lastNode := Some 0;
              LinkedList.nodeCount := 2 |}); [reflexivity|reflexivity|].
  simpl. lia.
Defined.

Lemma remove_absent_key_witness :
  let t := run defaultHashFunction (sets_of [("a", 1); ("b", 2)]%string) HashMap.HashMap in
  in_range defaultHashFunction /\
  HashMap.has defaultHashFunction (key_of_string "c") t = Returns false /\
  HashMap.remove defaultHashFunction (key_of_string "c") t = (t, Returns false).
Proof.
  intros t. split; [exact defaultHashFunction_in_range|].
  assert (HashMap.has defaultHashFunction (key_of_string "c") t = Returns false) as Hhas
    by reflexivity.
  split; [exact Hhas|].
  exact (remove_absent_key defaultHashFunction defaultHashFunction_in_range
           (sets_of [("a", 1); ("b", 2)]%string) (key_of_string "c") Hhas).
Defined.

Lemma remove_keeps_other_keys_witness :
  let t := run defaultHashFunction (sets_of [("a", 1); ("b", 2)]%string) HashMap.HashMap in
  let t' := (HashMap.remove defaultHashFunction (key_of_string "a") t).1 in
  in_range defaultHashFunction /\
  HashMap.get defaultHashFunction (key_of_string "a") t' = Returns None /\
  List.length (HashMap.buckets t') = List.length (HashMap.buckets t).
Proof.
  intros t t'. split; [exact defaultHashFunction_in_range|].
  exact (proj2 (remove_keeps_other_keys defaultHashFunction defaultHashFunction_in_range
                  (sets_of [("a", 1); ("b", 2)]%string) (key_of_string "a"))).
Defined.

Lemma set_then_remove_restores_witness :
  let t := run defaultHashFunction (sets_of [("a", 1); ("b", 2)]%string) HashMap.HashMap in
  let t1 := (HashMap.set defaultHashFunction (key_of_string "c") 3 t).1 in
  let t2 := (HashMap.remove defaultHashFunction (key_of_string "c") t1).1 in
  in_range defaultHashFunction /\
  HashMap.get defaultHashFunction (key_of_string "c") t = Returns None /\
  (forall k', HashMap.get defaultHashFunction k' t2 = HashMap.get defaultHashFunction k' t) /\
  HashMap.length t2 = HashMap.length t.
Proof.
  intros t t1 t2. split; [exact defaultHashFunction_in_range|].
  assert (HashMap.get defaultHashFunction (key_of_string "c") t = Returns None) as Habsent
    by reflexivity.
  split; [exact Habsent|].
  exact (set_then_remove_restores defaultHashFunction defaultHashFunction_in_range
           (sets_of [("a", 1); ("b", 2)]%string) (key_of_string "c") 3 Habsent).
Defined.

Lemma keys_are_the_present_keys_witness :
  let t := run defaultHashFunction (sets_of [("a", 1); ("b", 2)]%string) HashMap.HashMap in
  in_range defaultHashFunction /\
  exists ks,
    HashMap.keys t = Returns ks /\ NoDup ks /\ List.length ks = HashMap.length t.
Proof.
  intros t. split; [exact defaultHashFunction_in_range|].
  destruct (keys_are_the_present_keys defaultHashFunction defaultHashFunction_in_range
              (sets_of [("a", 1); ("b", 2)]%string)) as (ks & Hkeys & Hnd & Hlen & _).
  exists ks. split; [exact Hkeys|]. split; [exact Hnd|exact Hlen].
Defined.


Lemma bucket_count_only_doubles_witness :
  let t := run defaultHashFunction (sets_of twelve_pairs) HashMap.HashMap in
  in_range defaultHashFunction /\
  (exists j, List.length (HashMap.buckets t) = 16 * 2 ^ j) /\
  List.length (HashMap.buckets t)
  <= List.length (HashMap.buckets (step defaultHashFunction t (OpSet (key_of_string "k13") 13))).
Proof.
  intros t. split; [exact defaultHashFunction_in_range|].
  exact (bucket_count_only_doubles defaultHashFunction defaultHashFunction_in_range
           (sets_of twelve_pairs) (OpSet (key_of_string "k13") 13)).
Defined.

Lemma load_factor_at_most_threshold_witness :
  in_range defaultHashFunction /\
  (HashMap.loadFactor (run defaultHashFunction (sets_of twelve_pairs) HashMap.HashMap)
   <= 3 # 4)%Q.
Proof.
  split; [exact defaultHashFunction_in_range|].
  exact (load_factor_at_most_threshold defaultHashFunction defaultHashFunction_in_range
           (sets_of twelve_pairs)).
Defined.

Lemma resize_check_keeps_contents_witness :
  let t := run defaultHashFunction (sets_of twelve_pairs) HashMap.HashMap in
  in_range defaultHashFunction /\
  exists t1,
    HashMap.resizeBucketsIfNeeded defaultHashFunction t = (t1, Returns tt) /\
    (forall k, HashMap.get defaultHashFunction k t1 = HashMap.get defaultHashFunction k t) /\
    HashMap.length t1 = HashMap.length t.
Proof.
  intros t. split; [exact defaultHashFunction_in_range|].
  destruct (resize_check_keeps_contents defaultHashFunction defaultHashFunction_in_range
              (sets_of twelve_pairs)) as (t1 & Hcheck & Hget & Hlen & _).
  exists t1. split; [exact Hcheck|]. split; [exact Hget|exact Hlen].
Defined.

Lemma out_of_range_hash_throws_witness :
  List.length (HashMap.buckets (@HashMap.HashMap nat))
  <= overflowingHashFunction (key_of_string "a")
       (List.length (HashMap.buckets (@HashMap.HashMap nat))) /\
  HashMap.get overflowingHashFunction (key_of_string "a") (@HashMap.HashMap nat) = TypeError /\
  HashMap.remove overflowingHashFunction (key_of_string "a") (@HashMap.HashMap nat)
  = (HashMap.HashMap, TypeError).
Proof.
  assert (List.length (HashMap.buckets (@HashMap.HashMap nat))
          <= overflowingHashFunction (key_of_string "a")
               (List.length (HashMap.buckets (@HashMap.HashMap nat)))) as Hout.
  { unfold overflowingHashFunction. lia. }
  split; [exact Hout|].
  pose proof (out_of_range_hash_throws overflowingHashFunction (@HashMap.HashMap nat)
                (key_of_string "a") 1 Hout) as H.
  exact (conj (proj1 H) (proj1 (proj2 (proj2 H)))).
Defined.

Lemma entries_sit_in_their_bucket_witness :
  let t := run defaultHashFunction (sets_of shared_bucket_pairs) HashMap.HashMap in
  let c := {| LinkedList.firstNode := Some 1; LinkedList.lastNode := Some 0;
              LinkedList.nodeCount := 2 |} in
  in_range defaultHashFunction /\
  HashMap.buckets t !! 7 = Some c /\
  exists l,
    chain (HashMap.heap t) c l /\ NoDup l.*1 /\
    LinkedList.forEach push_pair []
      {| LinkedList.heap := HashMap.heap t; LinkedList.this := c |} = Returns l.*2.
Proof.
  intros t c. split; [exact defaultHashFunction_in_range|].
  assert (HashMap.buckets t !! 7 = Some c) as Hc by reflexivity.
  split; [exact Hc|].
  destruct (entries_sit_in_their_bucket defaultHashFunction defaultHashFunction_in_range
              (sets_of shared_bucket_pairs) 7 c Hc) as (l & Hch & Hnd & Hvisit & _).
  exists l. split; [exact Hch|]. split; [exact Hnd|exact Hvisit].
Defined.
